(** * TenSQR: a shallow embedding of [TenSQR.py]

    The program reconstructs viral haplotypes from a matrix of reads over
    SNV positions.  This development embeds the discrete part of the
    program (nucleotide statistics, tensor encoding, majority votes, read
    selection, MEC, the rank-estimation loop and the frequency
    post-processing) and states the properties of the specification over
    that embedding.

    Conventions.
    - A numpy array is a shape together with its elements in C order.
    - Python floats that only ever hold counts, or the values 0.0 and 1.0,
      are integers ([Z]).
    - The probabilities compared in the read selection and in the
      threshold table are binary64 floats ([float]), with the IEEE 754
      operations of the program; [binom.pmf] is a function of the run.
    - The norms of the alternating minimization and the frequencies are
      exact rationals ([Q]).
    - A Python exception is the [Raise] constructor of [result]. *)

From Stdlib Require Import String Ascii.
From Stdlib Require Import List ZArith QArith Qround Lia Lqa Bool Arith Permutation Sorted.
From Stdlib Require Uint63.
From Stdlib Require Import Floats.
Import ListNotations.

Open Scope Z_scope.

(* ================================================================== *)
(** * Exceptions *)

Inductive exn : Type :=
| ValueError (msg : string)
| IndexError (msg : string)
| NameError (msg : string).

Inductive result (A : Type) : Type :=
| Ok (a : A)
| Raise (e : exn).
Arguments Ok {A} a.
Arguments Raise {A} e.

Definition bind {A B : Type} (r : result A) (k : A -> result B) : result B :=
  match r with
  | Ok a => k a
  | Raise e => Raise e
  end.

Notation "'do' x <- r ; k" := (bind r (fun x => k))
  (at level 10, x name, r at level 100, k at level 200).

(* ================================================================== *)
(** * numpy arrays *)

Module Np.

(** An array: its shape and its elements in C (row-major) order. *)
Record ndarray (A : Type) : Type := mk_ndarray {
  shape : list nat;
  data : list A
}.
Arguments mk_ndarray {A} shape data.
Arguments shape {A} n.
Arguments data {A} n.

Definition size_of (sh : list nat) : nat := fold_right Nat.mul 1%nat sh.

Definition wf {A} (a : ndarray A) : Prop :=
  length (data a) = size_of (shape a).

Definition ndim {A} (a : ndarray A) : nat := length (shape a).

(** [a.shape[k]] *)
Definition dim {A} (a : ndarray A) (k : nat) : nat := nth k (shape a) 0%nat.

(** [np.zeros(sh)] *)
Definition zeros (sh : list nat) : ndarray Z :=
  mk_ndarray sh (repeat 0 (size_of sh)).

(** [a[i, j]] of a 2-D array. *)
Definition get2 {A} (d : A) (a : ndarray A) (i j : nat) : A :=
  nth (i * dim a 1 + j) (data a) d.

(** [a == v], elementwise. *)
Definition eq_scalar (a : ndarray Z) (v : Z) : ndarray bool :=
  mk_ndarray (shape a) (map (fun x => Z.eqb x v) (data a)).

(** [b.sum(axis=0)] of a 2-D boolean array: one count per column. *)
Definition sum_axis0 (b : ndarray bool) : list Z :=
  map (fun j =>
         fold_left (fun acc i => acc + (if get2 false b i j then 1 else 0))
                   (seq 0 (dim b 0)) 0)
      (seq 0 (dim b 1)).

(** [out[:, c] = v] on a 2-D array. *)
Definition set_col (out : ndarray Z) (c : nat) (v : list Z) : ndarray Z :=
  let k := dim out 1 in
  mk_ndarray (shape out)
    (map (fun idx =>
            if Nat.eqb (idx mod k) c then nth (idx / k) v 0
            else nth idx (data out) 0)
         (seq 0 (length (data out)))).

(** A 2-D array from its rows, all of length [ncols]. *)
Definition of_rows {A} (ncols : nat) (rows : list (list A)) : ndarray A :=
  mk_ndarray [length rows; ncols] (concat rows).

(** The rows of a 2-D array. *)
Definition to_rows {A} (d : A) (a : ndarray A) : list (list A) :=
  map (fun i => map (fun j => get2 d a i j) (seq 0 (dim a 1)))
      (seq 0 (dim a 0)).

(** Index arithmetic: a multi-index and its position in C order (last
    index fastest) or in Fortran order (first index fastest). *)
Fixpoint unravel_C (sh : list nat) (k : nat) : list nat :=
  match sh with
  | [] => []
  | _ :: rest => (k / size_of rest)%nat :: unravel_C rest (k mod size_of rest)
  end.

Fixpoint unravel_F (sh : list nat) (k : nat) : list nat :=
  match sh with
  | [] => []
  | d :: rest => (k mod d)%nat :: unravel_F rest (k / d)
  end.

Fixpoint ravel_C (sh idx : list nat) : nat :=
  match sh, idx with
  | _ :: rest, i :: idx' => (i * size_of rest + ravel_C rest idx')%nat
  | _, _ => 0%nat
  end.

Fixpoint ravel_F (sh idx : list nat) : nat :=
  match sh, idx with
  | d :: rest, i :: idx' => (i + d * ravel_F rest idx')%nat
  | _, _ => 0%nat
  end.

(** [a.reshape(sh, order='F')]: the elements of [a] are read in Fortran
    order and placed into the new shape in Fortran order. *)
Definition reshape_F {A} (d : A) (a : ndarray A) (sh : list nat) : ndarray A :=
  mk_ndarray sh
    (map (fun k =>
            let kF := ravel_F sh (unravel_C sh k) in
            nth (ravel_C (shape a) (unravel_F (shape a) kF)) (data a) d)
         (seq 0 (size_of sh))).

(** Index of the first maximum of a list, as [np.argmax] finds it; [ltb] is
    the strict order of the elements. *)
Fixpoint argmax_from {A} (ltb : A -> A -> bool)
    (best_i : nat) (best : A) (i : nat) (l : list A) : nat :=
  match l with
  | [] => best_i
  | x :: t => if ltb best x then argmax_from ltb i x (S i) t
              else argmax_from ltb best_i best (S i) t
  end.

Definition argmax_by {A} (ltb : A -> A -> bool) (l : list A) : nat :=
  match l with
  | [] => 0%nat
  | x :: t => argmax_from ltb 0 x 1 t
  end.

(** [np.argmax] of a list of integers (counts). *)
Definition argmax_list (l : list Z) : nat := argmax_by Z.ltb l.

(** [np.argmax(a, axis=-1)]: the last axis is contiguous in C order. *)
Definition argmax_last {A} (ltb : A -> A -> bool) (d : A) (a : ndarray A)
  : ndarray Z :=
  let n := last (shape a) 0%nat in
  let sh := removelast (shape a) in
  mk_ndarray sh
    (map (fun k =>
            Z.of_nat (argmax_by ltb
                        (map (fun g => nth (k * n + g) (data a) d) (seq 0 n))))
         (seq 0 (size_of sh))).

(** [a + v], elementwise. *)
Definition add_scalar (a : ndarray Z) (v : Z) : ndarray Z :=
  mk_ndarray (shape a) (map (fun x => x + v) (data a)).

End Np.

Import Np.

(* ================================================================== *)
(** * Nucleotide statistics *)

(** [ACGT_count], lines 14-30. *)
Definition ACGT_count (M_E : ndarray Z) : result (ndarray Z) :=
  if negb (Nat.eqb (ndim M_E) 2) then Raise (ValueError "arr should be 2D")
  else
    let n_snvs := dim M_E 1 in
    let out := zeros [n_snvs; 4%nat] in
    Ok (fold_left
          (fun out i => set_col out i (sum_axis0 (eq_scalar M_E (Z.of_nat i + 1))))
          (seq 0 4) out).

(** The number of reads [i] whose entry in column [j] satisfies [p]. *)
Definition count_col (M : ndarray Z) (j : nat) (p : Z -> bool) : Z :=
  Z.of_nat (length (filter (fun i => p (get2 0 M i j)) (seq 0 (dim M 0)))).

(** Every element is one of 0 (gap), 1, 2, 3, 4. *)
Definition snv_entries (M : ndarray Z) : Prop :=
  Forall (fun x => 0 <= x <= 4) (data M).

(* ================================================================== *)
(** * Tensor encoding *)

(** A 2-D integer array held as its list of rows. *)
Definition matrix : Type := list (list Z).

(** A 2-D array of floats held as its list of rows. *)
Definition qmatrix : Type := list (list Q).

(** All rows of [M] have length [ncols]. *)
Definition has_cols {A} (ncols : nat) (M : list (list A)) : Prop :=
  Forall (fun r => length r = ncols) M.

(** Strict order of the floats. *)
Definition Qltb (x y : Q) : bool := negb (Qle_bool y x).

(** [np.double(M == v)] *)
Definition double_eq (M : matrix) (v : Z) : qmatrix :=
  map (map (fun x => if x =? v then 1%Q else 0%Q)) M.

(** [np.concatenate((A, B), axis=1)] *)
Definition hstack {A} (X Y : list (list A)) : list (list A) :=
  map (fun ab => fst ab ++ snd ab) (combine X Y).

(** The read matrix in tensor structure, lines 164-172 (and 266-274,
    383-391): four indicator blocks side by side. *)
Definition tensor (M : matrix) : qmatrix :=
  hstack (double_eq M 1)
    (hstack (double_eq M 2) (hstack (double_eq M 3) (double_eq M 4))).

(** Line 302: [np.argmax(Vt.reshape(R, hap_len, 4, order="F"), axis=2) + 1]. *)
Definition decode (Vt : qmatrix) (R hap_len : nat) : matrix :=
  to_rows 0
    (add_scalar
       (argmax_last Qltb 0%Q
          (reshape_F 0%Q (of_rows (4 * hap_len) Vt) [R; hap_len; 4%nat]))
       1).

(* ================================================================== *)
(** * Python and numpy helpers on lists *)

(** [l[k]] for a non-negative index. *)
Definition list_get {A} (l : list A) (k : nat) : result A :=
  match nth_error l k with
  | Some x => Ok x
  | None => Raise (IndexError "index out of range")
  end.

(** [l[k] = v] on an index in range. *)
Fixpoint list_set {A} (l : list A) (k : nat) (v : A) : list A :=
  match l, k with
  | [], _ => []
  | _ :: t, O => v :: t
  | x :: t, S k' => x :: list_set t k' v
  end.

(** [np.where(mask)[0]] *)
Definition np_where (mask : list bool) : list nat :=
  filter (fun i => nth i mask false) (seq 0 (length mask)).

(** [M[mask, :]] for a boolean mask over the rows. *)
Definition select_rows {A} (mask : list bool) (M : list A) : list A :=
  map snd (filter fst (combine mask M)).

(** [M[index, :]] for a list of row numbers. *)
Definition take_rows (M : matrix) (index : list nat) : matrix :=
  map (fun i => nth i M []) index.

(** [np.delete(M, index, 0)] *)
Definition delete_rows {A} (M : list A) (index : list nat) : list A :=
  map snd
    (filter (fun p => negb (existsb (Nat.eqb (fst p)) index))
            (combine (seq 0 (length M)) M)).

Definition sum_list (l : list Z) : Z := fold_right Z.add 0 l.

Definition sum_listQ (l : list Q) : Q := fold_right Qplus 0%Q l.

(** Python's [max] of a sequence of counts. *)
Definition max_list (l : list Z) : Z :=
  match l with
  | [] => 0
  | x :: t => fold_left Z.max t x
  end.

(** [np.argmin]: index of the first minimum. *)
Definition argmin_listQ (l : list Q) : nat :=
  argmax_by (fun a b => Qltb b a) l.

(** [np.argmax(a, axis=1)] of a 2-D array with [ncols] columns; numpy
    refuses an empty axis. *)
Definition argmax_axis1 (ncols : nat) (a : matrix) : result (list nat) :=
  if Nat.eqb ncols 0
  then Raise (ValueError "attempt to get argmax of an empty sequence")
  else Ok (map argmax_list a).

(** The [float64] that holds an integer; a count is far below 2^53, so
    the float is the count itself. *)
Definition float_of_Z (z : Z) : float :=
  match z with
  | Zneg q => PrimFloat.opp (PrimFloat.of_uint63 (Uint63.of_Z (Zpos q)))
  | _ => PrimFloat.of_uint63 (Uint63.of_Z z)
  end.

(* ================================================================== *)
(** * Norms and the stopping quantities *)

(** The values held by [err], [err_Com] and [err_hap]: infinity, a norm
    (the square root of a sum of squares) or the distance of two norms. *)
Inductive fval : Type :=
| FInf
| FSqrt (q : Q)
| FAbsDiff (a b : Q).

(** [x > t] for a stopping quantity [x] and a threshold [t]. *)
Definition fval_gtb (x : fval) (t : Q) : bool :=
  match x with
  | FInf => true
  | FSqrt q => Qltb t 0 || Qltb (t * t) q
  | FAbsDiff a b =>
      Qltb t 0 ||
      (let s := (a + b - t * t)%Q in Qltb 0 s && Qltb (4 * a * b) (s * s))
  end.

(** [x <= t] *)
Definition fval_leb (x : fval) (t : Q) : bool := negb (fval_gtb x t).

(** Square of the Frobenius norm. *)
Definition fro2 (X : qmatrix) : Q :=
  sum_listQ (map (fun r => sum_listQ (map (fun x => (x * x)%Q) r)) X).

(** Elementwise combination of two float matrices. *)
Definition qmap2 (f : Q -> Q -> Q) (X Y : qmatrix) : qmatrix :=
  map (fun xy => map (fun ab => f (fst ab) (snd ab)) (combine (fst xy) (snd xy)))
      (combine X Y).

(** [np.dot(U, Vt)] for an integer [U]. *)
Definition dot (ncols : nat) (U : matrix) (Vt : qmatrix) : qmatrix :=
  map (fun u =>
         fold_right
           (fun cv acc =>
              map (fun va => (inject_Z (fst cv) * fst va + snd va)%Q)
                  (combine (snd cv) acc))
           (repeat 0%Q ncols) (combine u Vt))
      U.

(** [np.tile(np.double(M != 0), (1, 4))] *)
Definition P_tensor_of (M : matrix) : qmatrix :=
  map (fun r =>
         let p := map (fun x => if x =? 0 then 0%Q else 1%Q) r in
         p ++ p ++ p ++ p)
      M.

(* ================================================================== *)
(** * Exceptions and the random source *)

(** A computation that may raise and may draw random numbers; the state is
    the number of values [random.random()] has returned so far. *)
Definition RS (A : Type) : Type := nat -> result (A * nat).

Definition ret {A} (a : A) : RS A := fun n => Ok (a, n).

Definition bindRS {A B} (c : RS A) (k : A -> RS B) : RS B :=
  fun n => match c n with
           | Ok (a, n') => k a n'
           | Raise e => Raise e
           end.

Definition lift {A} (r : result A) : RS A :=
  fun n => match r with
           | Ok a => Ok (a, n)
           | Raise e => Raise e
           end.

Notation "x <- c ;; k" := (bindRS c (fun x => k))
  (at level 61, c at next level, right associativity).

Fixpoint mapM {A B} (f : A -> RS B) (l : list A) : RS (list B) :=
  match l with
  | [] => ret []
  | a :: t => b <- f a ;; bs <- mapM f t ;; ret (b :: bs)
  end.

Fixpoint foldM {A B} (f : B -> A -> RS B) (l : list A) (b : B) : RS B :=
  match l with
  | [] => ret b
  | a :: t => b' <- f b a ;; foldM f t b'
  end.

(* ================================================================== *)
(** * The solver *)

Section Solver.

(** The value of the [n]-th call of [random.random()]; it is fixed by the
    seed. *)
Variable random_random : nat -> Q.

(** [svds TM_E R] stands for the rows of
    [np.dot(np.diag(np.sqrt(S)), Vt)] where
    [Ut, S, Vt = sp.sparse.linalg.svds(TM_E, R)] (lines 187-190). *)
Variable svds : qmatrix -> nat -> result qmatrix.

(** [binom_pmf k n p] stands for [scipy.stats.binom.pmf(k, n, p)]. *)
Variable binom_pmf : Z -> Z -> float -> float.

(** Parameters of the run; [seq_err = err_rate / 100] is a float. *)
Variable seq_err : float.
Variable MEC_thre : Q.
Variable K_step : Z.

(** The input: [SNVmatrix] and its number of columns. *)
Variable SNVmatrix : matrix.
Variable hap_len : nat.

Definition error_thre : Q := 1 # 100000.
Definition max_ite : nat := 2000.

(** [ACGT_count] applied to a 2-D array held as rows. *)
Definition ACGT_rows (M : matrix) : result matrix :=
  do out <- ACGT_count (of_rows hap_len M);
  Ok (to_rows 0 out).

(** ** Majority vote *)

(** Lines 233-237 (and 418-422, 550-554). *)
Definition single_stats (reads_single : matrix) : result matrix :=
  if Nat.eqb (length reads_single) 0
  then Ok (repeat [0; 0; 0; 0] hap_len)
  else ACGT_rows reads_single.

(** Lines 241-265 (and 426-446): the nucleotide of a position that no
    read of the haplotype covers, from the counts [prior_row] of all
    reads.  The draw is a rational here and its product with [len(tem)]
    is floored exactly; the program floors the binary64 product, which
    can be the next integer when the product is next to it, and is still
    below [len(tem)].  The statements about the votes hold for whichever
    of the tied nucleotides is drawn. *)
Definition fallback (prior_row : list Z) : RS Z :=
  let tem := np_where (map (fun x => x =? max_list prior_row) prior_row) in
  if negb (Nat.eqb (length tem) 1) then
    fun n =>
      let k := Qfloor (random_random n * inject_Z (Z.of_nat (length tem))) in
      match list_get tem (Z.to_nat k) with
      | Ok t => Ok (Z.of_nat t + 1, S n)
      | Raise e => Raise e
      end
  else ret (Z.of_nat (argmax_list prior_row) + 1).

(** [np.where(np.sum(single_sta, axis=1) == 0)[0]] *)
Definition uncov_pos (single_sta : matrix) : list nat :=
  np_where (map (fun r => sum_list r =? 0) single_sta).

(** Lines 230-265 (and 415-446): one row of [V_major] (of [reconV2]). *)
Definition majority_vote (reads_single prior : matrix) : RS (list Z) :=
  single_sta <- lift (single_stats reads_single) ;;
  let row := map (fun r => Z.of_nat (argmax_list r) + 1) single_sta in
  foldM (fun row j => v <- fallback (nth j prior []) ;; ret (list_set row j v))
        (uncov_pos single_sta) row.

(** Lines 549-558: one row of [V_deletion]. *)
Definition deletion_vote (reads_single : matrix) : result (list Z) :=
  do single_sta <- single_stats reads_single;
  let row := map (fun r => Z.of_nat (argmax_list r) + 1) single_sta in
  Ok (fold_left (fun row j => list_set row j 0) (uncov_pos single_sta) row).

(** [index == i] *)
Definition eq_mask (index : list nat) (i : nat) : list bool :=
  map (fun a => Nat.eqb a i) index.

(** Lines 228-265: [V_major], one vote per haplotype. *)
Definition vote_all (M : matrix) (index : list nat) (prior : matrix) (R : nat)
  : RS matrix :=
  mapM (fun i => majority_vote (select_rows (eq_mask index i) M) prior)
       (seq 0 R).

(** ** Alternating minimization *)

Record am_state : Type := mk_am {
  ite : nat;
  err : fval;
  err_Com : fval;
  err_hap : fval;
  err_hist : list Q;     (* squares of the recorded norms *)
  Vt : qmatrix;
  Vt_last : qmatrix;
  U : matrix;
  min_index : list nat
}.

(** Lines 212-217. *)
Definition am_continue (s : am_state) : bool :=
  fval_gtb (err_hap s) error_thre
  && fval_gtb (err s) error_thre
  && fval_gtb (err_Com s) error_thre
  && Nat.ltb (ite s) max_ite.

(** [np.sum(((TM_E - Vt[i, :]) * P_tensor) ** 2, axis=1)] for one read. *)
Definition sq_dist (t v p : list Q) : Q :=
  sum_listQ
    (map (fun tvp =>
            let d := ((fst (fst tvp) - snd (fst tvp)) * snd tvp)%Q in (d * d)%Q)
         (combine (combine t v) p)).

(** Lines 220-226: the new [min_index]. *)
Definition update_U (TM_E P_tensor Vt : qmatrix) (R : nat) : list nat :=
  map (fun tp =>
         argmin_listQ
           (map (fun i => sq_dist (fst tp) (nth i Vt []) (snd tp)) (seq 0 R)))
      (combine TM_E P_tensor).

(** [BV[min_index, :]] with [BV = np.eye(R)]. *)
Definition BV_rows (R : nat) (min_index : list nat) : matrix :=
  map (fun a => map (fun r => if Nat.eqb r a then 1 else 0) (seq 0 R)) min_index.

(** Lines 218-288: one pass of the loop body. *)
Definition am_step (M_E : matrix) (TM_E P_tensor : qmatrix) (ACGTcount : matrix)
    (R : nat) (s : am_state) : RS am_state :=
  let ite' := S (ite s) in
  let min_index' := update_U TM_E P_tensor (Vt s) R in
  let U' := BV_rows R min_index' in
  V_major <- vote_all M_E min_index' ACGTcount R ;;
  let Vt' := tensor V_major in
  let err2 :=
    fro2 (qmap2 Qmult (qmap2 Qminus TM_E (dot (4 * hap_len) U' Vt')) P_tensor) in
  let err_hist' := err_hist s ++ [err2] in
  let err_Com' :=
    if Nat.ltb 1 ite'
    then FAbsDiff (nth (ite' - 1) err_hist' 0%Q) (nth (ite' - 2) err_hist' 0%Q)
    else err_Com s in
  let err_hap' :=
    FSqrt (fro2 (qmap2 Qminus Vt' (Vt_last s))
           / (inject_Z (4 * Z.of_nat hap_len) / inject_Z (Z.of_nat R)))%Q in
  ret (mk_am ite' (FSqrt err2) err_Com' err_hap' err_hist' Vt' Vt' U' min_index').

(** Lines 212-300: the loop; it makes at most [max_ite] passes, so
    [max_ite] units of fuel are enough. *)
Fixpoint am_loop (fuel : nat) (M_E : matrix) (TM_E P_tensor : qmatrix)
    (ACGTcount : matrix) (R : nat) (s : am_state) : RS am_state :=
  match fuel with
  | O => ret s
  | S fuel' =>
      if am_continue s then
        s' <- am_step M_E TM_E P_tensor ACGTcount R s ;;
        am_loop fuel' M_E TM_E P_tensor ACGTcount R s'
      else ret s
  end.

(** Lines 187-209: the state before the first pass. *)
Definition am_init (TM_E : qmatrix) (R : nat) (svd_flag : nat) : result am_state :=
  do Vt0 <- svds TM_E R;
  let Vt1 := rev Vt0 in
  let Vt2 := if Nat.eqb svd_flag 2 then map (map Qopp) Vt1 else Vt1 in
  Ok (mk_am 0 FInf FInf FInf [] Vt2
            (repeat (repeat (100 # 1) (4 * hap_len)) R) [] []).

(** Lines 182-300: the final state of the loop and [ACGTcount]. *)
Definition alternating_minimization (M_E : matrix) (R svd_flag : nat)
  : RS (am_state * matrix) :=
  let TM_E := tensor M_E in
  let P_tensor := P_tensor_of M_E in
  s0 <- lift (am_init TM_E R svd_flag) ;;
  ACGTcount <- lift (ACGT_rows M_E) ;;
  s <- am_loop max_ite M_E TM_E P_tensor ACGTcount R s0 ;;
  ret (s, ACGTcount).

(** ** Successive clustering *)

(** The mismatch criteria of the reads, lines 122-130, and the statistics
    of all reads, line 90. *)
Variable ori_mis_cri : list Z.
Variable ori_ACGTcount : matrix.

(** Number of positions where a read and a haplotype agree:
    [((read - hap) == 0).sum()]. *)
Definition ident_count (read hap : list Z) : Z :=
  sum_list (map (fun rh => if fst rh - snd rh =? 0 then 1 else 0) (combine read hap)).

(** [(read != 0).sum()] *)
Definition nongap_count (read : list Z) : Z :=
  sum_list (map (fun x => if x =? 0 then 0 else 1) read).

(** Lines 335-344: the product is accumulated in binary64, one division
    and one multiplication per non-gap position, in the order of the
    positions. *)
Definition pr_variant (ACGTcount : matrix) (read : list Z) : float :=
  let pos := np_where (map (fun x => negb (x =? 0)) read) in
  fold_left
    (fun pr p =>
       let row := nth p ACGTcount [] in
       let count := nth (Z.to_nat (nth p read 0 - 1)) row 0 in
       let total := sum_list row in
       (pr * (float_of_Z count / float_of_Z total))%float)
    pos 1%float.

(** Lines 327-350: is read [i] assigned to the dominant haplotype? *)
Definition selects (ACGTcount : matrix) (V_flag read : list Z) (mis : Z) : bool :=
  let HD0 := ident_count read V_flag in
  let HD1 := nongap_count read in
  let HD2 := HD1 - HD0 in
  if HD2 =? 0 then true
  else if HD2 <=? mis then
    let pr_seq := binom_pmf HD2 HD1 seq_err in
    PrimFloat.ltb (pr_variant ACGTcount read) pr_seq
  else false.

(** Lines 326-350: the list [index]. *)
Definition select_reads (ACGTcount M_E : matrix) (V_flag : list Z)
    (mis_cri : list Z) : list nat :=
  filter (fun i => selects ACGTcount V_flag (nth i M_E []) (nth i mis_cri 0))
         (seq 0 (length M_E)).

(** Lines 363-372: the additional majority vote. *)
Definition additional_vote (addi_count : matrix) (V_flag : list Z) : list Z :=
  map (fun cv =>
         (Z.of_nat (argmax_list (fst cv)) + 1)
           * (if sum_list (fst cv) =? 0 then 0 else 1)
         + snd cv * (if sum_list (fst cv) =? 0 then 1 else 0))
      (combine addi_count V_flag).

Record sc_state : Type := mk_sc {
  M_E : matrix;
  mis_cri : list Z;
  num_V : nat;
  reconV : matrix
}.

(** [len(M_E[:, 0])] *)
Definition len_col0 (M : matrix) : result nat :=
  if Nat.eqb hap_len 0 then Raise (IndexError "index 0 is out of bounds for axis 1")
  else Ok (length M).

(** [U.sum(axis=0)] *)
Definition col_sums (R : nat) (U : matrix) : list Z :=
  map (fun r => sum_list (map (fun u => nth r u 0) U)) (seq 0 R).

(** Lines 180-397.  The loop counts [R] down to 0, so it recurses on [R].
    The flag returned is [false] when the loop was left by [break] (no read
    selected). *)
Fixpoint successive_clustering (R : nat) (svd_flag : nat) (st : sc_state)
  : RS (sc_state * bool) :=
  match R with
  | O => ret (st, true)
  | S R' =>
      n <- lift (len_col0 (M_E st)) ;;
      if negb (Nat.ltb R n) then ret (st, true)
      else
        r <- alternating_minimization (M_E st) R svd_flag ;;
        let am := fst r in
        let ACGTcount := snd r in
        let V := decode (Vt am) R hap_len in
        let domi_flag := argmax_list (col_sums R (U am)) in
        let V_flag := nth domi_flag V [] in
        let index := select_reads ACGTcount (M_E st) V_flag (mis_cri st) in
        if Nat.eqb (length index) 0 then ret (st, false)
        else
          addi_count <- lift (ACGT_rows (take_rows (M_E st) index)) ;;
          let V_domi := additional_vote addi_count V_flag in
          let st' :=
            mk_sc (delete_rows (M_E st) index)
                  (delete_rows (mis_cri st) index)
                  (S (num_V st))
                  (list_set (reconV st) (num_V st - 1) V_domi) in
          successive_clustering R' svd_flag st'
  end.

(** ** MEC evaluation *)

(** [iden_table]: one row per read, one column per haplotype. *)
Definition iden_table (S : matrix) (haps : matrix) : matrix :=
  map (fun read => map (fun hap => ident_count read hap) haps) S.

(** Lines 405-410 (and 451-458, 540-545): the haplotype closest to each
    read. *)
Definition reassign (S : matrix) (haps : matrix) : result (list nat) :=
  argmax_axis1 (length haps) (iden_table S haps).

(** Lines 459-464: [len(np.where((SNVmatrix - M) * P_matrix != 0)[0])]. *)
Definition MEC_count (S M : matrix) : Z :=
  sum_list
    (map (fun sm =>
            sum_list
              (map (fun xy =>
                      let p := if fst xy =? 0 then 0 else 1 in
                      if (fst xy - snd xy) * p =? 0 then 0 else 1)
                   (combine (fst sm) (snd sm))))
         (combine S M)).

(** Lines 449-464: the MEC of [reconV2]. *)
Definition MEC_of (reconV2 : matrix) : result Z :=
  do true_ind <- reassign SNVmatrix reconV2;
  let M := take_rows reconV2 true_ind in
  Ok (MEC_count SNVmatrix M).

(** Lines 403-446: the second majority vote. *)
Definition second_vote (reconV : matrix) (num_V : nat) : RS matrix :=
  let haps := firstn (num_V - 1) reconV in
  index <- lift (reassign SNVmatrix haps) ;;
  vote_all SNVmatrix index ori_ACGTcount (num_V - 1).

(** What one sign branch leaves behind: [None] when the branch failed,
    otherwise its MEC, the number of haplotypes and [reconV2]. *)
Definition branch : Type := option (Z * Z * matrix).

(** Lines 160-473 for one [svd_flag]. *)
Definition run_sign (K_ite : Z) (svd_flag : nat) : RS branch :=
  if K_ite <? 0 then lift (Raise (ValueError "negative dimensions are not allowed"))
  else
    let R := Z.to_nat K_ite in
    let st0 := mk_sc SNVmatrix ori_mis_cri 1 (repeat (repeat 0 hap_len) R) in
    r <- successive_clustering R svd_flag st0 ;;
    if snd r then
      reconV2 <- second_vote (reconV (fst r)) (num_V (fst r)) ;;
      mec <- lift (MEC_of reconV2) ;;
      ret (Some (mec, Z.of_nat (length reconV2), reconV2))
    else ret None.

(** ** Rank estimation *)

(** A value of row 4 of [MEC_table], the MEC change rate.  A division by
    zero gives [nan] or [-inf]; neither is greater than a threshold. *)
Inductive rate : Type :=
| Rate (q : Q)
| RateUndefined.

Definition rate_gtb (r : rate) (t : Q) : bool :=
  match r with
  | Rate q => Qltb t q
  | RateUndefined => false
  end.

(** An MEC value: [np.inf] or a count. *)
Inductive mecv : Type :=
| MInf
| MFin (z : Z).

(** [a <= b] *)
Definition mecv_leb (a b : mecv) : bool :=
  match a, b with
  | _, MInf => true
  | MInf, MFin _ => false
  | MFin x, MFin y => x <=? y
  end.

(** [(a - b) / a]; [nan] and [-inf] are [RateUndefined]. *)
Definition mec_rate (a b : mecv) : rate :=
  match a, b with
  | MFin x, MFin y =>
      if x =? 0 then RateUndefined else Rate (inject_Z (x - y) / inject_Z x)
  | _, _ => RateUndefined
  end.

(** One column of [MEC_table]: K, number of haplotypes returned, MEC,
    recall and MEC rate. *)
Record column : Type := mk_col {
  cK : Z;
  cHap : Z;
  cMEC : mecv;
  cRecall : Z;
  cRate : rate
}.

Definition zero_col : column := mk_col 0 0 (MFin 0) 0 (Rate 0).

Definition set_cK (c : column) (k : Z) : column :=
  mk_col k (cHap c) (cMEC c) (cRecall c) (cRate c).

Definition set_cRate (c : column) (r : rate) : column :=
  mk_col (cK c) (cHap c) (cMEC c) (cRecall c) r.

(** A Python index into an axis of length [len]: negative indices count
    from the end. *)
Definition py_index (len i : Z) : result nat :=
  if (0 <=? i) && (i <? len) then Ok (Z.to_nat i)
  else if (- len <=? i) && (i <? 0) then Ok (Z.to_nat (i + len))
  else Raise (IndexError "index is out of bounds for axis 1").

Definition table_get (t : list column) (i : Z) : result column :=
  do k <- py_index (Z.of_nat (length t)) i;
  Ok (nth k t zero_col).

Definition table_update (t : list column) (i : Z) (f : column -> column)
  : result (list column) :=
  do k <- py_index (Z.of_nat (length t)) i;
  Ok (list_set t k (f (nth k t zero_col))).

(** [np.where(MEC_table[0, :] == k)[0]] *)
Definition find_K (t : list column) (k : Z) : list nat :=
  np_where (map (fun c => cK c =? k) t).

Record rank_state : Type := mk_rank {
  K_low : Z;                       (* K_table[0] *)
  K_high : Z;                      (* K_table[1] *)
  K : Z;
  K_count : Z;
  MEC_table : list column;
  alt_tag1 : option bool;          (* None: not bound yet; Some true: 1 *)
  alt_tag2 : option bool;
  ori_K : option Z;
  MEC : mecv * mecv;               (* MEC[0], MEC[1] *)
  hap_num : Z * Z;
  reconV3 : option matrix;
  reconV4 : option matrix;
  reconVK : list (Z * matrix)      (* the variables reconVK<k> *)
}.

(** The largest odd divisor. *)
Fixpoint odd_part (p : positive) : positive :=
  match p with
  | xO p' => odd_part p'
  | _ => p
  end.

(** [math.log2(K_table[0] / K_step) % 1 == 0] *)
Definition log2_is_integer (low step : Z) : result bool :=
  match step, low with
  | Z0, Zneg _ => Raise (ValueError "math domain error")
  | Z0, _ => Ok false
  | _, Z0 => Raise (ValueError "math domain error")
  | Zpos s, Zpos l | Zneg s, Zneg l => Ok (Pos.eqb (odd_part l) (odd_part s))
  | _, _ => Raise (ValueError "math domain error")
  end.

(** Reading a variable that may not be bound yet. *)
Definition bound {A} (name : string) (v : option A) : result A :=
  match v with
  | Some a => Ok a
  | None => Raise (NameError name)
  end.

(** Lines 150-158: the variables set before the two sign branches. *)
Definition begin_K (st : rank_state) : rank_state :=
  mk_rank (K_low st) (K_high st) (K st) (K_count st) (MEC_table st)
          (Some true) (Some true) (ori_K st) (MInf, MInf) (0, 0)
          (reconV3 st) (reconV4 st) (reconVK st).

(** Lines 159-473: what the branch of [svd_flag] leaves in the variables.
    A failed branch only clears its flag; its MEC is not assigned. *)
Definition after_sign (K_ite : Z) (svd_flag : nat) (b : branch) (st : rank_state)
  : rank_state :=
  match b with
  | None =>
      if Nat.eqb svd_flag 1 then
        mk_rank (K_low st) (K_high st) (K st) (K_count st) (MEC_table st)
                (Some false) (alt_tag2 st) (Some K_ite) (MEC st) (hap_num st)
                (reconV3 st) (reconV4 st) (reconVK st)
      else
        mk_rank (K_low st) (K_high st) (K st) (K_count st) (MEC_table st)
                (alt_tag1 st) (Some false) (Some K_ite) (MEC st) (hap_num st)
                (reconV3 st) (reconV4 st) (reconVK st)
  | Some (mec, hap, reconV2) =>
      if Nat.eqb svd_flag 1 then
        mk_rank (K_low st) (K_high st) (K st) (K_count st) (MEC_table st)
                (alt_tag1 st) (alt_tag2 st) (Some K_ite)
                (MFin mec, snd (MEC st)) (hap, snd (hap_num st))
                (Some reconV2) (reconV4 st) (reconVK st)
      else
        mk_rank (K_low st) (K_high st) (K st) (K_count st) (MEC_table st)
                (alt_tag1 st) (alt_tag2 st) (Some K_ite)
                (fst (MEC st), MFin mec) (fst (hap_num st), hap)
                (reconV3 st) (Some reconV2) (reconVK st)
  end.

Definition with_count_table (st : rank_state) (count : Z) (t : list column)
  : rank_state :=
  mk_rank (K_low st) (K_high st) (K st) count t
          (alt_tag1 st) (alt_tag2 st) (ori_K st) (MEC st) (hap_num st)
          (reconV3 st) (reconV4 st) (reconVK st).

(** Lines 149-502: one value [K_ite] of the [for] loop.  The flag is
    [true] when the loop is left by [break]. *)
Definition eval_K (K_ite : Z) (st : rank_state) : RS (rank_state * bool) :=
  match find_K (MEC_table st) K_ite with
  | [] =>
      let st0 := begin_K st in
      b1 <- run_sign K_ite 1 ;;
      let st1 := after_sign K_ite 1 b1 st0 in
      b2 <- run_sign K_ite 2 ;;
      let st2 := after_sign K_ite 2 b2 st1 in
      t1 <- lift (bound "alt_tag1" (alt_tag1 st2)) ;;
      t2 <- lift (if t1 then Ok true else bound "alt_tag2" (alt_tag2 st2)) ;;
      if negb t1 && negb t2 then
        ret (with_count_table st2 (K_count st2 + 1) (MEC_table st2), true)
      else
        oK <- lift (bound "ori_K" (ori_K st2)) ;;
        let MEC_index := if mecv_leb (fst (MEC st2)) (snd (MEC st2)) then 0%nat else 1%nat in
        let hap := if Nat.eqb MEC_index 0 then fst (hap_num st2) else snd (hap_num st2) in
        let mec := if Nat.eqb MEC_index 0 then fst (MEC st2) else snd (MEC st2) in
        t <- lift (table_update (MEC_table st2) (K_count st2 - 1)
                     (fun c => mk_col oK hap mec 0 (cRate c))) ;;
        reconV5 <- lift (if Nat.eqb MEC_index 0 then bound "reconV3" (reconV3 st2)
                         else bound "reconV4" (reconV4 st2)) ;;
        let st3 := with_count_table st2 (K_count st2 + 1) t in
        ret (mk_rank (K_low st3) (K_high st3) (K st3) (K_count st3) (MEC_table st3)
                     (alt_tag1 st3) (alt_tag2 st3) (ori_K st3) (MEC st3) (hap_num st3)
                     (reconV3 st3) (reconV4 st3) ((K_ite, reconV5) :: reconVK st3),
             false)
  | first :: _ =>
      t <- lift (table_update (MEC_table st) (K_count st - 1)
                   (fun _ => nth first (MEC_table st) zero_col)) ;;
      ret (with_count_table st (K_count st + 1) t, false)
  end.

Definition with_bounds (st : rank_state) (low high k : Z) (t : list column)
  : rank_state :=
  mk_rank low high k (K_count st) t
          (alt_tag1 st) (alt_tag2 st) (ori_K st) (MEC st) (hap_num st)
          (reconV3 st) (reconV4 st) (reconVK st).

(** Lines 504-526: the update of [K_table] and [K]. *)
Definition rank_update (st : rank_state) : result rank_state :=
  do t1 <- bound "alt_tag1" (alt_tag1 st);
  do t2 <- (if t1 then Ok true else bound "alt_tag2" (alt_tag2 st));
  if negb t1 && negb t2 then
    do oK <- bound "ori_K" (ori_K st);
    do t <- table_update (MEC_table st) (K_count st - 2) (fun c => set_cK c oK);
    let K' := if K_high st =? 0 then K st * 2 else (oK + K_high st) / 2 in
    Ok (with_bounds st oK (K_high st) K' t)
  else
    do cA <- table_get (MEC_table st) (K_count st - 3);
    do cB <- table_get (MEC_table st) (K_count st - 2);
    let r := mec_rate (cMEC cA) (cMEC cB) in
    do t <- table_update (MEC_table st) (K_count st - 3) (fun c => set_cRate c r);
    if rate_gtb r MEC_thre then
      let low := cK cA in
      do p <- log2_is_integer low K_step;
      let K' := if p then K st * 2 else (low + K_high st) / 2 in
      Ok (with_bounds st low (K_high st) K' t)
    else
      let high := cK cA in
      Ok (with_bounds st (K_low st) high ((K_low st + high) / 2) t).

(** Lines 145-526: one pass of the rank-estimation loop. *)
Definition rank_iter (st : rank_state) : RS rank_state :=
  r1 <- eval_K (K st) st ;;
  r2 <- (if snd r1 then ret r1 else eval_K (K st + 1) (fst r1)) ;;
  lift (rank_update (fst r2)).

(** Line 144. *)
Definition rank_continue (st : rank_state) : bool :=
  negb (K_high st - K_low st =? 1).

(** Lines 144-526.  [None] stands for a loop that is still running when
    the fuel is used up. *)
Fixpoint rank_loop (fuel : nat) (st : rank_state) : RS (option rank_state) :=
  if rank_continue st then
    match fuel with
    | O => ret None
    | S fuel' => st' <- rank_iter st ;; rank_loop fuel' st'
    end
  else ret (Some st).

(** Lines 136-141: the state before the first pass. *)
Definition rank_init (K0 : Z) : rank_state :=
  mk_rank 1 0 K0 1 (repeat zero_col 50) None None None (MInf, MInf) (0, 0)
          None None [].

(** Line 529 and lines 537-538: the entry of the chosen K and its
    haplotypes. *)
Definition chosen (st : rank_state) : result (column * matrix) :=
  do i <- list_get (find_K (MEC_table st) (K_high st)) 0;
  let c := nth i (MEC_table st) zero_col in
  match find (fun kv => fst kv =? cK c) (reconVK st) with
  | Some kv => Ok (c, snd kv)
  | None => Raise (NameError "reconVK")
  end.

End Solver.

(* ================================================================== *)
(** * Post-processing and output *)

Section PostProcessing.

Variable SNVmatrix : matrix.
Variable hap_len : nat.

(** [np.argsort] of the frequencies: positions in ascending order of value,
    equal values in their original order.  numpy promises no order among
    equal values; the statements about the haplotypes kept and the records
    written are stated so that they hold for any order of equal values. *)
Fixpoint insert_by (v : nat -> Q) (i : nat) (l : list nat) : list nat :=
  match l with
  | [] => [i]
  | j :: t => if Qltb (v i) (v j) then i :: l else j :: insert_by v i t
  end.

Definition argsort (vals : list Q) : list nat :=
  fold_left (fun acc i => insert_by (fun k => nth k vals 0%Q) i acc)
            (seq 0 (length vals)) [].

(** [np.linalg.matrix_rank], by elimination on the columns from the left. *)
Definition is_zeroQ (x : Q) : bool := Qeq_bool x 0.

Fixpoint split_pivot (rows : qmatrix) : option (list Q * qmatrix) :=
  match rows with
  | [] => None
  | r :: t =>
      if is_zeroQ (hd 0%Q r) then
        match split_pivot t with
        | Some (p, rest) => Some (p, r :: rest)
        | None => None
        end
      else Some (r, t)
  end.

Definition eliminate (p r : list Q) : list Q :=
  let f := (hd 0%Q r / hd 0%Q p)%Q in
  map (fun ab => (fst ab - f * snd ab)%Q) (combine (tl r) (tl p)).

Fixpoint rank_cols (ncols : nat) (rows : qmatrix) : nat :=
  match ncols with
  | O => 0%nat
  | S n =>
      match split_pivot rows with
      | Some (p, rest) => S (rank_cols n (map (eliminate p) rest))
      | None => rank_cols n (map (@tl Q) rows)
      end
  end.

Definition matrix_rank (ncols : nat) (M : matrix) : nat :=
  rank_cols ncols (map (map inject_Z) M).

(** [(a - b != 0).sum() == 0] *)
Definition same_row (a b : list Z) : bool :=
  sum_list (map (fun xy => if fst xy - snd xy =? 0 then 0 else 1) (combine a b)) =? 0.

(** Lines 536-579: the haplotypes kept and their frequencies. *)
Record strains : Type := mk_strains {
  V_deletion : matrix;
  viralseq_fre : list Q;
  V_deletion_new : matrix;
  viralseq_fre_new : list Q
}.

Definition collapse (reconV2 : matrix) : result strains :=
  do index <- reassign SNVmatrix reconV2;
  let m := length reconV2 in
  do V_del <-
     fold_right
       (fun i acc =>
          do rest <- acc;
          do row <- deletion_vote hap_len (select_rows (eq_mask index i) SNVmatrix);
          Ok (row :: rest))
       (Ok []) (seq 0 m);
  let fre_count :=
    map (fun i => Z.of_nat (length (filter (fun a => Nat.eqb a i) index))) (seq 0 m) in
  let total := sum_list fre_count in
  let fre := map (fun c => (inject_Z c / inject_Z total)%Q) fre_count in
  let viralfre_index := rev (argsort fre) in
  let m' := matrix_rank hap_len V_del in
  let V_new := take_rows V_del (firstn m' viralfre_index) in
  let fre_new :=
    map (fun i =>
           fold_left
             (fun tem j =>
                if same_row (nth i V_new []) (nth j V_del [])
                then (tem + nth j fre 0)%Q else tem)
             (seq 0 (length V_del)) 0%Q)
        (seq 0 m') in
  Ok (mk_strains V_del fre V_new fre_new).

(** Lines 588-593: the full sequences.  [SNVpos] and the row have the same
    length, [hap_len] (line 95). *)
Definition put_snvs (Homoseq : list Z) (SNVpos : list nat) (row : list Z)
  : result (list Z) :=
  fold_left
    (fun acc pv =>
       do full <- acc;
       if Nat.ltb (fst pv) (length full) then Ok (list_set full (fst pv) (snd pv))
       else Raise (IndexError "index is out of bounds for axis 1"))
    (combine SNVpos row) (Ok Homoseq).

(** Lines 597-612: one sequence as text. *)
Fixpoint render (Glen : nat) (j : nat) (row : list Z) : string :=
  match row with
  | [] => EmptyString
  | x :: t =>
      if Nat.ltb Glen (j + 1) && (x =? 0) then EmptyString
      else
        let rest := render Glen (S j) t in
        if x =? 1 then String "A" rest
        else if x =? 2 then String "C" rest
        else if x =? 3 then String "G" rest
        else if x =? 4 then String "T" rest
        else if x =? 0 then String "*" rest
        else rest
  end.

(** Lines 615-620: [Hashtable], in insertion order. *)
Fixpoint ht_add (h : list (string * Q)) (k : string) (v : Q) : list (string * Q) :=
  match h with
  | [] => [(k, v)]
  | (k', v') :: t =>
      if String.eqb k k' then (k', (v' + v)%Q) :: t else (k', v') :: ht_add t k v
  end.

Definition Hashtable (Quasi : list string) (fre : list Q) : list (string * Q) :=
  fold_left (fun h i => ht_add h (nth i Quasi EmptyString) (nth i fre 0%Q))
            (seq 0 (length Quasi)) [].

(** Lines 581-632: the records of the FASTA file, (sequence, frequency). *)
Definition fasta (Homoseq : list Z) (SNVpos : list nat) (s : strains)
  : result (list (string * Q)) :=
  do Recon_Quasi <-
     fold_right
       (fun row acc =>
          do rest <- acc;
          do full <- put_snvs Homoseq SNVpos row;
          Ok (full :: rest))
       (Ok []) (V_deletion_new s);
  let Quasi := map (render (length Homoseq) 0) Recon_Quasi in
  let h := Hashtable Quasi (viralseq_fre_new s) in
  let index := rev (argsort (map snd h)) in
  Ok (map (fun i => nth i h (EmptyString, 0%Q)) index).

End PostProcessing.

(* ================================================================== *)
(** * Mismatch criteria and the whole run *)

Section Run.

Variable random_random : nat -> Q.
Variable svds : qmatrix -> nat -> result qmatrix.
Variable binom_pmf : Z -> Z -> float -> float.
Variable seq_err : float.
Variable MEC_thre : Q.

(** Line 73: [10**-5], the float [1e-05]. *)
Definition p_value : float := 0x1.4f8b588e368f1p-17%float.
Definition max_thre : nat := 20.
Definition max_len : nat := 300.

(** Lines 114-116: [pr = 1], then [pr -= binom.pmf(k, l, seq_err)] for
    [k] in [range(thre)], every subtraction in binary64. *)
Definition tail_prob (thre l : nat) : float :=
  fold_left (fun pr k => (pr - binom_pmf (Z.of_nat k) (Z.of_nat l) seq_err)%float)
            (seq 0 thre) 1%float.

(** Line 117: [pr >= p_value]. *)
Definition reached (thre l : nat) : bool :=
  PrimFloat.leb p_value (tail_prob thre l).

(** Lines 112-120: the lists [L] and [Th]. *)
Definition threshold_table : list (nat * nat) :=
  flat_map
    (fun thre =>
       match find (reached thre) (seq 1 max_len) with
       | Some l => [(l, thre)]
       | None => []
       end)
    (seq 1 max_thre).

(** Lines 121-129. *)
Definition make_mis_cri (SNVmatrix : matrix) : result (list Z) :=
  match map fst threshold_table with
  | [] => Raise (IndexError "list index out of range")
  | l0 :: rest =>
      let L := S l0 :: rest in
      Ok (map (fun read =>
                 let nongap := nongap_count read in
                 match find (fun l => nongap <? Z.of_nat (nth l L 0%nat))
                            (seq 0 (length L)) with
                 | Some l => Z.of_nat l + 1
                 | None => Z.of_nat (length L) + 1
                 end)
              SNVmatrix)
  end.

(** Lines 90-632 with [fuel] passes of the rank-estimation loop at most:
    the estimated population size and the records written. *)
Definition run (fuel : nat) (K0 : Z) (SNVmatrix : matrix) (hap_len : nat)
    (Homoseq : list Z) (SNVpos : list nat)
  : RS (option (nat * list (string * Q))) :=
  ori_ACGTcount <- lift (ACGT_rows hap_len SNVmatrix) ;;
  ori_mis_cri <- lift (make_mis_cri SNVmatrix) ;;
  final <- rank_loop random_random svds binom_pmf seq_err MEC_thre K0 SNVmatrix hap_len
             ori_mis_cri ori_ACGTcount fuel (rank_init K0) ;;
  match final with
  | None => ret None
  | Some st =>
      c <- lift (chosen st) ;;
      s <- lift (collapse SNVmatrix hap_len (snd c)) ;;
      out <- lift (fasta Homoseq SNVpos s) ;;
      ret (Some (length (V_deletion_new s), out))
  end.

End Run.

(* ================================================================== *)
(** * Notions used in the statements *)

(** A read matrix with [L] columns and entries 0 (gap), 1, 2, 3, 4. *)
Definition snv_matrix (L : nat) (M : matrix) : Prop :=
  has_cols L M /\ Forall (Forall (fun x => 0 <= x <= 4)) M.

(** The number of reads that carry nucleotide [c+1] at position [j]. *)
Definition nuc_count (reads : matrix) (j c : nat) : Z :=
  Z.of_nat (length (filter (fun r => nth j r 0 =? Z.of_nat c + 1) reads)).

(** The table of the counts of all positions, one row per position. *)
Definition count_table (L : nat) (reads : matrix) : matrix :=
  map (fun j => map (fun c => nuc_count reads j c) (seq 0 4)) (seq 0 L).

(** Position [j] is covered: some read has a nucleotide there. *)
Definition covered (reads : matrix) (j : nat) : bool :=
  existsb (fun r => negb (nth j r 0 =? 0)) reads.

(** [c] is the smallest of the four nucleotide indices that maximize [f]. *)
Definition first_max (f : nat -> Z) (c : nat) : Prop :=
  (c < 4)%nat /\
  (forall c', (c' < 4)%nat -> f c' <= f c) /\
  (forall c', (c' < c)%nat -> f c' < f c).

(** [random.random()] returns values in the interval [0, 1). *)
Definition unit_interval (rr : nat -> Q) : Prop :=
  forall n, (0 <= rr n)%Q /\ (rr n < 1)%Q.

(** Hamming distance of a read to a haplotype: the number of non-gap
    positions of the read where the two differ. *)
Definition hamming (read hap : list Z) : Z :=
  Z.of_nat (length (filter (fun xy => negb (fst xy =? 0) && negb (fst xy =? snd xy))
                           (combine read hap))).

(** The non-gap positions of a read. *)
Definition nongap_positions (read : list Z) : list nat :=
  filter (fun j => negb (nth j read 0 =? 0)) (seq 0 (length read)).

(** The share of the nucleotide of the read at position [j] among the
    reads that cover [j], as a binary64 quotient. *)
Definition nucleotide_share (ACGTcount : matrix) (read : list Z) (j : nat) : float :=
  let count := nth (Z.to_nat (nth j read 0 - 1)) (nth j ACGTcount []) 0 in
  let total := sum_list (nth j ACGTcount []) in
  (float_of_Z count / float_of_Z total)%float.

(** The probability that the read is a variant: the product, over its
    non-gap positions from left to right, of the shares of its
    nucleotides, every product rounded to binary64. *)
Definition variant_likelihood (ACGTcount : matrix) (read : list Z) : float :=
  fold_left PrimFloat.mul
            (map (nucleotide_share ACGTcount read) (nongap_positions read)) 1%float.

(** The number of positions where a read and a haplotype carry the same
    value. *)
Definition agree (L : nat) (read hap : list Z) : Z :=
  Z.of_nat (length (filter (fun j => nth j read 0 =? nth j hap 0) (seq 0 L))).

(** Haplotype [a] is the first of [haps] that agrees with the read at the
    largest number of positions. *)
Definition closest (L : nat) (haps : matrix) (read : list Z) (a : nat) : Prop :=
  (a < length haps)%nat /\
  (forall h, (h < length haps)%nat ->
     agree L read (nth h haps []) <= agree L read (nth a haps [])) /\
  (forall h, (h < a)%nat ->
     agree L read (nth h haps []) < agree L read (nth a haps [])).

(** The number of cells (i, j) where read [i] has a nucleotide that differs
    from the haplotype [a_i] it is assigned to. *)
Definition mismatches (L : nat) (S haps : matrix) (a : list nat) : Z :=
  Z.of_nat
    (length
       (filter (fun ij =>
                  let s := nth (snd ij) (nth (fst ij) S []) 0 in
                  let m := nth (snd ij) (nth (nth (fst ij) a 0%nat) haps []) 0 in
                  negb (s =? 0) && negb (s =? m))
               (list_prod (seq 0 (length S)) (seq 0 L)))).

(** The state after [k] passes of the body of the alternating
    minimization, whatever the loop condition says. *)
Fixpoint am_passes (rr : nat -> Q) (hap_len : nat) (k : nat) (M_E : matrix)
    (TM_E P_tensor : qmatrix) (ACGTcount : matrix) (R : nat) (s : am_state)
  : RS am_state :=
  match k with
  | O => ret s
  | S k' =>
      s' <- am_step rr hap_len M_E TM_E P_tensor ACGTcount R s ;;
      am_passes rr hap_len k' M_E TM_E P_tensor ACGTcount R s'
  end.

(** The stopping rule as the specification words it: all three quantities
    are at most the threshold, or the iteration count is [max_ite]. *)
Definition all_three_converged (s : am_state) : bool :=
  fval_leb (err s) error_thre
  && fval_leb (err_Com s) error_thre
  && fval_leb (err_hap s) error_thre.

(** What holds of the state of the rank estimator before every pass. *)
Definition rank_inv (st : rank_state) : Prop :=
  1 <= K_count st <= 51 /\
  length (MEC_table st) = 50%nat /\
  0 <= K st /\ 0 <= K_low st /\ 0 <= K_high st /\
  (forall k, ori_K st = Some k -> 0 <= k) /\
  Forall (fun c => 0 <= cK c) (MEC_table st) /\
  (K_high st = 0 \/
   exists i, 0 <= Z.of_nat i < K_count st - 1 /\
             cK (nth i (MEC_table st) zero_col) = K_high st).

(** The state after the [for] loop of a pass, compared with the state [st]
    before it. *)
Definition after_evals (st st2 : rank_state) : Prop :=
  K_low st2 = K_low st /\ K_high st2 = K_high st /\ K st2 = K st /\
  length (MEC_table st2) = 50%nat /\
  (forall k, ori_K st2 = Some k -> 0 <= k) /\
  Forall (fun c => 0 <= cK c) (MEC_table st2) /\
  (forall i, Z.of_nat i < K_count st - 1 ->
     nth i (MEC_table st2) zero_col = nth i (MEC_table st) zero_col) /\
  ((alt_tag1 st2 = Some false /\ alt_tag2 st2 = Some false /\
    K_count st < K_count st2 <= K_count st + 2) \/
   (K_count st2 = K_count st + 2 /\ K_count st + 1 <= 50)).

(** The number of retained haplotypes that are identical to haplotype [j]
    of the original list. *)
Definition retained_copies (s : strains) (j : nat) : nat :=
  length (filter (fun i => same_row (nth i (V_deletion_new s) [])
                                    (nth j (V_deletion s) []))
                 (seq 0 (length (V_deletion_new s)))).

(* ================================================================== *)
(** * The previous implementation of the statistics *)

(** [preexisting_ACGT_count] of [test.py], lines 9-17, on a 2-D array held
    as its rows.  [M_E[0, :]] needs a first row. *)
Definition preexisting_ACGT_count (ncols : nat) (M : matrix) : result matrix :=
  let M_E := of_rows ncols M in
  if Nat.eqb (dim M_E 0) 0
  then Raise (IndexError "index 0 is out of bounds for axis 0 with size 0")
  else
    let out := zeros [dim M_E 1; 4%nat] in
    Ok (to_rows 0
          (fold_left
             (fun out i => set_col out i (sum_axis0 (eq_scalar M_E (Z.of_nat i + 1))))
             (seq 0 4) out)).

(* ================================================================== *)
(** * Notions used in the further statements *)

(** The state of the alternating minimization after at least one pass: the
    reads are assigned, [U] holds the assignment and [Vt] is the tensor of
    a matrix of [R] haplotypes over the nucleotides 1..4. *)
Definition voted (L R : nat) (reads : matrix) (s : am_state) : Prop :=
  (1 <= ite s)%nat /\
  length (min_index s) = length reads /\
  U s = BV_rows R (min_index s) /\
  exists V, length V = R /\ has_cols L V /\
            Forall (Forall (fun x => 1 <= x <= 4)) V /\
            Vt s = tensor V.

(** The letter written for an entry of a full sequence: A, C, G, T for the
    nucleotides 1..4 and a star for a gap. *)
Definition nucleotide_letter (x : Z) : ascii :=
  if x =? 1 then "A"%char
  else if x =? 2 then "C"%char
  else if x =? 3 then "G"%char
  else if x =? 4 then "T"%char
  else "*"%char.

(* ================================================================== *)
(** * The binomial probabilities of the examples *)

(** The statements hold for any function in the place of [binom.pmf].
    The examples take [C(n, k) p^k (1 - p)^(n - k)], multiplied out in
    binary64 from left to right; where an example depends on the last
    bits of a value it names the value. *)
Fixpoint float_pow (x : float) (n : nat) : float :=
  match n with
  | O => 1%float
  | S n' => (x * float_pow x n')%float
  end.

Definition float_choose (n k : nat) : float :=
  fold_left (fun c i => (c * float_of_Z (Z.of_nat (n - i)) / float_of_Z (Z.of_nat (i + 1)))%float)
            (seq 0 k) 1%float.

Definition binom_pmf_float (k n : Z) (p : float) : float :=
  if (k <? 0) || (n <? k) then 0%float
  else (float_choose (Z.to_nat n) (Z.to_nat k)
        * float_pow p (Z.to_nat k) * float_pow (1 - p) (Z.to_nat (n - k)))%float.

(** [seq_err] for the default [err_rate = 0.2]: the float [0.002]. *)
Definition default_seq_err : float := 0x1.0624dd2f1a9fcp-9%float.

Section ACGT_count_facts.

Lemma fold_count_filter (p : nat -> bool) (l : list nat) (acc : Z) :
  fold_left (fun a i => a + (if p i then 1 else 0)) l acc
  = acc + Z.of_nat (length (filter p l)).
Proof.
  revert acc; induction l as [|i l IH]; intro acc; simpl.
  - lia.
  - rewrite IH. destruct (p i); simpl length; lia.
Qed.

Lemma get2_eq_scalar (M : ndarray Z) (v : Z) (i j : nat) :
  v <> 0 ->
  get2 false (eq_scalar M v) i j = (get2 0 M i j =? v).
Proof.
  intro Hv. unfold get2, eq_scalar, dim; simpl.
  replace false with (0 =? v) at 1 by (apply Z.eqb_neq; lia).
  apply (map_nth (fun x => x =? v)).
Qed.

Lemma nth_sum_axis0_eq (M : ndarray Z) (v : Z) (j : nat) :
  v <> 0 -> (j < dim M 1)%nat ->
  nth j (sum_axis0 (eq_scalar M v)) 0 = count_col M j (fun x => x =? v).
Proof.
  intros Hv Hj. unfold sum_axis0.
  change (dim (eq_scalar M v) 1) with (dim M 1).
  change (dim (eq_scalar M v) 0) with (dim M 0).
  rewrite (nth_indep _ 0 ((fun j0 => fold_left (fun acc i => acc + (if get2 false (eq_scalar M v) i j0 then 1 else 0)) (seq 0 (dim M 0)) 0) 0%nat))
    by (rewrite length_map, length_seq; exact Hj).
  rewrite (map_nth (fun j0 => fold_left (fun acc i => acc + (if get2 false (eq_scalar M v) i j0 then 1 else 0)) (seq 0 (dim M 0)) 0)).
  rewrite seq_nth by exact Hj. simpl.
  rewrite (fold_count_filter (fun i => get2 false (eq_scalar M v) i j)).
  unfold count_col. simpl. f_equal. f_equal.
  apply filter_ext. intro i. apply get2_eq_scalar; exact Hv.
Qed.

Lemma length_sum_axis0 (b : ndarray bool) : length (sum_axis0 b) = dim b 1.
Proof. unfold sum_axis0. now rewrite length_map, length_seq. Qed.

Lemma set_col_shape out c v : shape (set_col out c v) = shape out.
Proof. reflexivity. Qed.

Lemma set_col_length out c v :
  length (data (set_col out c v)) = length (data out).
Proof. unfold set_col; simpl. now rewrite length_map, length_seq. Qed.

Lemma get2_set_col (out : ndarray Z) (c : nat) (v : list Z) (j c' : nat) :
  (c' < dim out 1)%nat ->
  (j * dim out 1 + c' < length (data out))%nat ->
  get2 0 (set_col out c v) j c'
  = if Nat.eqb c' c then nth j v 0 else get2 0 out j c'.
Proof.
  intros Hc Hlen. unfold get2 at 1.
  change (dim (set_col out c v) 1) with (dim out 1).
  unfold set_col. cbn [data].
  set (k := dim out 1) in *.
  set (f := fun idx => if Nat.eqb (idx mod k) c then nth (idx / k) v 0
                    else nth idx (data out) 0).
  rewrite (nth_indep _ 0 (f 0%nat)) by (rewrite length_map, length_seq; exact Hlen).
  rewrite (map_nth f), seq_nth by exact Hlen. rewrite Nat.add_0_l. unfold f.
  assert (Hm : ((j * k + c') mod k = c')%nat).
  { rewrite Nat.add_comm, Nat.Div0.mod_add. apply Nat.mod_small; exact Hc. }
  assert (Hd : ((j * k + c') / k = j)%nat).
  { rewrite Nat.add_comm, Nat.div_add by lia. rewrite Nat.div_small by exact Hc. lia. }
  rewrite Hm, Hd. reflexivity.
Qed.

Lemma get2_in_range (M : ndarray Z) (i j : nat) :
  snv_entries M -> 0 <= get2 0 M i j <= 4.
Proof.
  intro H. unfold get2.
  destruct (nth_in_or_default (i * dim M 1 + j) (data M) 0) as [Hin | ->]; [|lia].
  unfold snv_entries in H. rewrite Forall_forall in H. now apply H.
Qed.

Lemma filter_split4 (f : nat -> Z) (l : list nat) :
  (forall i, 0 <= f i <= 4) ->
  Z.of_nat (length (filter (fun i => f i =? 1) l))
  + Z.of_nat (length (filter (fun i => f i =? 2) l))
  + Z.of_nat (length (filter (fun i => f i =? 3) l))
  + Z.of_nat (length (filter (fun i => f i =? 4) l))
  = Z.of_nat (length (filter (fun i => negb (f i =? 0)) l)).
Proof.
  intro Hr. induction l as [|i l IH]; [reflexivity|].
  cbn [filter]. specialize (Hr i).
  destruct (f i =? 1) eqn:E1, (f i =? 2) eqn:E2, (f i =? 3) eqn:E3,
           (f i =? 4) eqn:E4, (f i =? 0) eqn:E0;
    cbn [negb length]; rewrite ?Z.eqb_eq, ?Z.eqb_neq in *; lia.
Qed.

End ACGT_count_facts.

Section ACGT_count_result.

(** On a 2-D array [ACGT_count] returns the table of the counts. *)
Lemma ACGT_count_ok (M : ndarray Z) (n L : nat) :
  shape M = [n; L] ->
  exists out,
    ACGT_count M = Ok out /\
    shape out = [L; 4%nat] /\ wf out /\
    (forall j c, (j < L)%nat -> (c < 4)%nat ->
       get2 0 out j c = count_col M j (fun x => x =? Z.of_nat c + 1)).
Proof.
  intros Hsh.
  unfold ACGT_count. unfold ndim. rewrite Hsh. cbn [length Nat.eqb negb].
  assert (HL : dim M 1 = L) by (unfold dim; now rewrite Hsh).
  rewrite HL. eexists. split; [reflexivity|].
  cbn [seq fold_left].
  set (s := fun i : nat => sum_axis0 (eq_scalar M (Z.of_nat i + 1))).
  change (sum_axis0 (eq_scalar M (Z.of_nat 0 + 1))) with (s 0%nat).
  change (sum_axis0 (eq_scalar M (Z.of_nat 1 + 1))) with (s 1%nat).
  change (sum_axis0 (eq_scalar M (Z.of_nat 2 + 1))) with (s 2%nat).
  change (sum_axis0 (eq_scalar M (Z.of_nat 3 + 1))) with (s 3%nat).
  set (o0 := zeros [L; 4%nat]).
  assert (Hlen0 : length (data o0) = (L * 4)%nat).
  { unfold o0, zeros; cbn [data]. rewrite repeat_length. unfold size_of; simpl. lia. }
  assert (Hget : forall j c, (j < L)%nat -> (c < 4)%nat ->
            get2 0 (set_col (set_col (set_col (set_col o0 0 (s 0%nat)) 1 (s 1%nat)) 2 (s 2%nat)) 3 (s 3%nat)) j c
            = nth j (s c) 0).
  { intros j c Hj Hc.
    assert (Hd : forall o : ndarray Z, shape o = [L; 4%nat] -> dim o 1 = 4%nat)
      by (intros o Ho; unfold dim; now rewrite Ho).
    rewrite !get2_set_col;
      rewrite ?set_col_length, ?Hd, ?Hlen0 by reflexivity; try lia.
    destruct c as [|[|[|[|c]]]]; try lia; cbn [Nat.eqb]; try reflexivity. }
  split; [reflexivity|]. split.
  { unfold wf. rewrite !set_col_length. rewrite Hlen0. cbn. lia. }
  intros j c Hj Hc. rewrite Hget by assumption.
  unfold s. apply nth_sum_axis0_eq; lia.
Qed.

End ACGT_count_result.

(** C8.  On a 2-D read matrix of shape (n, L) with entries in 0..4,
    [ACGT_count] returns an array of shape (L, 4) whose (j, c) entry is the
    number of reads carrying nucleotide c+1 in column j; the entries are
    non-negative, and the sum of row j is the number of non-gap entries of
    column j, so gaps are counted in no column. *)
Theorem ACGT_count_spec (M : ndarray Z) (n L : nat) :
  shape M = [n; L] -> wf M -> snv_entries M ->
  exists out,
    ACGT_count M = Ok out /\
    shape out = [L; 4%nat] /\ wf out /\
    (forall j c, (j < L)%nat -> (c < 4)%nat ->
       get2 0 out j c = count_col M j (fun x => x =? Z.of_nat c + 1) /\
       0 <= get2 0 out j c) /\
    (forall j, (j < L)%nat ->
       get2 0 out j 0 + get2 0 out j 1 + get2 0 out j 2 + get2 0 out j 3
       = count_col M j (fun x => negb (x =? 0))).
Proof.
  intros Hsh _ Hent.
  destruct (ACGT_count_ok M n L Hsh) as (out & Hok & Hshape & Hwf & Hcnt).
  exists out. repeat split; try assumption.
  - apply Hcnt; assumption.
  - rewrite Hcnt by assumption. unfold count_col. lia.
  - intros j Hj. rewrite !Hcnt by lia.
    unfold count_col. cbn [Z.of_nat Z.add Pos.add Pos.succ Z.of_nat Pos.of_succ_nat].
    apply (filter_split4 (fun i => get2 0 M i j)).
    intro i. apply get2_in_range; exact Hent.
Qed.

Lemma ACGT_count_spec_witness :
  exists out,
    ACGT_count (mk_ndarray [3%nat; 2%nat] [1; 0; 1; 4; 2; 4]) = Ok out /\
    to_rows 0 out = [[2; 1; 0; 0]; [0; 0; 0; 2]].
Proof.
  destruct (ACGT_count_spec (mk_ndarray [3%nat; 2%nat] [1; 0; 1; 4; 2; 4]) 3 2)
    as [out [H _]].
  - reflexivity.
  - reflexivity.
  - unfold snv_entries; cbn [data]. repeat constructor; lia.
  - exists out. split; [exact H|].
    vm_compute in H. injection H as <-. reflexivity.
Defined.

(** C9.  [ACGT_count] raises exactly on inputs that are not 2-D, and the
    exception is the [ValueError] of the dimension check. *)
Theorem ACGT_count_raises_iff (M : ndarray Z) :
  (ACGT_count M = Raise (ValueError "arr should be 2D") <-> ndim M <> 2%nat) /\
  ((exists e, ACGT_count M = Raise e) <-> ndim M <> 2%nat) /\
  ((exists out, ACGT_count M = Ok out) <-> ndim M = 2%nat).
Proof.
  unfold ACGT_count.
  destruct (Nat.eqb (ndim M) 2) eqn:E; cbn [negb].
  - apply Nat.eqb_eq in E. repeat split; try congruence; try discriminate.
    + intros [e He]; discriminate.
    + intros _. eexists; reflexivity.
  - apply Nat.eqb_neq in E. repeat split; try congruence; try (intros; exact E).
    + intros _. eexists; reflexivity.
    + intros [o Ho]; discriminate.
Qed.

Section Tensor_facts.

Lemma divmod_unique (a b q r : nat) :
  (r < b)%nat -> a = (b * q + r)%nat -> (a / b = q /\ a mod b = r)%nat.
Proof.
  intros Hr Ha. split.
  - symmetry. apply (Nat.div_unique a b q r); assumption.
  - symmetry. apply (Nat.mod_unique a b q r); assumption.
Qed.

(** The element that [reshape(R, L, 4, order='F')] puts at [r, j, g] is the
    element [r, g*L + j] of the (R, 4L) array. *)
Lemma reshape_F_index (R L i j g : nat) :
  (i < R)%nat -> (j < L)%nat -> (g < 4)%nat ->
  ravel_C [R; (4 * L)%nat]
    (unravel_F [R; (4 * L)%nat]
       (ravel_F [R; L; 4%nat] (unravel_C [R; L; 4%nat] ((i * L + j) * 4 + g))))
  = (i * (4 * L) + (g * L + j))%nat.
Proof.
  intros Hi Hj Hg.
  assert (E1 : unravel_C [R; L; 4%nat] ((i * L + j) * 4 + g) = [i; j; g]).
  { cbn [unravel_C size_of fold_right].
    destruct (divmod_unique ((i * L + j) * 4 + g) (L * (4 * 1)) i (j * 4 + g))
      as [D1 M1]; [lia | lia |].
    rewrite D1, M1.
    destruct (divmod_unique (j * 4 + g) (4 * 1) j g) as [D2 M2]; [lia | lia |].
    rewrite D2, M2. rewrite Nat.div_1_r. reflexivity. }
  rewrite E1.
  assert (E2 : ravel_F [R; L; 4%nat] [i; j; g] = (R * (L * g + j) + i)%nat).
  { cbn [ravel_F]. lia. }
  rewrite E2.
  assert (E3 : unravel_F [R; (4 * L)%nat] (R * (L * g + j) + i)
               = [i; (L * g + j)%nat]).
  { cbn [unravel_F].
    destruct (divmod_unique (R * (L * g + j) + i) R (L * g + j) i)
      as [D1 M1]; [lia | lia |].
    rewrite D1, M1. rewrite Nat.mod_small by nia. reflexivity. }
  rewrite E3. cbn [ravel_C size_of fold_right]. lia.
Qed.

Lemma nth_concat_uniform {A} (d : A) (n : nat) (rows : list (list A)) (i c : nat) :
  Forall (fun r => length r = n) rows -> (c < n)%nat ->
  nth (i * n + c) (concat rows) d = nth c (nth i rows []) d.
Proof.
  intros H Hc. revert i. induction H as [|r rows Hr _ IH]; intro i.
  - cbn [concat]. destruct i; cbn [nth]; now destruct (_ + c)%nat, c.
  - destruct i as [|i]; cbn [concat nth].
    + rewrite app_nth1 by (simpl; lia). reflexivity.
    + rewrite app_nth2 by (simpl; lia).
      replace (S i * n + c - length r)%nat with (i * n + c)%nat by (simpl; lia).
      apply IH.
Qed.

Lemma length_concat_uniform {A} (n : nat) (rows : list (list A)) :
  Forall (fun r => length r = n) rows ->
  length (concat rows) = (length rows * n)%nat.
Proof.
  induction 1 as [|r rows Hr _ IH]; [reflexivity|].
  cbn [concat length]. rewrite length_app, IH, Hr. lia.
Qed.

Definition ind (v x : Z) : Q := if x =? v then 1%Q else 0%Q.

Lemma tensor_rows (M : matrix) :
  tensor M
  = map (fun r => map (ind 1) r ++ map (ind 2) r ++ map (ind 3) r ++ map (ind 4) r) M.
Proof.
  unfold tensor, hstack, double_eq. induction M as [|r M IH]; [reflexivity|].
  cbn [map combine fst snd]. f_equal. exact IH.
Qed.

Lemma tensor_has_cols (L : nat) (M : matrix) :
  has_cols L M -> has_cols (4 * L) (tensor M).
Proof.
  rewrite tensor_rows. unfold has_cols. intro H.
  rewrite Forall_map. eapply Forall_impl; [|exact H].
  cbv beta. intros r Hr. rewrite !length_app, !length_map. lia.
Qed.

Lemma length_tensor (M : matrix) : length (tensor M) = length M.
Proof. rewrite tensor_rows. apply length_map. Qed.

(** Entry [g*L + j] of a tensor row is the indicator of nucleotide [g+1]
    at position [j]. *)
Lemma nth_tensor (L : nat) (M : matrix) (i j g : nat) :
  has_cols L M -> (i < length M)%nat -> (j < L)%nat -> (g < 4)%nat ->
  nth (g * L + j) (nth i (tensor M) []) 0%Q
  = ind (Z.of_nat g + 1) (nth j (nth i M []) 0).
Proof.
  intros HL Hi Hj Hg. rewrite tensor_rows.
  set (f := fun r => map (ind 1) r ++ map (ind 2) r ++ map (ind 3) r ++ map (ind 4) r).
  rewrite (nth_indep _ [] (f [])) by (rewrite length_map; exact Hi).
  rewrite (map_nth f). unfold f.
  assert (Hr : length (nth i M []) = L).
  { unfold has_cols in HL. rewrite Forall_forall in HL. apply HL. now apply nth_In. }
  set (r := nth i M []) in *.
  assert (Hn : forall v, nth j (map (ind v) r) 0%Q = ind v (nth j r 0)).
  { intro v. rewrite (nth_indep _ 0%Q (ind v 0)) by (rewrite length_map; lia).
    apply (map_nth (ind v)). }
  destruct g as [|[|[|[|g]]]]; try lia; cbn [Z.of_nat Pos.of_succ_nat Pos.succ Z.add Pos.add].
  - rewrite app_nth1 by (rewrite length_map; lia). apply Hn.
  - rewrite app_nth2 by (rewrite length_map; lia).
    rewrite app_nth1 by (rewrite !length_map; lia).
    rewrite length_map. replace (1 * L + j - length r)%nat with j by lia. apply Hn.
  - rewrite app_nth2 by (rewrite length_map; lia).
    rewrite app_nth2 by (rewrite !length_map; lia).
    rewrite app_nth1 by (rewrite !length_map; lia).
    rewrite !length_map. replace (2 * L + j - length r - length r)%nat with j by lia.
    apply Hn.
  - rewrite app_nth2 by (rewrite length_map; lia).
    rewrite app_nth2 by (rewrite !length_map; lia).
    rewrite app_nth2 by (rewrite !length_map; lia).
    rewrite !length_map.
    replace (3 * L + j - length r - length r - length r)%nat with j by lia.
    apply Hn.
Qed.

(** One decoded entry: the first maximum among the four indicators. *)
Lemma decode_entry (Vt : qmatrix) (R L i j : nat) :
  length Vt = R -> has_cols (4 * L) Vt -> (i < R)%nat -> (j < L)%nat ->
  nth j (nth i (decode Vt R L) []) 0
  = Z.of_nat (argmax_by Qltb
                (map (fun g => nth (g * L + j) (nth i Vt []) 0%Q) (seq 0 4))) + 1.
Proof.
  intros HR Hc Hi Hj. unfold decode, to_rows.
  set (B := reshape_F 0%Q (of_rows (4 * L) Vt) [R; L; 4%nat]).
  set (D := add_scalar (argmax_last Qltb 0%Q B) 1).
  assert (HD0 : dim D 0 = R) by reflexivity.
  assert (HD1 : dim D 1 = L) by reflexivity.
  rewrite HD0, HD1.
  set (frow := fun i0 => map (fun j0 => get2 0 D i0 j0) (seq 0 L)).
  rewrite (nth_indep _ [] (frow 0%nat)) by (rewrite length_map, length_seq; exact Hi).
  rewrite (map_nth frow), seq_nth by exact Hi. rewrite Nat.add_0_l. unfold frow.
  set (fcol := fun j0 => get2 0 D i j0).
  rewrite (nth_indep _ 0 (fcol 0%nat)) by (rewrite length_map, length_seq; exact Hj).
  rewrite (map_nth fcol), seq_nth by exact Hj. rewrite Nat.add_0_l. unfold fcol.
  unfold get2. rewrite HD1. unfold D, add_scalar. cbn [data].
  rewrite (nth_indep _ 0 ((fun x => x + 1) 0)).
  2:{ rewrite length_map. unfold argmax_last. cbn [data shape B reshape_F removelast].
      rewrite length_map, length_seq. cbn [size_of fold_right]. nia. }
  rewrite (map_nth (fun x => x + 1)). f_equal.
  unfold argmax_last.
  change (last (shape B) 0%nat) with 4%nat.
  change (removelast (shape B)) with [R; L].
  cbn [data].
  set (fk := fun k => Z.of_nat (argmax_by Qltb
              (map (fun g => nth (k * 4 + g) (data B) 0%Q) (seq 0 4)))).
  assert (Hlt : (i * L + j < size_of [R; L])%nat) by (cbn [size_of fold_right]; nia).
  rewrite (nth_indep _ 0 (fk 0%nat)) by (rewrite length_map, length_seq; exact Hlt).
  rewrite (map_nth fk), seq_nth by exact Hlt. rewrite Nat.add_0_l. unfold fk.
  f_equal. f_equal. apply map_ext_in. intros g Hg.
  apply in_seq in Hg.
  unfold B, reshape_F. cbn [data].
  set (fB := fun k =>
     nth (ravel_C (shape (of_rows (4 * L) Vt))
            (unravel_F (shape (of_rows (4 * L) Vt))
               (ravel_F [R; L; 4%nat] (unravel_C [R; L; 4%nat] k))))
         (concat Vt) 0%Q).
  assert (Hk : ((i * L + j) * 4 + g < size_of [R; L; 4%nat])%nat)
    by (cbn [size_of fold_right]; nia).
  change (data (of_rows (4 * L) Vt)) with (concat Vt).
  rewrite (nth_indep _ 0%Q (fB 0%nat)) by (rewrite length_map, length_seq; exact Hk).
  rewrite (map_nth fB), seq_nth by exact Hk. rewrite Nat.add_0_l. unfold fB.
  change (shape (of_rows (4 * L) Vt)) with [length Vt; (4 * L)%nat].
  rewrite HR. rewrite reshape_F_index by lia.
  apply nth_concat_uniform; [exact Hc | nia].
Qed.

Lemma decode_shape (Vt : qmatrix) (R L : nat) :
  length (decode Vt R L) = R /\ has_cols L (decode Vt R L).
Proof.
  unfold decode, to_rows. split.
  - rewrite length_map, length_seq. reflexivity.
  - unfold has_cols. rewrite Forall_map. apply Forall_forall. intros i _.
    rewrite length_map, length_seq. reflexivity.
Qed.

Lemma matrix_ext (R L : nat) (A B : matrix) :
  length A = R -> length B = R -> has_cols L A -> has_cols L B ->
  (forall i j, (i < R)%nat -> (j < L)%nat ->
     nth j (nth i A []) 0 = nth j (nth i B []) 0) ->
  A = B.
Proof.
  intros HA HB HcA HcB H.
  apply (nth_ext A B [] []); [congruence|].
  intros i Hi. unfold has_cols in *. rewrite Forall_forall in HcA, HcB.
  assert (LA : length (nth i A []) = L) by (apply HcA, nth_In; lia).
  assert (LB : length (nth i B []) = L) by (apply HcB, nth_In; lia).
  apply (nth_ext _ _ 0 0); [congruence|].
  intros j Hj. apply H; lia.
Qed.

End Tensor_facts.

(** C4.  The tensor of an (R, L) matrix has shape (R, 4L).  Decoding the
    tensor of a matrix with entries in 1..4 gives the matrix back; on a read
    matrix with entries in 0..4 decoding gives back every non-gap entry. *)
Theorem tensor_decode_roundtrip (V : matrix) (R L : nat) :
  length V = R -> has_cols L V ->
  length (tensor V) = R /\ has_cols (4 * L) (tensor V) /\
  (Forall (Forall (fun x => 1 <= x <= 4)) V -> decode (tensor V) R L = V) /\
  (Forall (Forall (fun x => 0 <= x <= 4)) V ->
   forall i j, (i < R)%nat -> (j < L)%nat ->
     nth j (nth i V []) 0 <> 0 ->
     nth j (nth i (decode (tensor V) R L) []) 0 = nth j (nth i V []) 0).
Proof.
  intros HR HL.
  assert (HT : length (tensor V) = R) by (rewrite length_tensor; exact HR).
  assert (HTc : has_cols (4 * L) (tensor V)) by (apply tensor_has_cols; exact HL).
  assert (Hentry : forall i j, (i < R)%nat -> (j < L)%nat ->
            0 <= nth j (nth i V []) 0 <= 4 -> nth j (nth i V []) 0 <> 0 ->
            nth j (nth i (decode (tensor V) R L) []) 0 = nth j (nth i V []) 0).
  { intros i j Hi Hj Hrange Hnz.
    rewrite decode_entry by assumption.
    cbn [seq map].
    rewrite !(nth_tensor L V i j) by (rewrite ?HR; assumption || lia).
    cbn [Z.of_nat Pos.of_succ_nat Pos.succ Z.add Pos.add].
    set (x := nth j (nth i V []) 0) in *.
    assert (Hx : x = 1 \/ x = 2 \/ x = 3 \/ x = 4) by lia.
    destruct Hx as [-> | [-> | [-> | ->]]]; reflexivity. }
  repeat split; try assumption.
  - intro Hent.
    destruct (decode_shape (tensor V) R L) as [HdR HdL].
    apply (matrix_ext R L); try assumption.
    intros i j Hi Hj.
    assert (Hx : 1 <= nth j (nth i V []) 0 <= 4).
    { rewrite Forall_forall in Hent.
      assert (Hrow : In (nth i V []) V) by (apply nth_In; lia).
      specialize (Hent _ Hrow). rewrite Forall_forall in Hent.
      apply Hent. apply nth_In.
      unfold has_cols in HL. rewrite Forall_forall in HL. rewrite (HL _ Hrow). exact Hj. }
    apply Hentry; try assumption; lia.
  - intros Hent i j Hi Hj Hnz. apply Hentry; try assumption.
    rewrite Forall_forall in Hent.
    assert (Hrow : In (nth i V []) V) by (apply nth_In; lia).
    specialize (Hent _ Hrow). rewrite Forall_forall in Hent.
    apply Hent. apply nth_In.
    unfold has_cols in HL. rewrite Forall_forall in HL. rewrite (HL _ Hrow). exact Hj.
Qed.

Lemma tensor_decode_roundtrip_witness :
  decode (tensor [[1; 2; 4]; [4; 3; 3]]) 2 3 = [[1; 2; 4]; [4; 3; 3]].
Proof.
  destruct (tensor_decode_roundtrip [[1; 2; 4]; [4; 3; 3]] 2 3) as (_ & _ & H & _).
  - reflexivity.
  - repeat constructor.
  - apply H. repeat constructor; lia.
Defined.

(** * Facts about [argmax] *)

Section Argmax_facts.

Lemma argmax_from_first_max (pre l : list Z) (bi : nat) (b : Z) :
  (bi < length pre)%nat -> nth bi pre 0 = b ->
  (forall k, (k < length pre)%nat -> nth k pre 0 <= b) ->
  (forall k, (k < bi)%nat -> nth k pre 0 < b) ->
  let c := argmax_from Z.ltb bi b (length pre) l in
  (c < length (pre ++ l))%nat /\
  (forall k, (k < length (pre ++ l))%nat -> nth k (pre ++ l) 0 <= nth c (pre ++ l) 0) /\
  (forall k, (k < c)%nat -> nth k (pre ++ l) 0 < nth c (pre ++ l) 0).
Proof.
  revert pre bi b. induction l as [|x t IH]; intros pre bi b Hbi Hb Hmax Hfirst.
  - cbn [argmax_from]. rewrite app_nil_r. rewrite Hb. auto.
  - cbn [argmax_from].
    assert (Hlen : length (pre ++ [x]) = S (length pre))
      by (rewrite length_app; simpl; lia).
    replace (pre ++ x :: t) with ((pre ++ [x]) ++ t)
      by (rewrite <- app_assoc; reflexivity).
    destruct (Z.ltb_spec b x) as [Hlt | Hge].
    + specialize (IH (pre ++ [x]) (length pre) x).
      rewrite Hlen in IH. apply IH.
      * lia.
      * rewrite app_nth2 by lia. rewrite Nat.sub_diag. reflexivity.
      * intros k Hk. destruct (Nat.eq_dec k (length pre)) as [-> | Hne].
        -- rewrite app_nth2 by lia. rewrite Nat.sub_diag. simpl. lia.
        -- rewrite app_nth1 by lia. specialize (Hmax k). lia.
      * intros k Hk. rewrite app_nth1 by lia. specialize (Hmax k). lia.
    + specialize (IH (pre ++ [x]) bi b).
      rewrite Hlen in IH. apply IH.
      * lia.
      * rewrite app_nth1 by lia. exact Hb.
      * intros k Hk. destruct (Nat.eq_dec k (length pre)) as [-> | Hne].
        -- rewrite app_nth2 by lia. rewrite Nat.sub_diag. simpl. lia.
        -- rewrite app_nth1 by lia. apply Hmax. lia.
      * intros k Hk. rewrite app_nth1 by lia. apply Hfirst. exact Hk.
Qed.

(** [argmax_list] returns the first position that holds the maximum. *)
Lemma argmax_list_first_max (l : list Z) :
  l <> [] ->
  (argmax_list l < length l)%nat /\
  (forall k, (k < length l)%nat -> nth k l 0 <= nth (argmax_list l) l 0) /\
  (forall k, (k < argmax_list l)%nat -> nth k l 0 < nth (argmax_list l) l 0).
Proof.
  destruct l as [|x t]; [congruence|]. intros _.
  unfold argmax_list, argmax_by.
  apply (argmax_from_first_max [x] t 0 x).
  - simpl; lia.
  - reflexivity.
  - intros k Hk. simpl in Hk. assert (k = 0%nat) by lia. subst. simpl. lia.
  - intros k Hk. lia.
Qed.

End Argmax_facts.

(** * Statistics of a matrix held as rows *)

Section Rows_facts.

Lemma get2_of_rows {A} (d : A) (L : nat) (rows : list (list A)) (i j : nat) :
  has_cols L rows -> (j < L)%nat ->
  get2 d (of_rows L rows) i j = nth j (nth i rows []) d.
Proof.
  intros H Hj. unfold get2, of_rows, dim. cbn [shape data nth].
  apply nth_concat_uniform; assumption.
Qed.

Lemma map_nth_seq {A} (d : A) (l : list A) :
  map (fun i => nth i l d) (seq 0 (length l)) = l.
Proof.
  induction l as [|x l IH]; [reflexivity|].
  cbn [length seq map nth]. f_equal.
  rewrite <- seq_shift, map_map. exact IH.
Qed.

Lemma length_filter_map {A B} (f : A -> B) (p : B -> bool) (l : list A) :
  length (filter (fun a => p (f a)) l) = length (filter p (map f l)).
Proof.
  induction l as [|a l IH]; [reflexivity|].
  cbn [map filter]. destruct (p (f a)); cbn [length]; now rewrite IH.
Qed.

Lemma count_col_of_rows (L : nat) (reads : matrix) (j : nat) (p : Z -> bool) :
  has_cols L reads -> (j < L)%nat ->
  count_col (of_rows L reads) j p
  = Z.of_nat (length (filter (fun r => p (nth j r 0)) reads)).
Proof.
  intros H Hj. unfold count_col. f_equal.
  change (dim (of_rows L reads) 0) with (length reads).
  rewrite (filter_ext _ (fun i => (fun r => p (nth j r 0)) (nth i reads [])))
    by (intro i; now rewrite get2_of_rows).
  rewrite (length_filter_map (fun i => nth i reads []) (fun r => p (nth j r 0))).
  now rewrite map_nth_seq.
Qed.

Lemma ACGT_rows_ok (L : nat) (reads : matrix) :
  has_cols L reads -> ACGT_rows L reads = Ok (count_table L reads).
Proof.
  intro H. unfold ACGT_rows.
  destruct (ACGT_count_ok (of_rows L reads) (length reads) L eq_refl)
    as (out & Hok & Hshape & _ & Hcnt).
  rewrite Hok. cbn [bind]. unfold to_rows, count_table, dim.
  rewrite Hshape. cbn [nth]. apply (f_equal Ok).
  apply map_ext_in. intros j Hj. apply in_seq in Hj.
  apply map_ext_in. intros c Hc. apply in_seq in Hc.
  rewrite Hcnt by lia. unfold nuc_count.
  apply count_col_of_rows; [exact H | lia].
Qed.

Lemma map_const_seq {A} (x : A) (a n : nat) :
  map (fun _ => x) (seq a n) = repeat x n.
Proof.
  revert a. induction n as [|n IH]; intro a; [reflexivity|].
  cbn [seq map repeat]. now rewrite IH.
Qed.

Lemma single_stats_ok (L : nat) (reads : matrix) :
  has_cols L reads -> single_stats L reads = Ok (count_table L reads).
Proof.
  intro H. unfold single_stats.
  destruct reads as [|r reads]; cbn [length Nat.eqb].
  - apply (f_equal Ok). unfold count_table.
    rewrite <- (map_const_seq [0; 0; 0; 0] 0 L). reflexivity.
  - apply ACGT_rows_ok; exact H.
Qed.

Lemma length_count_table L reads : length (count_table L reads) = L.
Proof. unfold count_table. now rewrite length_map, length_seq. Qed.

Lemma nth_count_table L reads j :
  (j < L)%nat ->
  nth j (count_table L reads) []
  = [nuc_count reads j 0; nuc_count reads j 1; nuc_count reads j 2; nuc_count reads j 3].
Proof.
  intro Hj. unfold count_table.
  set (f := fun j0 => map (fun c => nuc_count reads j0 c) (seq 0 4)).
  rewrite (nth_indep _ [] (f 0%nat)) by (rewrite length_map, length_seq; exact Hj).
  rewrite (map_nth f), seq_nth by exact Hj. reflexivity.
Qed.

Lemma nuc_count_nonneg reads j c : 0 <= nuc_count reads j c.
Proof. unfold nuc_count. lia. Qed.

(** The counts of a position add up to the number of reads that cover it. *)
Lemma nuc_count_total (reads : matrix) (j : nat) :
  Forall (Forall (fun x => 0 <= x <= 4)) reads ->
  nuc_count reads j 0 + nuc_count reads j 1 + nuc_count reads j 2 + nuc_count reads j 3
  = Z.of_nat (length (filter (fun r => negb (nth j r 0 =? 0)) reads)).
Proof.
  intro H. unfold nuc_count.
  cbn [Z.of_nat Z.add Pos.add Pos.succ Pos.of_succ_nat].
  induction H as [|r reads Hr _ IH]; [reflexivity|].
  cbn [filter].
  assert (Hx : 0 <= nth j r 0 <= 4).
  { destruct (nth_in_or_default j r 0) as [Hin | ->]; [|lia].
    rewrite Forall_forall in Hr. now apply Hr. }
  destruct (nth j r 0 =? 1) eqn:E1, (nth j r 0 =? 2) eqn:E2,
           (nth j r 0 =? 3) eqn:E3, (nth j r 0 =? 4) eqn:E4,
           (nth j r 0 =? 0) eqn:E0;
    cbn [negb length]; rewrite ?Z.eqb_eq, ?Z.eqb_neq in *; lia.
Qed.

Lemma covered_iff_total (reads : matrix) (j : nat) :
  covered reads j = negb (Nat.eqb (length (filter (fun r => negb (nth j r 0 =? 0)) reads)) 0).
Proof.
  unfold covered. induction reads as [|r reads IH]; [reflexivity|].
  cbn [existsb filter]. destruct (negb (nth j r 0 =? 0)); cbn [orb length Nat.eqb negb].
  - reflexivity.
  - exact IH.
Qed.

(** A position is uncovered exactly when its row of the table sums to 0. *)
Lemma uncovered_row (L : nat) (reads : matrix) (j : nat) :
  Forall (Forall (fun x => 0 <= x <= 4)) reads -> (j < L)%nat ->
  (sum_list (nth j (count_table L reads) []) =? 0) = negb (covered reads j).
Proof.
  intros H Hj. rewrite nth_count_table by exact Hj.
  cbn [sum_list fold_right]. rewrite covered_iff_total, negb_involutive.
  pose proof (nuc_count_total reads j H) as Ht.
  destruct (Nat.eqb_spec (length (filter (fun r => negb (nth j r 0 =? 0)) reads)) 0) as [E | E].
  - apply Z.eqb_eq. lia.
  - apply Z.eqb_neq. lia.
Qed.

End Rows_facts.

(** * The majority vote *)

Section Vote_facts.

Lemma in_np_where (mask : list bool) (i : nat) :
  In i (np_where mask) <-> (i < length mask)%nat /\ nth i mask false = true.
Proof.
  unfold np_where. rewrite filter_In, in_seq. intuition lia.
Qed.

Lemma fold_max_in (t : list Z) (x : Z) : In (fold_left Z.max t x) (x :: t).
Proof.
  revert x. induction t as [|y t IH]; intro x; cbn [fold_left].
  - now left.
  - destruct (Z.max_spec x y) as [[_ E] | [_ E]]; rewrite E.
    + destruct (IH y) as [H | H]; [right; left; exact H | right; right; exact H].
    + destruct (IH x) as [H | H]; [left; exact H | right; right; exact H].
Qed.

Lemma max_list_in (l : list Z) : l <> [] -> In (max_list l) l.
Proof.
  destruct l as [|x t]; [congruence|]. intros _. apply fold_max_in.
Qed.

(** The list of the positions that hold the maximum is not empty. *)
Lemma maxima_nonempty (row : list Z) :
  row <> [] ->
  np_where (map (fun x => x =? max_list row) row) <> [].
Proof.
  intro Hne. destruct (In_nth _ _ 0 (max_list_in row Hne)) as (i & Hi & Hv).
  intro Hnil.
  assert (Hin : In i (np_where (map (fun x => x =? max_list row) row))).
  { apply in_np_where. rewrite length_map. split; [exact Hi|].
    rewrite (nth_indep _ false ((fun x => x =? max_list row) 0))
      by (rewrite length_map; exact Hi).
    rewrite (map_nth (fun x => x =? max_list row)). rewrite Hv. apply Z.eqb_refl. }
  rewrite Hnil in Hin. exact Hin.
Qed.

(** [int(np.floor(random.random() * len(tem)))] is an index of [tem]. *)
Lemma random_index_in_range (u : Q) (len : nat) :
  (0 <= u)%Q -> (u < 1)%Q -> (0 < len)%nat ->
  (Z.to_nat (Qfloor (u * inject_Z (Z.of_nat len))) < len)%nat.
Proof.
  intros H0 H1 Hlen.
  set (x := (u * inject_Z (Z.of_nat len))%Q).
  assert (Hpos : (0 < inject_Z (Z.of_nat len))%Q).
  { rewrite <- (Zlt_Qlt 0). lia. }
  assert (Hx0 : (0 <= x)%Q).
  { unfold x. apply Qmult_le_0_compat; [exact H0 | apply Qlt_le_weak; exact Hpos]. }
  assert (Hx1 : (x < inject_Z (Z.of_nat len))%Q).
  { unfold x. rewrite <- (Qmult_1_l (inject_Z (Z.of_nat len))) at 2.
    apply Qmult_lt_compat_r; assumption. }
  assert (Hf0 : 0 <= Qfloor x).
  { change 0 with (Qfloor 0). apply Qfloor_resp_le. exact Hx0. }
  assert (Hf1 : Qfloor x < Z.of_nat len).
  { rewrite Zlt_Qlt. eapply Qle_lt_trans; [apply Qfloor_le | exact Hx1]. }
  lia.
Qed.

Lemma list_get_in_range {A} (l : list A) (k : nat) :
  (k < length l)%nat -> exists x, list_get l k = Ok x.
Proof.
  intro H. unfold list_get.
  destruct (nth_error l k) eqn:E; [eauto|].
  apply nth_error_None in E. lia.
Qed.

(** The fallback returns a nucleotide and draws at most one number. *)
Lemma fallback_ok (rr : nat -> Q) (row : list Z) (n : nat) :
  unit_interval rr -> row <> [] ->
  exists v n', fallback rr row n = Ok (v, n') /\ (n <= n' <= S n)%nat.
Proof.
  intros Hrr Hne. unfold fallback.
  set (tem := np_where (map (fun x => x =? max_list row) row)).
  destruct (negb (Nat.eqb (length tem) 1)).
  - assert (Hlen : (0 < length tem)%nat).
    { pose proof (maxima_nonempty row Hne) as Hn. fold tem in Hn.
      destruct tem; [congruence | simpl; lia]. }
    destruct (Hrr n) as [H0 H1].
    destruct (list_get_in_range tem _
                (random_index_in_range (rr n) (length tem) H0 H1 Hlen)) as [t Ht].
    rewrite Ht. eexists _, _. split; [reflexivity | lia].
  - unfold ret. eexists _, _. split; [reflexivity | lia].
Qed.

Lemma length_list_set {A} (l : list A) (k : nat) (v : A) :
  length (list_set l k v) = length l.
Proof.
  revert k. induction l as [|x l IH]; intro k; [reflexivity|].
  destruct k; cbn [list_set length]; [reflexivity | now rewrite IH].
Qed.

Lemma nth_list_set_other {A} (d : A) (l : list A) (k j : nat) (v : A) :
  j <> k -> nth j (list_set l k v) d = nth j l d.
Proof.
  revert k j. induction l as [|x l IH]; intros k j Hjk; [reflexivity|].
  destruct k, j; cbn [list_set nth]; try reflexivity; try congruence.
  apply IH. congruence.
Qed.

Lemma nth_list_set_same {A} (d : A) (l : list A) (k : nat) (v : A) :
  (k < length l)%nat -> nth k (list_set l k v) d = v.
Proof.
  revert k. induction l as [|x l IH]; intros k Hk; [simpl in Hk; lia|].
  destruct k; cbn [list_set nth]; [reflexivity|].
  apply IH. simpl in Hk. lia.
Qed.

(** Filling the uncovered positions [js] leaves every other position as it
    is and draws at most one number per position. *)
Lemma fill_uncovered_ok (rr : nat -> Q) (prior : matrix) (js : list nat)
    (row : list Z) (n : nat) :
  unit_interval rr -> (forall j, In j js -> nth j prior [] <> []) ->
  exists row' n',
    foldM (fun row j => v <- fallback rr (nth j prior []) ;; ret (list_set row j v))
          js row n = Ok (row', n') /\
    length row' = length row /\
    (forall j, ~ In j js -> nth j row' 0 = nth j row 0) /\
    (n <= n' <= n + length js)%nat.
Proof.
  intros Hrr. revert row n. induction js as [|j js IH]; intros row n Hprior.
  - exists row, n. cbn [foldM]. unfold ret. repeat split; auto; simpl; lia.
  - cbn [foldM]. unfold bindRS at 1. unfold bindRS at 1.
    destruct (fallback_ok rr (nth j prior []) n Hrr (Hprior j (or_introl eq_refl)))
      as (v & n1 & Hf & Hn1).
    rewrite Hf. unfold ret at 1.
    destruct (IH (list_set row j v) n1 (fun j' H => Hprior j' (or_intror H)))
      as (row' & n' & Hfold & Hlen & Hsame & Hn').
    exists row', n'. split; [exact Hfold|]. split.
    { rewrite Hlen. apply length_list_set. }
    split.
    { intros j' Hnot. rewrite Hsame by (intro; apply Hnot; now right).
      apply nth_list_set_other. intro; apply Hnot; now left. }
    cbn [length]. lia.
Qed.

Lemma uncov_pos_table (L : nat) (reads : matrix) :
  Forall (Forall (fun x => 0 <= x <= 4)) reads ->
  uncov_pos (count_table L reads)
  = filter (fun j => negb (covered reads j)) (seq 0 L).
Proof.
  intro H. unfold uncov_pos, np_where.
  rewrite length_map, length_count_table.
  apply filter_ext_in. intros j Hj. apply in_seq in Hj.
  set (f := fun r => sum_list r =? 0).
  rewrite (nth_indep _ false (f [])) by (rewrite length_map, length_count_table; lia).
  rewrite (map_nth f). unfold f. apply uncovered_row; [exact H | lia].
Qed.

(** The first maximum of the four counts of a position. *)
Lemma argmax_counts_first_max (reads : matrix) (j : nat) :
  first_max (nuc_count reads j)
    (argmax_list [nuc_count reads j 0; nuc_count reads j 1;
                  nuc_count reads j 2; nuc_count reads j 3]).
Proof.
  set (l := [nuc_count reads j 0; nuc_count reads j 1;
             nuc_count reads j 2; nuc_count reads j 3]).
  assert (Hnth : forall c, (c < 4)%nat -> nth c l 0 = nuc_count reads j c).
  { intros c Hc. destruct c as [|[|[|[|c]]]]; try lia; reflexivity. }
  destruct (argmax_list_first_max l) as (Hlt & Hmax & Hfirst); [discriminate|].
  change (length l) with 4%nat in *.
  unfold first_max. split; [exact Hlt|]. split.
  - intros c' Hc'. rewrite <- !Hnth by assumption. apply Hmax; exact Hc'.
  - intros c' Hc'. rewrite <- !Hnth by lia. apply Hfirst; exact Hc'.
Qed.

Lemma nth_vote_row (L : nat) (reads : matrix) (j : nat) :
  (j < L)%nat ->
  nth j (map (fun r => Z.of_nat (argmax_list r) + 1) (count_table L reads)) 0
  = Z.of_nat (argmax_list [nuc_count reads j 0; nuc_count reads j 1;
                           nuc_count reads j 2; nuc_count reads j 3]) + 1.
Proof.
  intro Hj. set (f := fun r => Z.of_nat (argmax_list r) + 1).
  rewrite (nth_indep _ 0 (f [])) by (rewrite length_map, length_count_table; exact Hj).
  rewrite (map_nth f). unfold f. now rewrite nth_count_table.
Qed.

(** The row a vote returns, at the covered positions. *)
Lemma majority_vote_ok (rr : nat -> Q) (L : nat) (reads prior : matrix) (n : nat) :
  snv_matrix L reads -> length prior = L -> has_cols 4 prior -> unit_interval rr ->
  exists row n',
    majority_vote rr L reads prior n = Ok (row, n') /\
    length row = L /\
    (forall j, (j < L)%nat -> covered reads j = true ->
       nth j row 0
       = Z.of_nat (argmax_list [nuc_count reads j 0; nuc_count reads j 1;
                                nuc_count reads j 2; nuc_count reads j 3]) + 1) /\
    (n <= n' <= n + length (filter (fun j => negb (covered reads j)) (seq 0 L)))%nat.
Proof.
  intros [Hcols Hent] Hlen Hprior Hrr. unfold majority_vote.
  unfold bindRS at 1. rewrite (single_stats_ok L reads Hcols). cbn [lift].
  rewrite (uncov_pos_table L reads Hent).
  set (js := filter (fun j => negb (covered reads j)) (seq 0 L)).
  set (row0 := map (fun r => Z.of_nat (argmax_list r) + 1) (count_table L reads)).
  destruct (fill_uncovered_ok rr prior js row0 n Hrr) as (row & n' & Hf & Hl & Hsame & Hn).
  { intros j Hj. unfold js in Hj. apply filter_In in Hj. destruct Hj as [Hj _].
    apply in_seq in Hj.
    unfold has_cols in Hprior. rewrite Forall_forall in Hprior.
    assert (Hr : length (nth j prior []) = 4%nat) by (apply Hprior, nth_In; lia).
    intro E. rewrite E in Hr. discriminate. }
  exists row, n'. split; [exact Hf|]. split.
  { rewrite Hl. unfold row0. now rewrite length_map, length_count_table. }
  split; [|exact Hn].
  intros j Hj Hcov. rewrite Hsame.
  - unfold row0. apply nth_vote_row; exact Hj.
  - unfold js. rewrite filter_In. intros [_ Hneg]. rewrite Hcov in Hneg. discriminate.
Qed.

Lemma fold_list_set_other (js : list nat) (row : list Z) (j : nat) :
  ~ In j js ->
  nth j (fold_left (fun row j => list_set row j 0) js row) 0 = nth j row 0.
Proof.
  revert row. induction js as [|k js IH]; intros row Hnot; [reflexivity|].
  cbn [fold_left]. rewrite IH by (intro; apply Hnot; now right).
  apply nth_list_set_other. intro; apply Hnot; now left.
Qed.

Lemma fold_list_set_length (js : list nat) (row : list Z) :
  length (fold_left (fun row j => list_set row j 0) js row) = length row.
Proof.
  revert row. induction js as [|k js IH]; intro row; [reflexivity|].
  cbn [fold_left]. rewrite IH. apply length_list_set.
Qed.

Lemma deletion_vote_ok (L : nat) (reads : matrix) :
  snv_matrix L reads ->
  exists row,
    deletion_vote L reads = Ok row /\
    length row = L /\
    (forall j, (j < L)%nat -> covered reads j = true ->
       nth j row 0
       = Z.of_nat (argmax_list [nuc_count reads j 0; nuc_count reads j 1;
                                nuc_count reads j 2; nuc_count reads j 3]) + 1).
Proof.
  intros [Hcols Hent]. unfold deletion_vote.
  rewrite (single_stats_ok L reads Hcols). cbn [bind].
  rewrite (uncov_pos_table L reads Hent).
  eexists. split; [reflexivity|]. split.
  - rewrite fold_list_set_length, length_map. apply length_count_table.
  - intros j Hj Hcov. rewrite fold_list_set_other.
    + apply nth_vote_row; exact Hj.
    + rewrite filter_In. intros [_ Hneg]. rewrite Hcov in Hneg. discriminate.
Qed.

End Vote_facts.

(** C10.  In the vote that gives a row of [V_major] or of [reconV2] and in
    the vote that gives a row of [V_deletion], a position covered by some
    read of the haplotype gets the nucleotide with the smallest index among
    those with the largest count.  The first vote draws at most one random
    number for each position that no read covers and none for the others,
    so its result at the covered positions is the same for another random
    source; the vote of [V_deletion] draws nothing at all. *)
Theorem majority_vote_tie_break (rr : nat -> Q) (L : nat) (reads prior : matrix)
    (n : nat) :
  snv_matrix L reads -> length prior = L -> has_cols 4 prior -> unit_interval rr ->
  exists row n' drow,
    majority_vote rr L reads prior n = Ok (row, n') /\
    deletion_vote L reads = Ok drow /\
    length row = L /\ length drow = L /\
    (forall j, (j < L)%nat -> covered reads j = true ->
       exists c, first_max (nuc_count reads j) c /\
                 nth j row 0 = Z.of_nat c + 1 /\ nth j drow 0 = Z.of_nat c + 1) /\
    (n <= n' <= n + length (filter (fun j => negb (covered reads j)) (seq 0 L)))%nat /\
    (forall rr2 n2, unit_interval rr2 ->
       exists row2 n2',
         majority_vote rr2 L reads prior n2 = Ok (row2, n2') /\
         forall j, (j < L)%nat -> covered reads j = true ->
                   nth j row2 0 = nth j row 0).
Proof.
  intros Hsnv Hlen Hprior Hrr.
  destruct (majority_vote_ok rr L reads prior n Hsnv Hlen Hprior Hrr)
    as (row & n' & Hv & Hl & Hcov & Hn).
  destruct (deletion_vote_ok L reads Hsnv) as (drow & Hd & Hdl & Hdcov).
  exists row, n', drow. repeat split; try assumption; try lia.
  - intros j Hj Hc. eexists. split; [apply argmax_counts_first_max|].
    split; [apply Hcov | apply Hdcov]; assumption.
  - intros rr2 n2 Hrr2.
    destruct (majority_vote_ok rr2 L reads prior n2 Hsnv Hlen Hprior Hrr2)
      as (row2 & n2' & Hv2 & _ & Hcov2 & _).
    exists row2, n2'. split; [exact Hv2|].
    intros j Hj Hc. rewrite Hcov2, Hcov by assumption. reflexivity.
Qed.

Lemma majority_vote_tie_break_witness :
  exists row n' drow,
    majority_vote (fun _ => 0%Q) 2 [[1; 0]; [2; 0]] [[1; 1; 0; 0]; [0; 0; 0; 0]] 0%nat
    = Ok (row, n') /\
    deletion_vote 2 [[1; 0]; [2; 0]] = Ok drow /\
    nth 0 row 0 = 1 /\ nth 0 drow 0 = 1 /\ n' = 1%nat.
Proof.
  destruct (majority_vote_tie_break (fun _ => 0%Q) 2 [[1; 0]; [2; 0]]
              [[1; 1; 0; 0]; [0; 0; 0; 0]] 0%nat)
    as (row & n' & drow & Hv & Hd & _).
  - split; repeat constructor; lia.
  - reflexivity.
  - repeat constructor.
  - intro n; split; [apply Qle_refl | reflexivity].
  - exists row, n', drow.
    pose proof Hv as Hv'. pose proof Hd as Hd'.
    vm_compute in Hv'. vm_compute in Hd'.
    injection Hv' as <- <-. injection Hd' as <-.
    repeat split; assumption || reflexivity.
Defined.

(** * Read selection *)

Section Selection_facts.

Lemma Qltb_lt (x y : Q) : Qltb x y = true <-> (x < y)%Q.
Proof.
  unfold Qltb. rewrite negb_true_iff. split.
  - intro H. apply Qnot_le_lt. intro Hle.
    apply Qle_bool_iff in Hle. congruence.
  - intro H. destruct (Qle_bool y x) eqn:E; [|reflexivity].
    apply Qle_bool_iff in E. exfalso. exact (Qlt_not_le _ _ H E).
Qed.

(** The distance the code computes (non-gap positions minus identical
    positions) is the Hamming distance. *)
Lemma hd_is_hamming (read hap : list Z) :
  length read = length hap -> Forall (fun x => 1 <= x <= 4) hap ->
  nongap_count read - ident_count read hap = hamming read hap.
Proof.
  unfold nongap_count, ident_count, hamming.
  revert hap. induction read as [|x read IH]; intros [|h hap] Hlen Hhap;
    try discriminate; [reflexivity|].
  inversion Hhap as [|? ? Hh Hhap']; subst.
  cbn [map combine sum_list fold_right filter fst snd].
  fold (sum_list (map (fun x0 => if x0 =? 0 then 0 else 1) read)).
  fold (sum_list (map (fun rh => if fst rh - snd rh =? 0 then 1 else 0) (combine read hap))).
  specialize (IH hap (f_equal pred Hlen) Hhap').
  destruct (x =? 0) eqn:E0, (x - h =? 0) eqn:E1, (x =? h) eqn:E2;
    cbn [negb andb length];
    rewrite ?Z.eqb_eq, ?Z.eqb_neq in *; lia.
Qed.

Lemma nongap_positions_where (read : list Z) :
  np_where (map (fun x => negb (x =? 0)) read) = nongap_positions read.
Proof.
  unfold np_where, nongap_positions. rewrite length_map.
  apply filter_ext_in. intros j Hj. apply in_seq in Hj.
  rewrite (nth_indep _ false ((fun x => negb (x =? 0)) 0)) by (rewrite length_map; lia).
  now rewrite (map_nth (fun x => negb (x =? 0))).
Qed.

Lemma fold_left_map_mul (f : nat -> float) (pos : list nat) (acc : float) :
  fold_left (fun pr p => (pr * f p)%float) pos acc
  = fold_left PrimFloat.mul (map f pos) acc.
Proof.
  revert acc. induction pos as [|p pos IH]; intro acc; cbn [fold_left map].
  - reflexivity.
  - apply IH.
Qed.

(** The product the code accumulates is the variant likelihood, bit for
    bit. *)
Lemma pr_variant_is_likelihood (ACGTcount : matrix) (read : list Z) :
  pr_variant ACGTcount read = variant_likelihood ACGTcount read.
Proof.
  unfold pr_variant, variant_likelihood. rewrite nongap_positions_where.
  apply (fold_left_map_mul (nucleotide_share ACGTcount read)).
Qed.

Lemma selects_iff (binom_pmf : Z -> Z -> float -> float) (seq_err : float)
    (ACGTcount : matrix) (V_flag read : list Z) (mis : Z) :
  length read = length V_flag -> Forall (fun x => 1 <= x <= 4) V_flag ->
  selects binom_pmf seq_err ACGTcount V_flag read mis = true <->
  hamming read V_flag = 0 \/
  (hamming read V_flag <= mis /\
   PrimFloat.ltb (variant_likelihood ACGTcount read)
                 (binom_pmf (hamming read V_flag) (nongap_count read) seq_err) = true).
Proof.
  intros Hlen HV. unfold selects.
  rewrite (hd_is_hamming read V_flag Hlen HV).
  rewrite (pr_variant_is_likelihood ACGTcount read).
  destruct (Z.eqb_spec (hamming read V_flag) 0) as [E | E].
  - split; [intros _; now left | reflexivity].
  - destruct (Z.leb_spec (hamming read V_flag) mis) as [Hle | Hgt].
    + split; [intro H; right; split; assumption|].
      intros [H | [_ H]]; [contradiction | exact H].
    + split; [discriminate|]. intros [H | [H _]]; [contradiction | lia].
Qed.

(** Every factor of the product is well defined when the statistics are
    those of the active reads: the nucleotide of a non-gap position is one
    of the four columns, and the position is covered by the read itself. *)
Lemma factor_defined (L : nat) (M_E : matrix) (i j : nat) :
  snv_matrix L M_E -> (i < length M_E)%nat ->
  In j (nongap_positions (nth i M_E [])) ->
  1 <= nth j (nth i M_E []) 0 <= 4 /\
  0 < sum_list (nth j (count_table L M_E) []).
Proof.
  intros [Hcols Hent] Hi Hj.
  unfold nongap_positions in Hj. apply filter_In in Hj. destruct Hj as [Hj Hnz].
  apply in_seq in Hj. apply negb_true_iff, Z.eqb_neq in Hnz.
  assert (Hin : In (nth i M_E []) M_E) by (apply nth_In; exact Hi).
  assert (HjL : (j < L)%nat).
  { unfold has_cols in Hcols. rewrite Forall_forall in Hcols.
    rewrite <- (Hcols _ Hin). lia. }
  split.
  - rewrite Forall_forall in Hent. specialize (Hent _ Hin).
    rewrite Forall_forall in Hent.
    assert (0 <= nth j (nth i M_E []) 0 <= 4) by (apply Hent, nth_In; lia).
    lia.
  - pose proof (uncovered_row L M_E j Hent HjL) as Hu.
    assert (Hc : covered M_E j = true).
    { unfold covered. apply existsb_exists. exists (nth i M_E []).
      split; [exact Hin|]. apply negb_true_iff, Z.eqb_neq. exact Hnz. }
    rewrite Hc in Hu. cbn [negb] in Hu. apply Z.eqb_neq in Hu.
    rewrite nth_count_table in * by exact HjL.
    cbn [sum_list fold_right] in *.
    pose proof (nuc_count_nonneg M_E j 0). pose proof (nuc_count_nonneg M_E j 1).
    pose proof (nuc_count_nonneg M_E j 2). pose proof (nuc_count_nonneg M_E j 3).
    lia.
Qed.

End Selection_facts.

(** C2.  Let [ACGTcount] be the statistics of the active read matrix.
    Read [i] is selected exactly when its Hamming distance to the dominant
    haplotype is 0, or is at most [mis_cri[i]] while [pr_seq], the value
    of [binom.pmf] for that many sequencing errors, is greater than
    [pr_variant], the variant likelihood of the read; both are the
    binary64 values the program holds and the comparison is the one of
    line 348.  A read whose distance exceeds its criterion is not
    selected.  Every factor of the variant likelihood has a nucleotide in
    1..4 and a positive denominator. *)
Theorem select_reads_iff (binom_pmf : Z -> Z -> float -> float) (seq_err : float)
    (ACGTcount M_E : matrix) (V_flag mis_cri : list Z) (L : nat) :
  snv_matrix L M_E -> ACGT_rows L M_E = Ok ACGTcount ->
  length V_flag = L -> Forall (fun x => 1 <= x <= 4) V_flag ->
  Forall (fun m => 1 <= m) mis_cri ->
  forall i,
    let read := nth i M_E [] in
    let hd := hamming read V_flag in
    let pr_seq := binom_pmf hd (nongap_count read) seq_err in
    (In i (select_reads binom_pmf seq_err ACGTcount M_E V_flag mis_cri) <->
     (i < length M_E)%nat /\
     (hd = 0 \/
      (hd <= nth i mis_cri 0 /\
       PrimFloat.ltb (variant_likelihood ACGTcount read) pr_seq = true)))
    /\
    ((i < length mis_cri)%nat -> hd > nth i mis_cri 0 ->
     ~ In i (select_reads binom_pmf seq_err ACGTcount M_E V_flag mis_cri))
    /\
    ((i < length M_E)%nat ->
     forall j, In j (nongap_positions read) ->
       1 <= nth j read 0 <= 4 /\ 0 < sum_list (nth j ACGTcount [])).
Proof.
  intros Hsnv Hcount HL HV Hmis i read hd pr_seq.
  pose proof Hsnv as [Hcols _].
  assert (Hiff : In i (select_reads binom_pmf seq_err ACGTcount M_E V_flag mis_cri) <->
     (i < length M_E)%nat /\
     (hd = 0 \/
      (hd <= nth i mis_cri 0 /\
       PrimFloat.ltb (variant_likelihood ACGTcount read) pr_seq = true))).
  { unfold select_reads. rewrite filter_In, in_seq.
    split.
    - intros [Hi Hsel]. split; [lia|].
      apply selects_iff in Hsel; [exact Hsel | | exact HV].
      unfold has_cols in Hcols. rewrite Forall_forall in Hcols.
      rewrite HL. apply Hcols. apply nth_In. lia.
    - intros [Hi Hsel]. split; [lia|].
      apply selects_iff; [ | exact HV | exact Hsel].
      unfold has_cols in Hcols. rewrite Forall_forall in Hcols.
      rewrite HL. apply Hcols. apply nth_In. lia. }
  split; [exact Hiff|]. split.
  - intros Hi Hgt Hin. apply Hiff in Hin. destruct Hin as [_ [H0 | [Hle _]]].
    + rewrite Forall_forall in Hmis.
      assert (1 <= nth i mis_cri 0) by (apply Hmis, nth_In; exact Hi). lia.
    + lia.
  - intros Hi j Hj.
    rewrite (ACGT_rows_ok L M_E Hcols) in Hcount.
    injection Hcount as <-.
    exact (factor_defined L M_E i j Hsnv Hi Hj).
Qed.

(** Five hundred reads over two positions: 498 reads (A, A), read 498 is
    (C, A) and read 499 is (C, C); the dominant haplotype is (A, A), every
    criterion is 1 and the error rate is 0.002.  Read 0 is at distance 0
    and is selected.  Read 498 is at distance 1: its variant likelihood
    is (2 / 500) * (499 / 500), in binary64 0.0039919999999999999, which
    is also the binary64 value of 2 * 0.002 * (1 - 0.002); but
    [binom.pmf(1, 2, 0.002)] is 0.003992000000000002 in scipy, the float
    given here, and it is the greater, so the read is selected through
    the comparison of line 348.  Read 499 is at distance 2 and is not
    selected. *)
Lemma select_reads_iff_witness :
  let pmf := fun (_ _ : Z) (_ : float) => 0x1.059ea57214f07p-8%float in
  let reads := repeat [1; 1] 498 ++ [[2; 1]; [2; 2]] in
  let ACGTcount := [[498; 2; 0; 0]; [499; 1; 0; 0]] in
  let index := select_reads pmf default_seq_err ACGTcount reads [1; 1]
                            (repeat 1 500) in
  In 0%nat index /\ In 498%nat index /\ ~ In 499%nat index /\
  PrimFloat.ltb (variant_likelihood ACGTcount [2; 1]) (pmf 1 2 default_seq_err)
  = true /\
  PrimFloat.eqb (variant_likelihood ACGTcount [2; 1])
                (float_of_Z 2 * default_seq_err * (1 - default_seq_err))%float
  = true.
Proof.
  intros pmf reads ACGTcount index.
  assert (Hsnv : snv_matrix 2 reads).
  { split; apply Forall_app; split;
      try (apply Forall_forall; intros r Hr; apply repeat_spec in Hr; subst r);
      repeat constructor; lia. }
  assert (Hmis : Forall (fun m => 1 <= m) (repeat 1 500)).
  { apply Forall_forall. intros m Hm. apply repeat_spec in Hm. lia. }
  pose proof (select_reads_iff pmf default_seq_err ACGTcount reads [1; 1]
                (repeat 1 500) 2 Hsnv ltac:(vm_compute; reflexivity) eq_refl
                ltac:(repeat constructor; lia) Hmis) as H.
  assert (Hlen : length reads = 500%nat) by reflexivity.
  split; [|split; [|split; [|split]]].
  - destruct (H 0%nat) as [H0 _]. apply H0.
    split; [rewrite Hlen; lia | left; reflexivity].
  - destruct (H 498%nat) as [H0 _]. apply H0.
    split; [rewrite Hlen; lia|]. right.
    split; [vm_compute; discriminate | vm_compute; reflexivity].
  - destruct (H 499%nat) as (_ & H1 & _).
    apply H1; [rewrite repeat_length; lia | vm_compute; reflexivity].
  - vm_compute. reflexivity.
  - vm_compute. reflexivity.
Defined.

(** * MEC evaluation *)

Section MEC_facts.

Lemma combine_nth_seq {A B} (da : A) (db : B) (xs : list A) (ys : list B) (L : nat) :
  length xs = L -> length ys = L ->
  combine xs ys = map (fun j => (nth j xs da, nth j ys db)) (seq 0 L).
Proof.
  revert ys L. induction xs as [|x xs IH]; intros [|y ys] [|L] Hx Hy;
    try discriminate; [reflexivity|].
  cbn [combine seq map nth]. f_equal.
  rewrite <- seq_shift, map_map. apply IH; simpl in *; lia.
Qed.

Lemma sum_indicator (A : Type) (b : A -> bool) (l : list A) :
  sum_list (map (fun x => if b x then 1 else 0) l) = Z.of_nat (length (filter b l)).
Proof.
  induction l as [|x l IH]; [reflexivity|].
  cbn [map sum_list fold_right filter].
  fold (sum_list (map (fun x0 => if b x0 then 1 else 0) l)). rewrite IH.
  destruct (b x); cbn [length]; lia.
Qed.

(** The count of identical positions the code takes is [agree]. *)
Lemma ident_count_agree (L : nat) (read hap : list Z) :
  length read = L -> length hap = L -> ident_count read hap = agree L read hap.
Proof.
  intros Hr Hh. unfold ident_count, agree.
  rewrite (combine_nth_seq 0 0 read hap L Hr Hh), map_map. cbn [fst snd].
  rewrite <- (sum_indicator nat (fun j => nth j read 0 =? nth j hap 0)).
  f_equal. apply map_ext. intro j.
  destruct (Z.eqb_spec (nth j read 0 - nth j hap 0) 0) as [E | E];
    destruct (Z.eqb_spec (nth j read 0) (nth j hap 0)) as [E' | E']; lia || reflexivity.
Qed.

Lemma nth_has_cols {A} (L : nat) (M : list (list A)) (i : nat) :
  has_cols L M -> (i < length M)%nat -> length (nth i M []) = L.
Proof.
  intros H Hi. unfold has_cols in H. rewrite Forall_forall in H.
  apply H, nth_In, Hi.
Qed.

(** Every read is assigned to the closest haplotype, the first one on a
    tie. *)
Lemma reassign_closest (L : nat) (S haps : matrix) :
  has_cols L S -> has_cols L haps -> haps <> [] ->
  exists a,
    reassign S haps = Ok a /\ length a = length S /\
    (forall i, (i < length S)%nat -> closest L haps (nth i S []) (nth i a 0%nat)).
Proof.
  intros HS HH Hne. unfold reassign, argmax_axis1.
  destruct (Nat.eqb_spec (length haps) 0) as [E | E].
  { destruct haps; [congruence | discriminate]. }
  eexists. split; [reflexivity|]. split.
  { unfold iden_table. now rewrite !length_map. }
  intros i Hi. unfold iden_table. rewrite map_map.
  set (f := fun read => argmax_list (map (fun hap => ident_count read hap) haps)).
  rewrite (nth_indep _ 0%nat (f [])) by (rewrite length_map; exact Hi).
  rewrite (map_nth f). unfold f.
  set (read := nth i S []).
  assert (Hread : length read = L) by (apply nth_has_cols; assumption).
  set (l := map (fun hap => ident_count read hap) haps).
  assert (Hl : length l = length haps) by (unfold l; now rewrite length_map).
  assert (Hnth : forall h, (h < length haps)%nat ->
            nth h l 0 = agree L read (nth h haps [])).
  { intros h Hh. unfold l.
    rewrite (nth_indep _ 0 ((fun hap => ident_count read hap) []))
      by (rewrite length_map; exact Hh).
    rewrite (map_nth (fun hap => ident_count read hap)).
    apply ident_count_agree; [exact Hread | apply nth_has_cols; assumption]. }
  destruct (argmax_list_first_max l) as (Hlt & Hmax & Hfirst).
  { intro El. rewrite El in Hl. simpl in Hl. lia. }
  rewrite Hl in Hlt, Hmax.
  unfold closest. split; [exact Hlt|]. split.
  - intros h Hh. rewrite <- !Hnth by assumption. apply Hmax; exact Hh.
  - intros h Hh. rewrite <- !Hnth by lia. apply Hfirst; exact Hh.
Qed.

Lemma length_filter_list_prod {A B} (p : A * B -> bool) (l1 : list A) (l2 : list B) :
  Z.of_nat (length (filter p (list_prod l1 l2)))
  = sum_list (map (fun i => Z.of_nat (length (filter (fun j => p (i, j)) l2))) l1).
Proof.
  induction l1 as [|i l1 IH]; [reflexivity|].
  cbn [list_prod map sum_list fold_right].
  fold (sum_list (map (fun i0 => Z.of_nat (length (filter (fun j => p (i0, j)) l2))) l1)).
  rewrite filter_app, length_app, Nat2Z.inj_add, IH. f_equal. f_equal.
  symmetry. apply (length_filter_map (fun j => (i, j)) p l2).
Qed.

(** The count the code takes is the number of mismatching cells. *)
Lemma MEC_count_mismatches (L : nat) (S haps : matrix) (a : list nat) :
  has_cols L S -> has_cols L haps -> length a = length S ->
  (forall i, (i < length S)%nat -> (nth i a 0 < length haps)%nat) ->
  MEC_count S (take_rows haps a) = mismatches L S haps a.
Proof.
  intros HS HH Ha Hin. unfold MEC_count, mismatches, take_rows.
  rewrite (combine_nth_seq [] [] S (map (fun i => nth i haps []) a) (length S) eq_refl)
    by (now rewrite length_map).
  rewrite map_map. cbn [fst snd].
  rewrite (length_filter_list_prod
             (fun ij =>
                let s := nth (snd ij) (nth (fst ij) S []) 0 in
                let m := nth (snd ij) (nth (nth (fst ij) a 0%nat) haps []) 0 in
                negb (s =? 0) && negb (s =? m))).
  f_equal. apply map_ext_in. intros i Hi. apply in_seq in Hi.
  cbn [fst snd].
  assert (Hrow : nth i (map (fun i0 => nth i0 haps []) a) [] = nth (nth i a 0%nat) haps []).
  { rewrite (nth_indep _ [] ((fun i0 => nth i0 haps []) 0%nat))
      by (rewrite length_map; lia).
    apply (map_nth (fun i0 => nth i0 haps [])). }
  rewrite Hrow.
  rewrite (combine_nth_seq 0 0 (nth i S []) (nth (nth i a 0%nat) haps []) L).
  - rewrite map_map. cbn [fst snd].
    rewrite <- (sum_indicator nat).
    f_equal. apply map_ext. intro j.
    set (s := nth j (nth i S []) 0). set (m := nth j (nth (nth i a 0%nat) haps []) 0).
    destruct (Z.eqb_spec s 0) as [E0 | E0]; destruct (Z.eqb_spec s m) as [E1 | E1];
      cbn [negb andb];
      destruct (Z.eqb_spec ((s - m) * (if false then 0 else 1)) 0) as [E2 | E2];
      try destruct (Z.eqb_spec ((s - m) * 0) 0) as [E3 | E3];
      try reflexivity; try lia.
  - apply nth_has_cols; [exact HS | lia].
  - apply nth_has_cols; [exact HH | apply Hin; lia].
Qed.

(** The MEC of a set of haplotypes. *)
Lemma MEC_of_ok (L : nat) (S reconV2 : matrix) :
  has_cols L S -> has_cols L reconV2 -> reconV2 <> [] ->
  exists a,
    reassign S reconV2 = Ok a /\ length a = length S /\
    (forall i, (i < length S)%nat -> closest L reconV2 (nth i S []) (nth i a 0%nat)) /\
    MEC_of S reconV2 = Ok (mismatches L S reconV2 a).
Proof.
  intros HS HH Hne.
  destruct (reassign_closest L S reconV2 HS HH Hne) as (a & Hre & Hlen & Hcl).
  exists a. repeat split; try assumption; try apply Hcl; try assumption.
  unfold MEC_of. rewrite Hre. cbn [bind]. apply (f_equal Ok).
  apply MEC_count_mismatches; try assumption.
  intros i Hi. apply (Hcl i Hi).
Qed.

End MEC_facts.

(** * What a sign branch records *)

Section Branch_facts.

Lemma select_rows_has_cols {A} (L : nat) (mask : list bool) (M : list (list A)) :
  has_cols L M -> has_cols L (select_rows mask M).
Proof.
  intro H. unfold has_cols, select_rows in *. rewrite Forall_forall in *.
  intros r Hr. apply in_map_iff in Hr. destruct Hr as ([b r'] & <- & Hin).
  apply filter_In in Hin. destruct Hin as [Hin _].
  apply in_combine_r in Hin. now apply H.
Qed.

Lemma fill_uncovered_length (rr : nat -> Q) (prior : matrix) (js : list nat)
    (row row' : list Z) (n n' : nat) :
  foldM (fun row j => v <- fallback rr (nth j prior []) ;; ret (list_set row j v))
        js row n = Ok (row', n') ->
  length row' = length row.
Proof.
  revert row n. induction js as [|j js IH]; intros row n H.
  - cbn [foldM] in H. unfold ret in H. now injection H as <- _.
  - cbn [foldM] in H. unfold bindRS at 1 in H. unfold bindRS at 1 in H.
    destruct (fallback rr (nth j prior []) n) as [[v n1] | e]; [|discriminate].
    unfold ret at 1 in H. apply IH in H. rewrite H. apply length_list_set.
Qed.

Lemma majority_vote_length (rr : nat -> Q) (L : nat) (reads prior : matrix)
    (row : list Z) (n n' : nat) :
  has_cols L reads ->
  majority_vote rr L reads prior n = Ok (row, n') -> length row = L.
Proof.
  intros Hc H. unfold majority_vote in H. unfold bindRS at 1 in H.
  rewrite (single_stats_ok L reads Hc) in H. cbn [lift] in H.
  apply fill_uncovered_length in H. rewrite H.
  now rewrite length_map, length_count_table.
Qed.

Lemma mapM_Forall {A B} (P : B -> Prop) (f : A -> RS B) (l : list A) :
  (forall a n b n', f a n = Ok (b, n') -> P b) ->
  forall n bs n', mapM f l n = Ok (bs, n') -> Forall P bs /\ length bs = length l.
Proof.
  intro Hf. induction l as [|a l IH]; intros n bs n' H.
  - cbn [mapM] in H. unfold ret in H. injection H as <- _. split; constructor.
  - cbn [mapM] in H. unfold bindRS at 1 in H.
    destruct (f a n) as [[b n1] | e] eqn:Ef; [|discriminate].
    unfold bindRS at 1 in H.
    destruct (mapM f l n1) as [[bs' n2] | e] eqn:El; [|discriminate].
    unfold ret in H. injection H as <- _.
    destruct (IH _ _ _ El) as [HF HL]. split.
    + constructor; [eapply Hf; exact Ef | exact HF].
    + simpl. now rewrite HL.
Qed.

Lemma vote_all_has_cols (rr : nat -> Q) (L : nat) (M : matrix) (index : list nat)
    (prior : matrix) (R : nat) (V : matrix) (n n' : nat) :
  has_cols L M ->
  vote_all rr L M index prior R n = Ok (V, n') ->
  has_cols L V /\ length V = R.
Proof.
  intros HM H. unfold vote_all in H.
  apply (mapM_Forall (fun row => length row = L)) in H.
  - destruct H as [HF HL]. rewrite length_seq in HL. split; assumption.
  - intros i m row m' Hv. eapply majority_vote_length; [|exact Hv].
    apply select_rows_has_cols; exact HM.
Qed.

(** A branch that succeeds records the MEC of its own [reconV2], which has
    [hap_len] columns and at least one row. *)
Lemma run_sign_records (rr : nat -> Q) (svds : qmatrix -> nat -> result qmatrix)
    (binom_pmf : Z -> Z -> float -> float) (seq_err : float)
    (S : matrix) (L : nat) (mis : list Z) (ori : matrix)
    (K_ite : Z) (svd_flag n n' : nat) (mec hap_num : Z) (reconV2 : matrix) :
  has_cols L S ->
  run_sign rr svds binom_pmf seq_err S L mis ori K_ite svd_flag n
  = Ok (Some (mec, hap_num, reconV2), n') ->
  MEC_of S reconV2 = Ok mec /\ has_cols L reconV2 /\ reconV2 <> [] /\
  hap_num = Z.of_nat (length reconV2).
Proof.
  intros HS H. unfold run_sign in H.
  destruct (K_ite <? 0); [discriminate|].
  unfold bindRS at 1 in H.
  destruct (successive_clustering _ _ _ _ _ _ _ _) as [[[st ok] n1] | e];
    [|discriminate].
  cbn [snd fst] in H. destruct ok; [|discriminate].
  unfold bindRS at 1 in H.
  destruct (second_vote rr S L ori (reconV st) (num_V st) n1) as [[V n2] | e] eqn:Esv;
    [|discriminate].
  unfold bindRS at 1 in H.
  destruct (MEC_of S V) as [m | e] eqn:Em; [|discriminate].
  cbn [lift] in H. unfold ret in H. injection H as <- <- <- <-.
  assert (HV : has_cols L V).
  { unfold second_vote in Esv. unfold bindRS at 1 in Esv.
    destruct (lift (reassign S (firstn (num_V st - 1) (reconV st))) n1)
      as [[index n3] | e]; [|discriminate].
    apply vote_all_has_cols in Esv; [tauto | exact HS]. }
  repeat split; try assumption.
  intro E. subst V. unfold MEC_of, reassign, argmax_axis1 in Em. discriminate.
Qed.

End Branch_facts.

(** C3.  The MEC that a successful (K, sign) run records is the number of
    cells where a read has a nucleotide different from the haplotype of
    [reconV2] it is finally assigned to, and that haplotype is the first one
    that agrees with the read at the largest number of positions. *)
Theorem MEC_recorded (rr : nat -> Q) (svds : qmatrix -> nat -> result qmatrix)
    (binom_pmf : Z -> Z -> float -> float) (seq_err : float)
    (S : matrix) (L : nat) (mis : list Z) (ori : matrix)
    (K_ite : Z) (svd_flag n n' : nat) (mec hap_num : Z) (reconV2 : matrix) :
  has_cols L S ->
  run_sign rr svds binom_pmf seq_err S L mis ori K_ite svd_flag n
  = Ok (Some (mec, hap_num, reconV2), n') ->
  exists a,
    reassign S reconV2 = Ok a /\ length a = length S /\
    (forall i, (i < length S)%nat -> closest L reconV2 (nth i S []) (nth i a 0%nat)) /\
    mec = mismatches L S reconV2 a.
Proof.
  intros HS H.
  destruct (run_sign_records _ _ _ _ _ _ _ _ _ _ _ _ _ _ _ HS H) as (Hm & HV & Hne & _).
  destruct (MEC_of_ok L S reconV2 HS HV Hne) as (a & Hre & Hlen & Hcl & Hmec).
  exists a. repeat split; try assumption; try apply Hcl; try assumption.
  rewrite Hm in Hmec. now injection Hmec.
Qed.

Lemma MEC_recorded_witness :
  exists a,
    reassign [[1]; [1]; [2]] [[1]] = Ok a /\ 1 = mismatches 1 [[1]; [1]; [2]] [[1]] a.
Proof.
  destruct (MEC_recorded (fun _ => 0%Q)
              (fun _ R => Ok (repeat [6 # 5; 0; 0; 0]%Q R))
              binom_pmf_float default_seq_err [[1]; [1]; [2]] 1 [1; 1; 1] [[2; 1; 0; 0]]
              1 1 0 0 1 1 [[1]])
    as (a & Ha & _ & _ & Hm).
  - repeat constructor.
  - vm_compute. reflexivity.
  - exists a. split; assumption.
Defined.

(** * The alternating-minimization loop *)

Section AM_exit.

(** A false loop condition, spelled out. *)
Lemma am_continue_false (s : am_state) :
  am_continue s = false -> (ite s <= max_ite)%nat ->
  fval_leb (err s) error_thre = true \/
  fval_leb (err_Com s) error_thre = true \/
  fval_leb (err_hap s) error_thre = true \/
  ite s = max_ite.
Proof.
  unfold am_continue, fval_leb. intros H Hle.
  destruct (fval_gtb (err_hap s) error_thre); [|auto].
  destruct (fval_gtb (err s) error_thre); [|auto].
  destruct (fval_gtb (err_Com s) error_thre); [|auto].
  cbn [andb] in H. apply Nat.ltb_ge in H. right; right; right. lia.
Qed.

End AM_exit.

Section AM_facts.

Variable rr : nat -> Q.
Variable L : nat.
Variables M_E ACGTcount : matrix.
Variables TM_E P_tensor : qmatrix.
Variable R : nat.

Hypothesis Hrr : unit_interval rr.
Hypothesis HM : snv_matrix L M_E.
Hypothesis Hprior_len : length ACGTcount = L.
Hypothesis Hprior_cols : has_cols 4 ACGTcount.

Lemma select_rows_snv (mask : list bool) : snv_matrix L (select_rows mask M_E).
Proof.
  destruct HM as [Hc He]. split; [apply select_rows_has_cols; exact Hc|].
  unfold select_rows. rewrite Forall_forall in *.
  intros r Hr. apply in_map_iff in Hr. destruct Hr as ([b r'] & <- & Hin).
  apply filter_In in Hin. destruct Hin as [Hin _].
  apply in_combine_r in Hin. now apply He.
Qed.

Lemma mapM_ok {A B} (f : A -> RS B) (l : list A) :
  (forall a n, exists b n', f a n = Ok (b, n')) ->
  forall n, exists bs n', mapM f l n = Ok (bs, n').
Proof.
  intro Hf. induction l as [|a l IH]; intro n.
  - eexists _, _. reflexivity.
  - cbn [mapM]. unfold bindRS at 1. destruct (Hf a n) as (b & n1 & ->).
    unfold bindRS at 1. destruct (IH n1) as (bs & n2 & ->).
    eexists _, _. reflexivity.
Qed.

(** The vote of a pass never raises. *)
Lemma vote_all_ok (index : list nat) (n : nat) :
  exists V n', vote_all rr L M_E index ACGTcount R n = Ok (V, n').
Proof.
  unfold vote_all. apply mapM_ok. intros i m.
  destruct (majority_vote_ok rr L (select_rows (eq_mask index i) M_E) ACGTcount m
              (select_rows_snv _) Hprior_len Hprior_cols Hrr) as (row & m' & H & _).
  eauto.
Qed.

(** A pass of the loop body ends and counts one iteration. *)
Lemma am_step_ok (s : am_state) (n : nat) :
  exists s' n',
    am_step rr L M_E TM_E P_tensor ACGTcount R s n = Ok (s', n') /\
    ite s' = S (ite s).
Proof.
  unfold am_step. unfold bindRS.
  destruct (vote_all_ok (update_U TM_E P_tensor (Vt s) R) n) as (V & n' & ->).
  unfold ret. eexists _, _. split; reflexivity.
Qed.

(** With enough fuel the loop ends, and it ends in a state where its
    condition is false. *)
Lemma am_loop_ends (fuel : nat) :
  forall s n,
    (max_ite <= ite s + fuel)%nat ->
    exists s' n',
      am_loop rr L fuel M_E TM_E P_tensor ACGTcount R s n = Ok (s', n') /\
      am_continue s' = false /\
      ((ite s <= max_ite)%nat -> (ite s' <= max_ite)%nat).
Proof.
  induction fuel as [|fuel IH]; intros s n Hfuel.
  - exists s, n. cbn [am_loop]. split; [reflexivity|]. split; [|auto].
    unfold am_continue. replace (Nat.ltb (ite s) max_ite) with false.
    + apply andb_false_r.
    + symmetry. apply Nat.ltb_ge. lia.
  - cbn [am_loop]. destruct (am_continue s) eqn:Ec.
    + unfold bindRS. destruct (am_step_ok s n) as (s1 & n1 & Hs & Hite).
      rewrite Hs. destruct (IH s1 n1) as (s' & n' & Hl & Hc & Hb); [lia|].
      exists s', n'. split; [exact Hl|]. split; [exact Hc|].
      intros _. apply Hb. rewrite Hite.
      unfold am_continue in Ec. apply andb_prop in Ec. destruct Ec as [_ Ec].
      apply Nat.ltb_lt in Ec. lia.
    + exists s, n. unfold ret. split; [reflexivity|]. split; [exact Ec | auto].
Qed.

(** The faithful trace of the loop: it makes [k] passes of the body and
    no more; before each of them all three quantities exceed the
    threshold and fewer than [max_ite] passes were made, and after the
    last one the condition is false. *)
Lemma am_loop_trace (fuel : nat) :
  forall s n,
    (max_ite <= ite s + fuel)%nat -> (ite s <= max_ite)%nat ->
    exists k s' n',
      am_loop rr L fuel M_E TM_E P_tensor ACGTcount R s n = Ok (s', n') /\
      am_passes rr L k M_E TM_E P_tensor ACGTcount R s n = Ok (s', n') /\
      ite s' = (ite s + k)%nat /\ (ite s' <= max_ite)%nat /\
      am_continue s' = false /\
      forall j, (j < k)%nat ->
        exists sj nj,
          am_passes rr L j M_E TM_E P_tensor ACGTcount R s n = Ok (sj, nj) /\
          ite sj = (ite s + j)%nat /\
          fval_gtb (err sj) error_thre = true /\
          fval_gtb (err_Com sj) error_thre = true /\
          fval_gtb (err_hap sj) error_thre = true /\
          (ite sj < max_ite)%nat.
Proof.
  induction fuel as [|fuel IH]; intros s n Hfuel Hle.
  - exists 0%nat, s, n. cbn [am_loop am_passes]. unfold ret.
    split; [reflexivity|]. split; [reflexivity|]. split; [lia|]. split; [exact Hle|].
    split; [|intros j Hj; lia].
    unfold am_continue. replace (Nat.ltb (ite s) max_ite) with false.
    + apply andb_false_r.
    + symmetry. apply Nat.ltb_ge. lia.
  - cbn [am_loop]. destruct (am_continue s) eqn:Ec.
    + assert (Hc := Ec). unfold am_continue in Hc.
      apply andb_prop in Hc. destruct Hc as [Hc Hite].
      apply andb_prop in Hc. destruct Hc as [Hc HCom].
      apply andb_prop in Hc. destruct Hc as [Hhap Herr].
      apply Nat.ltb_lt in Hite.
      destruct (am_step_ok s n) as (s1 & n1 & Hs & Hite1).
      destruct (IH s1 n1) as (k & s' & n' & Hl & Hp & Hk & Hb & Hcont & Hbefore);
        [lia | lia |].
      exists (S k), s', n'.
      split; [unfold bindRS; rewrite Hs; exact Hl|].
      split; [cbn [am_passes]; unfold bindRS; rewrite Hs; exact Hp|].
      split; [lia|]. split; [exact Hb|]. split; [exact Hcont|].
      intros [|j] Hj.
      * exists s, n. cbn [am_passes]. unfold ret.
        split; [reflexivity|]. split; [lia|]. repeat split; assumption.
      * destruct (Hbefore j) as (sj & nj & Hpj & Hij & Hrest); [lia|].
        exists sj, nj.
        split; [cbn [am_passes]; unfold bindRS; rewrite Hs; exact Hpj|].
        split; [lia | exact Hrest].
    + exists 0%nat, s, n. cbn [am_passes]. unfold ret.
      split; [reflexivity|]. split; [reflexivity|]. split; [lia|]. split; [exact Hle|].
      split; [exact Ec | intros j Hj; lia].
Qed.

End AM_facts.

(** C1, as the code has it.  The loop ends after some number [k] of
    passes of its body, at most [max_ite] = 2000.  It stops as soon as it
    may: before each of the [k] passes all three of [err], [err_Com] and
    [err_hap] were greater than [error_thre] and fewer than 2000 passes
    had been made, and after the last pass at least one of the three is
    at most [error_thre], or exactly 2000 passes were made. *)
Theorem am_loop_exit (rr : nat -> Q) (L : nat) (M_E ACGTcount : matrix)
    (TM_E P_tensor : qmatrix) (R : nat) (s0 : am_state) (n : nat) :
  unit_interval rr -> snv_matrix L M_E ->
  length ACGTcount = L -> has_cols 4 ACGTcount -> ite s0 = 0%nat ->
  exists k s n',
    am_loop rr L max_ite M_E TM_E P_tensor ACGTcount R s0 n = Ok (s, n') /\
    am_passes rr L k M_E TM_E P_tensor ACGTcount R s0 n = Ok (s, n') /\
    ite s = k /\ (k <= max_ite)%nat /\
    (forall j, (j < k)%nat ->
       exists sj nj,
         am_passes rr L j M_E TM_E P_tensor ACGTcount R s0 n = Ok (sj, nj) /\
         ite sj = j /\
         fval_gtb (err sj) error_thre = true /\
         fval_gtb (err_Com sj) error_thre = true /\
         fval_gtb (err_hap sj) error_thre = true /\
         (j < max_ite)%nat) /\
    (fval_leb (err s) error_thre = true \/
     fval_leb (err_Com s) error_thre = true \/
     fval_leb (err_hap s) error_thre = true \/
     k = max_ite).
Proof.
  intros Hrr HM Hl Hc H0.
  destruct (am_loop_trace rr L M_E ACGTcount TM_E P_tensor R Hrr HM Hl Hc max_ite s0 n)
    as (k & s & n' & Hloop & Hpass & Hk & Hb & Hcont & Hbefore); [lia | lia |].
  rewrite H0 in Hk. cbn [Nat.add] in Hk.
  exists k, s, n'. split; [exact Hloop|]. split; [exact Hpass|].
  split; [exact Hk|]. split; [lia|]. split.
  - intros j Hj. destruct (Hbefore j Hj) as (sj & nj & Hpj & Hij & He & HC & Hh & Hlt).
    rewrite H0 in Hij. cbn [Nat.add] in Hij.
    exists sj, nj. repeat split; try assumption. lia.
  - destruct (am_continue_false s Hcont Hb) as [H | [H | [H | H]]]; auto.
    right; right; right. lia.
Qed.

(** Two reads (A) and one haplotype: the first pass leaves [err] = 0, so
    the loop makes one pass and stops. *)
Lemma am_loop_exit_witness :
  exists s n',
    am_loop (fun _ => 0%Q) 1 max_ite [[1]; [1]] (tensor [[1]; [1]])
            (P_tensor_of [[1]; [1]]) [[2; 0; 0; 0]] 1
            (mk_am 0 FInf FInf FInf [] [[6 # 5; 0; 0; 0]%Q]
                   [[100 # 1; 100 # 1; 100 # 1; 100 # 1]%Q] [] []) 0%nat
    = Ok (s, n') /\
    ite s = 1%nat /\ fval_leb (err s) error_thre = true.
Proof.
  destruct (am_loop_exit (fun _ => 0%Q) 1 [[1]; [1]] [[2; 0; 0; 0]]
              (tensor [[1]; [1]]) (P_tensor_of [[1]; [1]]) 1
              (mk_am 0 FInf FInf FInf [] [[6 # 5; 0; 0; 0]%Q]
                     [[100 # 1; 100 # 1; 100 # 1; 100 # 1]%Q] [] []) 0%nat)
    as (k & s & n' & Hloop & _).
  - intro n; split; [apply Qle_refl | reflexivity].
  - split; repeat constructor; lia.
  - reflexivity.
  - repeat constructor.
  - reflexivity.
  - exists s, n'. split; [exact Hloop|].
    vm_compute in Hloop. injection Hloop as <- _.
    split; vm_compute; reflexivity.
Defined.

(** C1, as the specification words it, fails.  Thirty-two reads that all
    carry A at both positions, one haplotype (K = 1): the singular value of
    the tensor is 8 and the initial haplotype is (2, 2, 0, ..., 0).  After
    the first pass [err] is 0, so the loop stops, although [err_Com] is
    still infinite and [err_hap] is large, and only one pass was made. *)
Lemma am_loop_stops_on_first_criterion :
  exists s c n',
    alternating_minimization (fun _ => 0%Q)
      (fun _ _ => Ok [[2 # 1; 2 # 1; 0; 0; 0; 0; 0; 0]%Q]) 2
      (repeat [1; 1] 32) 1 1 0%nat
    = Ok (s, c, n') /\
    ite s = 1%nat /\
    fval_leb (err s) error_thre = true /\
    fval_leb (err_Com s) error_thre = false /\
    fval_leb (err_hap s) error_thre = false /\
    ~ (all_three_converged s = true \/ ite s = max_ite).
Proof.
  eexists _, _, _. split; [vm_compute; reflexivity|].
  repeat split; try (vm_compute; reflexivity).
  intros [H | H]; vm_compute in H; discriminate.
Qed.

(** * The empty-selection guard *)

Section Guard_facts.

Variable rr : nat -> Q.
Variable svds : qmatrix -> nat -> result qmatrix.
Variable binom_pmf : Z -> Z -> float -> float.
Variable seq_err : float.
Variable MEC_thre : Q.
Variable K_step : Z.
Variable S : matrix.
Variable L : nat.
Variable ori_mis_cri : list Z.
Variable ori_ACGTcount : matrix.


(** An iteration that selects no read returns at once: the state is the
    one it started from and the flag says that the loop was left. *)
Lemma guard_iteration (R' svd_flag : nat) (st : sc_state) (n n1 len : nat)
    (am : am_state) (ACGTcount : matrix) :
  len_col0 L (M_E st) = Ok len -> (Datatypes.S R' < len)%nat ->
  alternating_minimization rr svds L (M_E st) (Datatypes.S R') svd_flag n
  = Ok (am, ACGTcount, n1) ->
  select_reads binom_pmf seq_err ACGTcount (M_E st)
    (nth (argmax_list (col_sums (Datatypes.S R') (U am)))
         (decode (Vt am) (Datatypes.S R') L) [])
    (mis_cri st) = [] ->
  successive_clustering rr svds binom_pmf seq_err L (Datatypes.S R') svd_flag st n
  = Ok (st, false, n1).
Proof.
  intros Hlen Hlt Ham Hsel. cbn [successive_clustering].
  unfold bindRS at 1. rewrite Hlen. cbn [lift].
  replace (Nat.ltb (Datatypes.S R') len) with true by (symmetry; apply Nat.ltb_lt; exact Hlt).
  cbn [negb]. unfold bindRS at 1. rewrite Ham. cbn [fst snd].
  rewrite Hsel. reflexivity.
Qed.

(** A loop that was left by the guard gives a failed branch: nothing is
    scored. *)
Lemma guard_branch (K_ite : Z) (svd_flag : nat) (st : sc_state) (n n1 : nat) :
  0 <= K_ite ->
  successive_clustering rr svds binom_pmf seq_err L (Z.to_nat K_ite) svd_flag
     (mk_sc S ori_mis_cri 1 (repeat (repeat 0 L) (Z.to_nat K_ite))) n
  = Ok (st, false, n1) ->
  run_sign rr svds binom_pmf seq_err S L ori_mis_cri ori_ACGTcount K_ite svd_flag n
  = Ok (None, n1).
Proof.
  intros HK Hsc. unfold run_sign.
  replace (K_ite <? 0) with false by (symmetry; apply Z.ltb_ge; exact HK).
  unfold bindRS at 1. rewrite Hsc. reflexivity.
Qed.

(** The variables after a failed branch: the flag of the sign is 0 and its
    MEC is still the infinity of line 154. *)
Lemma guard_variables (K_ite : Z) (st : rank_state) (b : branch) :
  let st1 := after_sign K_ite 1 None (begin_K st) in
  let st2 := after_sign K_ite 2 None (after_sign K_ite 1 b (begin_K st)) in
  alt_tag1 st1 = Some false /\ fst (MEC st1) = MInf /\
  alt_tag2 st2 = Some false /\ snd (MEC st2) = MInf.
Proof.
  cbv zeta. cbn [after_sign Nat.eqb alt_tag1 alt_tag2 MEC begin_K fst snd].
  repeat split. destruct b as [[[mec hap] V]|]; reflexivity.
Qed.

Lemma py_index_in_range (len i : Z) :
  0 <= i < len -> py_index len i = Ok (Z.to_nat i).
Proof.
  intro H. unfold py_index.
  replace (0 <=? i) with true by (symmetry; apply Z.leb_le; lia).
  replace (i <? len) with true by (symmetry; apply Z.ltb_lt; lia).
  reflexivity.
Qed.

Lemma table_update_in_range (t : list column) (i : Z) (f : column -> column) :
  0 <= i < Z.of_nat (length t) ->
  table_update t i f = Ok (list_set t (Z.to_nat i) (f (nth (Z.to_nat i) t zero_col))).
Proof.
  intro H. unfold table_update. rewrite py_index_in_range by exact H. reflexivity.
Qed.

(** When a sign branch fails the run goes on.  If both fail the [for] loop
    is left and the rank estimator takes [K_ite] as the new lower bound; if
    one fails the table gets the MEC of the other. *)
Lemma guard_run_continues (K_ite : Z) (st : rank_state) (n n1 n2 : nat)
    (b1 b2 : branch) :
  find_K (MEC_table st) K_ite = [] ->
  length (MEC_table st) = 50%nat -> 1 <= K_count st <= 50 ->
  run_sign rr svds binom_pmf seq_err S L ori_mis_cri ori_ACGTcount K_ite 1 n = Ok (b1, n1) ->
  run_sign rr svds binom_pmf seq_err S L ori_mis_cri ori_ACGTcount K_ite 2 n1 = Ok (b2, n2) ->
  b1 = None \/ b2 = None ->
  exists st' broke,
    eval_K rr svds binom_pmf seq_err S L ori_mis_cri ori_ACGTcount K_ite st n
    = Ok (st', broke, n2) /\
    K_count st' = K_count st + 1 /\
    alt_tag1 st' = Some (match b1 with Some _ => true | None => false end) /\
    alt_tag2 st' = Some (match b2 with Some _ => true | None => false end) /\
    (b1 = None -> fst (MEC st') = MInf) /\
    (b2 = None -> snd (MEC st') = MInf) /\
    (b1 = None -> b2 = None ->
     broke = true /\ MEC_table st' = MEC_table st /\
     exists st'',
       rank_update MEC_thre K_step st' = Ok st'' /\
       K_low st'' = K_ite /\ K_high st'' = K_high st) /\
    (b1 = None -> forall x, b2 = Some x ->
     broke = false /\
     cMEC (nth (Z.to_nat (K_count st - 1)) (MEC_table st') zero_col)
     = MFin (fst (fst x))) /\
    (b2 = None -> forall x, b1 = Some x ->
     broke = false /\
     cMEC (nth (Z.to_nat (K_count st - 1)) (MEC_table st') zero_col)
     = MFin (fst (fst x))).
Proof.
  intros Hfind Hlen Hcount H1 H2 Hnone.
  unfold eval_K. rewrite Hfind.
  unfold bindRS at 1. rewrite H1. unfold bindRS at 1. rewrite H2.
  assert (Hidx : 0 <= K_count st - 1 < Z.of_nat (length (MEC_table st)))
    by (rewrite Hlen; lia).
  destruct b1 as [[[m1 h1] V1]|], b2 as [[[m2 h2] V2]|].
  - destruct Hnone; discriminate.
  - (* the minus sign failed *)
    cbn [after_sign begin_K Nat.eqb alt_tag1 alt_tag2 ori_K MEC hap_num
         reconV3 reconV4 K_count MEC_table fst snd bound lift negb andb].
    unfold bindRS; cbn [lift bound negb andb mecv_leb Nat.eqb].
    rewrite (table_update_in_range _ _ _ Hidx). cbn [lift].
    unfold ret. eexists _, _. split; [reflexivity|].
    cbn [with_count_table K_count alt_tag1 alt_tag2 MEC MEC_table fst snd].
    repeat split; try reflexivity; try discriminate.
    match goal with Hx : Some _ = Some _ |- _ => injection Hx as <- end.
    rewrite nth_list_set_same by lia. reflexivity.
  - (* the plus sign failed *)
    cbn [after_sign begin_K Nat.eqb alt_tag1 alt_tag2 ori_K MEC hap_num
         reconV3 reconV4 K_count MEC_table fst snd bound lift negb andb].
    unfold bindRS; cbn [lift bound negb andb mecv_leb Nat.eqb].
    rewrite (table_update_in_range _ _ _ Hidx). cbn [lift].
    unfold ret. eexists _, _. split; [reflexivity|].
    cbn [with_count_table K_count alt_tag1 alt_tag2 MEC MEC_table fst snd].
    repeat split; try reflexivity; try discriminate.
    match goal with Hx : Some _ = Some _ |- _ => injection Hx as <- end.
    rewrite nth_list_set_same by lia. reflexivity.
  - (* both failed *)
    cbn [after_sign begin_K Nat.eqb alt_tag1 alt_tag2 ori_K MEC hap_num
         reconV3 reconV4 K_count MEC_table fst snd bound lift negb andb].
    unfold bindRS; cbn [lift bound negb andb].
    unfold ret. eexists _, _. split; [reflexivity|].
    cbn [with_count_table K_count alt_tag1 alt_tag2 MEC MEC_table fst snd].
    repeat split; try reflexivity; try discriminate.
    unfold rank_update.
    cbn [with_count_table K_count alt_tag1 alt_tag2 ori_K MEC_table K_high K
         bound bind negb andb].
    rewrite table_update_in_range by (rewrite Hlen; lia). cbn [bind].
    eexists. split; [reflexivity|]. split; reflexivity.
Qed.

End Guard_facts.

(** C6.  An iteration of successive clustering that selects no read leaves
    the loop at once, with the state it started from: no haplotype is
    recorded and no read is removed.  The branch of that sign is then a
    failed one: its flag ([alt_tag1] for plus, [alt_tag2] for minus) is 0
    and its MEC stays infinite.  No exception is raised: when both signs
    fail the rank estimator goes on with K as lower bound, and when one
    fails the table gets the MEC of the other. *)
Theorem empty_selection_guard (rr : nat -> Q)
    (svds : qmatrix -> nat -> result qmatrix)
    (binom_pmf : Z -> Z -> float -> float) (seq_err : float)
    (MEC_thre : Q) (K_step : Z) (S : matrix) (L : nat) (ori_mis_cri : list Z)
    (ori_ACGTcount : matrix) :
  (forall R' svd_flag st n n1 len am ACGTcount,
     len_col0 L (M_E st) = Ok len -> (Datatypes.S R' < len)%nat ->
     alternating_minimization rr svds L (M_E st) (Datatypes.S R') svd_flag n
     = Ok (am, ACGTcount, n1) ->
     select_reads binom_pmf seq_err ACGTcount (M_E st)
       (nth (argmax_list (col_sums (Datatypes.S R') (U am)))
            (decode (Vt am) (Datatypes.S R') L) [])
       (mis_cri st) = [] ->
     successive_clustering rr svds binom_pmf seq_err L (Datatypes.S R') svd_flag st n
     = Ok (st, false, n1)) /\
  (forall K_ite svd_flag st n n1,
     0 <= K_ite ->
     successive_clustering rr svds binom_pmf seq_err L (Z.to_nat K_ite) svd_flag
       (mk_sc S ori_mis_cri 1 (repeat (repeat 0 L) (Z.to_nat K_ite))) n
     = Ok (st, false, n1) ->
     run_sign rr svds binom_pmf seq_err S L ori_mis_cri ori_ACGTcount K_ite svd_flag n
     = Ok (None, n1)) /\
  (forall K_ite st n n1 n2 b1 b2,
     find_K (MEC_table st) K_ite = [] ->
     length (MEC_table st) = 50%nat -> 1 <= K_count st <= 50 ->
     run_sign rr svds binom_pmf seq_err S L ori_mis_cri ori_ACGTcount K_ite 1 n = Ok (b1, n1) ->
     run_sign rr svds binom_pmf seq_err S L ori_mis_cri ori_ACGTcount K_ite 2 n1 = Ok (b2, n2) ->
     b1 = None \/ b2 = None ->
     exists st' broke,
       eval_K rr svds binom_pmf seq_err S L ori_mis_cri ori_ACGTcount K_ite st n
       = Ok (st', broke, n2) /\
       K_count st' = K_count st + 1 /\
       alt_tag1 st' = Some (match b1 with Some _ => true | None => false end) /\
       alt_tag2 st' = Some (match b2 with Some _ => true | None => false end) /\
       (b1 = None -> fst (MEC st') = MInf) /\
       (b2 = None -> snd (MEC st') = MInf) /\
       (b1 = None -> b2 = None ->
        broke = true /\ MEC_table st' = MEC_table st /\
        exists st'',
          rank_update MEC_thre K_step st' = Ok st'' /\
          K_low st'' = K_ite /\ K_high st'' = K_high st) /\
       (b1 = None -> forall x, b2 = Some x ->
        broke = false /\
        cMEC (nth (Z.to_nat (K_count st - 1)) (MEC_table st') zero_col)
        = MFin (fst (fst x))) /\
       (b2 = None -> forall x, b1 = Some x ->
        broke = false /\
        cMEC (nth (Z.to_nat (K_count st - 1)) (MEC_table st') zero_col)
        = MFin (fst (fst x)))).
Proof.
  split; [|split].
  - intros. eapply guard_iteration; eassumption.
  - intros. eapply guard_branch; eassumption.
  - intros. eapply guard_run_continues; eassumption.
Qed.

Lemma empty_selection_guard_witness :
  let rr := fun _ : nat => 0%Q in
  let svds := fun (_ : qmatrix) (R : nat) => Ok (repeat (repeat (1 # 2)%Q 12) R) in
  let S := [[1; 1; 2]; [1; 2; 1]; [2; 1; 1]] in
  let prior := [[2; 1; 0; 0]; [2; 1; 0; 0]; [2; 1; 0; 0]] in
  let st0 := mk_sc S [3; 3; 3] 1%nat [[0; 0; 0]] in
  successive_clustering rr svds binom_pmf_float default_seq_err 3 1 1 st0 0%nat
  = Ok (st0, false, 0%nat) /\
  run_sign rr svds binom_pmf_float default_seq_err S 3 [3; 3; 3] prior 1 1 0%nat
  = Ok (None, 0%nat) /\
  exists st',
    eval_K rr svds binom_pmf_float default_seq_err S 3 [3; 3; 3] prior 1 (rank_init 1) 0%nat
    = Ok (st', true, 0%nat) /\
    exists st'',
      rank_update (312 # 10000) 1 st' = Ok st'' /\ K_low st'' = 1.
Proof.
  intros rr svds S prior st0.
  destruct (empty_selection_guard rr svds binom_pmf_float default_seq_err
              (312 # 10000) 1 S 3 [3; 3; 3] prior) as (G1 & G2 & G3).
  assert (Hsc : forall flag,
            successive_clustering rr svds binom_pmf_float default_seq_err 3 1 flag st0 0%nat
            = Ok (st0, false, 0%nat)).
  { intro flag. eapply (G1 0%nat flag st0 0%nat 0%nat 3%nat).
    - reflexivity.
    - lia.
    - destruct flag as [|[|[|flag]]]; vm_compute; reflexivity.
    - destruct flag as [|[|[|flag]]]; vm_compute; reflexivity. }
  assert (Hsign : forall flag,
            run_sign rr svds binom_pmf_float default_seq_err S 3 [3; 3; 3] prior 1 flag 0%nat
            = Ok (None, 0%nat)).
  { intro flag. apply (G2 1 flag st0 0%nat 0%nat); [lia | apply Hsc]. }
  split; [apply Hsc|]. split; [apply Hsign|].
  destruct (G3 1 (rank_init 1) 0%nat 0%nat 0%nat None None)
    as (st' & broke & He & _ & _ & _ & _ & _ & Hboth & _).
  - reflexivity.
  - reflexivity.
  - cbn; lia.
  - apply Hsign.
  - apply Hsign.
  - now left.
  - destruct (Hboth eq_refl eq_refl) as (-> & _ & st'' & Hu & Hlow & _).
    exists st'. split; [exact He|]. exists st''. split; assumption.
Defined.

(** * The rank-estimation loop *)

Section Table_facts.

Lemma py_index_ok (len i : Z) (k : nat) :
  0 <= i -> py_index len i = Ok k -> i < len /\ k = Z.to_nat i.
Proof.
  intros Hi H. unfold py_index in H.
  destruct (Z.leb_spec 0 i); [|lia].
  destruct (Z.ltb_spec i len); cbn [andb] in H.
  - injection H as <-. split; [lia | reflexivity].
  - destruct (Z.ltb_spec i 0); [lia|].
    rewrite andb_false_r in H. discriminate.
Qed.

Lemma table_update_ok (t t' : list column) (i : Z) (f : column -> column) :
  0 <= i -> table_update t i f = Ok t' ->
  i < Z.of_nat (length t) /\
  t' = list_set t (Z.to_nat i) (f (nth (Z.to_nat i) t zero_col)).
Proof.
  intros Hi H. unfold table_update in H.
  destruct (py_index (Z.of_nat (length t)) i) as [k | e] eqn:E; [|discriminate].
  cbn [bind] in H. injection H as <-.
  destruct (py_index_ok _ _ _ Hi E) as [Hlt ->]. split; [exact Hlt | reflexivity].
Qed.

Lemma table_get_ok (t : list column) (i : Z) (c : column) :
  0 <= i -> table_get t i = Ok c ->
  i < Z.of_nat (length t) /\ c = nth (Z.to_nat i) t zero_col.
Proof.
  intros Hi H. unfold table_get in H.
  destruct (py_index (Z.of_nat (length t)) i) as [k | e] eqn:E; [|discriminate].
  cbn [bind] in H. injection H as <-.
  destruct (py_index_ok _ _ _ Hi E) as [Hlt ->]. split; [exact Hlt | reflexivity].
Qed.

Lemma Forall_list_set {A} (P : A -> Prop) (l : list A) (k : nat) (v : A) :
  Forall P l -> P v -> Forall P (list_set l k v).
Proof.
  intros Hl Hv. revert k. induction Hl as [|x l Hx Hl IH]; intro k; [constructor|].
  destruct k; cbn [list_set]; constructor; auto.
Qed.

Lemma find_K_in (t : list column) (k : Z) (i : nat) :
  In i (find_K t k) <-> (i < length t)%nat /\ cK (nth i t zero_col) = k.
Proof.
  unfold find_K. rewrite in_np_where, length_map. split.
  - intros [Hi H]. split; [exact Hi|].
    rewrite (nth_indep _ false ((fun c => cK c =? k) zero_col)) in H
      by (rewrite length_map; exact Hi).
    rewrite (map_nth (fun c => cK c =? k)) in H. now apply Z.eqb_eq.
  - intros [Hi H]. split; [exact Hi|].
    rewrite (nth_indep _ false ((fun c => cK c =? k) zero_col))
      by (rewrite length_map; exact Hi).
    rewrite (map_nth (fun c => cK c =? k)). now apply Z.eqb_eq.
Qed.

End Table_facts.

Section Rank_facts.

Variable rr : nat -> Q.
Variable svds : qmatrix -> nat -> result qmatrix.
Variable binom_pmf : Z -> Z -> float -> float.
Variable seq_err : float.
Variable MEC_thre : Q.
Variable K_step : Z.
Variable S : matrix.
Variable L : nat.
Variable ori_mis_cri : list Z.
Variable ori_ACGTcount : matrix.

(** What one value of the [for] loop does to the state. *)
Lemma eval_K_spec (K_ite : Z) (st st' : rank_state) (broke : bool) (n n' : nat) :
  1 <= K_count st ->
  eval_K rr svds binom_pmf seq_err S L ori_mis_cri ori_ACGTcount K_ite st n
  = Ok (st', broke, n') ->
  K_low st' = K_low st /\ K_high st' = K_high st /\ K st' = K st /\
  K_count st' = K_count st + 1 /\
  (ori_K st' = ori_K st \/ ori_K st' = Some K_ite) /\
  ((broke = true /\ MEC_table st' = MEC_table st /\
    alt_tag1 st' = Some false /\ alt_tag2 st' = Some false) \/
   (broke = false /\ K_count st - 1 < Z.of_nat (length (MEC_table st)) /\
    exists c, cK c = K_ite /\
              MEC_table st' = list_set (MEC_table st) (Z.to_nat (K_count st - 1)) c)).
Proof.
  intros Hc H. unfold eval_K in H.
  destruct (find_K (MEC_table st) K_ite) as [|first rest] eqn:Ef.
  - unfold bindRS at 1 in H.
    destruct (run_sign _ _ _ _ _ _ _ _ K_ite 1 n) as [[b1 n1] | e]; [|discriminate].
    unfold bindRS at 1 in H.
    destruct (run_sign _ _ _ _ _ _ _ _ K_ite 2 n1) as [[b2 n2] | e]; [|discriminate].
    set (st2 := after_sign K_ite 2 b2 (after_sign K_ite 1 b1 (begin_K st))) in H.
    assert (Hst2 : K_low st2 = K_low st /\ K_high st2 = K_high st /\ K st2 = K st /\
                   K_count st2 = K_count st /\ MEC_table st2 = MEC_table st /\
                   ori_K st2 = Some K_ite /\
                   alt_tag1 st2 = Some (match b1 with Some _ => true | None => false end) /\
                   alt_tag2 st2 = Some (match b2 with Some _ => true | None => false end)).
    { unfold st2. destruct b1 as [[[m1 h1] V1]|], b2 as [[[m2 h2] V2]|];
        cbn; repeat split; reflexivity. }
    destruct Hst2 as (Hlow & Hhigh & HK & Hcnt & Htab & Hori & Ht1 & Ht2).
    unfold bindRS at 1 in H. rewrite Ht1 in H. cbn [bound lift] in H.
    unfold bindRS at 1 in H. rewrite Ht2 in H.
    destruct b1 as [[[m1 h1] V1]|], b2 as [[[m2 h2] V2]|];
      cbn [bound lift negb andb] in H.
    4:{ unfold ret in H. injection H as <- <- <-.
        cbn [with_count_table K_low K_high K K_count ori_K MEC_table alt_tag1 alt_tag2].
        rewrite ?Hlow, ?Hhigh, ?HK, ?Hcnt, ?Htab, ?Hori, ?Ht1, ?Ht2.
        repeat split; auto. }
    all: unfold bindRS at 1 in H; rewrite Hori in H; cbn [bound lift] in H;
      unfold bindRS at 1 in H;
      destruct (table_update (MEC_table st2) (K_count st2 - 1) _) as [t | e] eqn:Et;
        [|discriminate];
      cbn [lift] in H; unfold bindRS at 1 in H;
      match type of H with
      | context [lift ?r ?m] => destruct r as [V5 | e]; [|discriminate]
      end;
      cbn [lift] in H; unfold ret in H; injection H as <- <- <-;
      cbn [with_count_table K_low K_high K K_count ori_K MEC_table alt_tag1 alt_tag2];
      rewrite Hcnt, Htab in Et;
      apply table_update_ok in Et; [|lia]; destruct Et as [Hlt ->];
      rewrite ?Hlow, ?Hhigh, ?HK, ?Hcnt, ?Hori;
      repeat split; auto; try (unfold st2; cbn; lia);
      right; split; [reflexivity|]; split; [exact Hlt|];
      eexists; split; [|reflexivity]; reflexivity.
  - unfold bindRS at 1 in H.
    destruct (table_update (MEC_table st) (K_count st - 1) _) as [t | e] eqn:Et;
      [|discriminate].
    cbn [lift] in H. unfold ret in H. injection H as <- <- <-.
    cbn [with_count_table K_low K_high K K_count ori_K MEC_table alt_tag1 alt_tag2].
    apply table_update_ok in Et; [|lia]. destruct Et as [Hlt ->].
    repeat split; auto. right. split; [reflexivity|]. split; [exact Hlt|].
    eexists; split; [|reflexivity].
    assert (Hin : In first (find_K (MEC_table st) K_ite)) by (rewrite Ef; now left).
    apply find_K_in in Hin. apply Hin.
Qed.


Lemma eval_K_after (K_ite : Z) (st st1 st2 : rank_state) (broke : bool) (n n' : nat) :
  rank_inv st -> 0 <= K_ite ->
  K_low st1 = K_low st -> K_high st1 = K_high st -> K st1 = K st ->
  length (MEC_table st1) = 50%nat ->
  (forall k, ori_K st1 = Some k -> 0 <= k) ->
  Forall (fun c => 0 <= cK c) (MEC_table st1) ->
  (forall i, Z.of_nat i < K_count st - 1 ->
     nth i (MEC_table st1) zero_col = nth i (MEC_table st) zero_col) ->
  K_count st <= K_count st1 ->
  eval_K rr svds binom_pmf seq_err S L ori_mis_cri ori_ACGTcount K_ite st1 n
  = Ok (st2, broke, n') ->
  K_low st2 = K_low st /\ K_high st2 = K_high st /\ K st2 = K st /\
  length (MEC_table st2) = 50%nat /\
  (forall k, ori_K st2 = Some k -> 0 <= k) /\
  Forall (fun c => 0 <= cK c) (MEC_table st2) /\
  (forall i, Z.of_nat i < K_count st - 1 ->
     nth i (MEC_table st2) zero_col = nth i (MEC_table st) zero_col) /\
  K_count st2 = K_count st1 + 1 /\
  ((broke = true /\ alt_tag1 st2 = Some false /\ alt_tag2 st2 = Some false) \/
   (broke = false /\ K_count st1 <= 50)).
Proof.
  intros Hinv HK Hlow Hhigh HKK Hlen Hori Hall Hold Hcnt He.
  destruct Hinv as (Hc & _).
  apply eval_K_spec in He; [|lia].
  destruct He as (El & Eh & Ek & Ec & Eo & Ecase).
  split; [congruence|]. split; [congruence|]. split; [congruence|].
  assert (Hori2 : forall k, ori_K st2 = Some k -> 0 <= k).
  { intros k Hk. destruct Eo as [Eo | Eo]; rewrite Eo in Hk.
    - now apply Hori.
    - injection Hk as <-. exact HK. }
  destruct Ecase as [(-> & Et & T1 & T2) | (-> & Hlt & c & Hck & Et)].
  - rewrite Et. repeat split; auto.
  - rewrite Et. split; [now rewrite length_list_set|]. split; [exact Hori2|].
    split; [apply Forall_list_set; [exact Hall | rewrite Hck; exact HK]|].
    split.
    { intros i Hi. rewrite nth_list_set_other by lia. apply Hold; exact Hi. }
    split; [exact Ec|]. right. split; [reflexivity|]. rewrite Hlen in Hlt. lia.
Qed.

(** The two values of the [for] loop. *)
Lemma evals_after (st : rank_state) (st2 : rank_state * bool) (n n' : nat) :
  rank_inv st ->
  (r1 <- eval_K rr svds binom_pmf seq_err S L ori_mis_cri ori_ACGTcount (K st) st ;;
   (if snd r1 then ret r1
    else eval_K rr svds binom_pmf seq_err S L ori_mis_cri ori_ACGTcount (K st + 1) (fst r1))) n
  = Ok (st2, n') ->
  after_evals st (fst st2).
Proof.
  intros Hinv H. pose proof Hinv as (Hc & Hlen & HK & Hl & Hh & Ho & Hall & _).
  unfold bindRS at 1 in H.
  destruct (eval_K _ _ _ _ _ _ _ _ (K st) st n) as [[[st1 broke1] n1] | e] eqn:E1;
    [|discriminate].
  apply (eval_K_after (K st) st st st1 broke1 n n1 Hinv HK) in E1; auto; [|lia].
  destruct E1 as (A1 & A2 & A3 & A4 & A5 & A6 & A7 & A8 & A9).
  cbn [snd fst] in H. destruct A9 as [(-> & T1 & T2) | (-> & Hb)].
  - unfold ret in H. injection H as <- <-. cbn [fst].
    unfold after_evals. repeat split; auto. left. repeat split; auto; lia.
  - destruct (eval_K _ _ _ _ _ _ _ _ (K st + 1) st1 n1) as [[[st3 broke2] n3] | e] eqn:E2;
      [|discriminate].
    injection H as <- <-. cbn [fst].
    apply (eval_K_after (K st + 1) st st1 st3 broke2 n1 n3 Hinv) in E2; auto; try lia.
    destruct E2 as (B1 & B2 & B3 & B4 & B5 & B6 & B7 & B8 & B9).
    unfold after_evals. repeat split; auto.
    destruct B9 as [(-> & T1 & T2) | (-> & Hb2)].
    + left. repeat split; auto; lia.
    + right. split; lia.
Qed.

Lemma nth_in_range_Forall (P : column -> Prop) (t : list column) (i : nat) :
  Forall P t -> (i < length t)%nat -> P (nth i t zero_col).
Proof.
  intros H Hi. rewrite Forall_forall in H. apply H, nth_In, Hi.
Qed.

(** A pass keeps the invariant and uses at least one more column. *)
Lemma rank_iter_inv (st st' : rank_state) (n n' : nat) :
  rank_inv st ->
  rank_iter rr svds binom_pmf seq_err MEC_thre K_step S L ori_mis_cri ori_ACGTcount st n
  = Ok (st', n') ->
  rank_inv st' /\ K_count st < K_count st'.
Proof.
  intros Hinv H. pose proof Hinv as (Hc & Hlen & HK & Hl & Hh & Ho & Hall & Hwit).
  unfold rank_iter in H. unfold bindRS at 1 in H.
  destruct (eval_K rr svds binom_pmf seq_err S L ori_mis_cri ori_ACGTcount (K st) st n)
    as [[r1 n1] | e] eqn:E1; [|discriminate].
  unfold bindRS at 1 in H.
  destruct ((if snd r1 then ret r1
             else eval_K rr svds binom_pmf seq_err S L ori_mis_cri ori_ACGTcount
                         (K st + 1) (fst r1)) n1)
    as [[r2 n2] | e] eqn:E2; [|discriminate].
  assert (E : (r1 <- eval_K rr svds binom_pmf seq_err S L ori_mis_cri ori_ACGTcount (K st) st ;;
               (if snd r1 then ret r1
                else eval_K rr svds binom_pmf seq_err S L ori_mis_cri ori_ACGTcount
                            (K st + 1) (fst r1))) n
              = Ok (r2, n2))
    by (unfold bindRS; rewrite E1; exact E2).
  clear E1 E2.
  apply (evals_after st r2 n n2 Hinv) in E.
  set (st2 := fst r2) in *. clearbody st2.
  destruct E as (A1 & A2 & A3 & A4 & A5 & A6 & A7 & A8).
  assert (Hwit2 : K_high st = 0 \/
            exists i, 0 <= Z.of_nat i < K_count st - 1 /\
                      cK (nth i (MEC_table st2) zero_col) = K_high st).
  { destruct Hwit as [Hw | (i & Hi & Hw)]; [now left | right].
    exists i. split; [exact Hi|]. rewrite A7 by lia. exact Hw. }
  unfold rank_update in H.
  destruct (alt_tag1 st2) as [t1|] eqn:T1; cbn [bound bind lift] in H; [|discriminate].
  assert (Hcount : K_count st < K_count st2 <= K_count st + 2)
    by (destruct A8 as [(_ & _ & ?) | (? & ?)]; lia).
  destruct t1.
  - (* alt_tag1 = 1 *)
    cbn [bind negb andb] in H.
    destruct A8 as [(T & _) | (Hc2 & Hroom)]; [congruence|].
    destruct (table_get (MEC_table st2) (K_count st2 - 3)) as [cA | e] eqn:EA;
      [|discriminate].
    cbn [bind] in H.
    destruct (table_get (MEC_table st2) (K_count st2 - 2)) as [cB | e] eqn:EB;
      [|discriminate].
    cbn [bind] in H.
    destruct (table_update (MEC_table st2) (K_count st2 - 3) _) as [t | e] eqn:ET;
      [|discriminate].
    cbn [bind] in H.
    apply table_get_ok in EA; [|lia]. destruct EA as [HA ->].
    apply table_get_ok in EB; [|lia]. destruct EB as [HB ->].
    apply table_update_ok in ET; [|lia]. destruct ET as [_ ->].
    rewrite A4 in HA, HB.
    set (iA := Z.to_nat (K_count st2 - 3)) in *.
    set (cA := nth iA (MEC_table st2) zero_col) in *.
    assert (HcA : 0 <= cK cA)
      by (apply (nth_in_range_Forall (fun c => 0 <= cK c)); [exact A6 | lia]).
    set (r := mec_rate (cMEC cA) (cMEC (nth (Z.to_nat (K_count st2 - 2)) (MEC_table st2) zero_col))) in *.
    set (t := list_set (MEC_table st2) iA (set_cRate cA r)) in *.
    assert (Ht_len : length t = 50%nat) by (unfold t; now rewrite length_list_set).
    assert (Ht_all : Forall (fun c => 0 <= cK c) t)
      by (unfold t; apply Forall_list_set; [exact A6 | exact HcA]).
    assert (Ht_old : forall i, Z.of_nat i < K_count st - 1 ->
              cK (nth i t zero_col) = cK (nth i (MEC_table st2) zero_col)).
    { intros i Hi. unfold t. rewrite nth_list_set_other by lia. reflexivity. }
    assert (Ht_A : cK (nth iA t zero_col) = cK cA).
    { unfold t. rewrite nth_list_set_same by lia. reflexivity. }
    destruct (rate_gtb r MEC_thre).
    + destruct (log2_is_integer (cK cA) K_step) as [p | e]; [|discriminate].
      cbn [bind] in H. cbn [bind lift] in H. injection H as <- <-.
      unfold with_bounds. split; [|cbn [K_count]; lia].
      unfold rank_inv. cbn [K_count MEC_table K K_low K_high ori_K].
      split; [lia|]. split; [exact Ht_len|].
      split; [destruct p; [lia | apply Z.div_pos; lia]|].
      split; [exact HcA|]. split; [lia|]. split; [exact A5|]. split; [exact Ht_all|].
      rewrite A2. destruct Hwit2 as [Hw | (i & Hi & Hw)]; [now left | right].
      exists i. split; [lia|]. rewrite Ht_old by lia. exact Hw.
    + cbn [bind lift] in H. injection H as <- <-.
      unfold with_bounds. split; [|cbn [K_count]; lia].
      unfold rank_inv. cbn [K_count MEC_table K K_low K_high ori_K].
      split; [lia|]. split; [exact Ht_len|].
      split; [apply Z.div_pos; lia|].
      split; [lia|]. split; [exact HcA|]. split; [exact A5|]. split; [exact Ht_all|].
      right. exists iA. split; [lia | exact Ht_A].
  - (* alt_tag1 = 0 *)
    destruct (alt_tag2 st2) as [t2|] eqn:T2; cbn [bound bind] in H; [|discriminate].
    destruct t2; cbn [negb andb] in H.
    + (* alt_tag2 = 1 *)
      destruct A8 as [(_ & T & _) | (Hc2 & Hroom)]; [congruence|].
      destruct (table_get (MEC_table st2) (K_count st2 - 3)) as [cA | e] eqn:EA;
        [|discriminate].
      cbn [bind] in H.
      destruct (table_get (MEC_table st2) (K_count st2 - 2)) as [cB | e] eqn:EB;
        [|discriminate].
      cbn [bind] in H.
      destruct (table_update (MEC_table st2) (K_count st2 - 3) _) as [t | e] eqn:ET;
        [|discriminate].
      cbn [bind] in H.
      apply table_get_ok in EA; [|lia]. destruct EA as [HA ->].
      apply table_get_ok in EB; [|lia]. destruct EB as [HB ->].
      apply table_update_ok in ET; [|lia]. destruct ET as [_ ->].
      rewrite A4 in HA, HB.
      set (iA := Z.to_nat (K_count st2 - 3)) in *.
      set (cA := nth iA (MEC_table st2) zero_col) in *.
      assert (HcA : 0 <= cK cA)
        by (apply (nth_in_range_Forall (fun c => 0 <= cK c)); [exact A6 | lia]).
      set (r := mec_rate (cMEC cA) (cMEC (nth (Z.to_nat (K_count st2 - 2)) (MEC_table st2) zero_col))) in *.
      set (t := list_set (MEC_table st2) iA (set_cRate cA r)) in *.
      assert (Ht_len : length t = 50%nat) by (unfold t; now rewrite length_list_set).
      assert (Ht_all : Forall (fun c => 0 <= cK c) t)
        by (unfold t; apply Forall_list_set; [exact A6 | exact HcA]).
      assert (Ht_old : forall i, Z.of_nat i < K_count st - 1 ->
                cK (nth i t zero_col) = cK (nth i (MEC_table st2) zero_col)).
      { intros i Hi. unfold t. rewrite nth_list_set_other by lia. reflexivity. }
      assert (Ht_A : cK (nth iA t zero_col) = cK cA).
      { unfold t. rewrite nth_list_set_same by lia. reflexivity. }
      destruct (rate_gtb r MEC_thre).
      * destruct (log2_is_integer (cK cA) K_step) as [p | e]; [|discriminate].
        cbn [bind] in H. cbn [bind lift] in H. injection H as <- <-.
        unfold with_bounds. split; [|cbn [K_count]; lia].
        unfold rank_inv. cbn [K_count MEC_table K K_low K_high ori_K].
        split; [lia|]. split; [exact Ht_len|].
        split; [destruct p; [lia | apply Z.div_pos; lia]|].
        split; [exact HcA|]. split; [lia|]. split; [exact A5|]. split; [exact Ht_all|].
        rewrite A2. destruct Hwit2 as [Hw | (i & Hi & Hw)]; [now left | right].
        exists i. split; [lia|]. rewrite Ht_old by lia. exact Hw.
      * cbn [bind lift] in H. injection H as <- <-.
        unfold with_bounds. split; [|cbn [K_count]; lia].
        unfold rank_inv. cbn [K_count MEC_table K K_low K_high ori_K].
        split; [lia|]. split; [exact Ht_len|].
        split; [apply Z.div_pos; lia|].
        split; [lia|]. split; [exact HcA|]. split; [exact A5|]. split; [exact Ht_all|].
        right. exists iA. split; [lia | exact Ht_A].
    + (* both flags are 0 *)
      destruct (ori_K st2) as [oK|] eqn:EO; cbn [bound bind] in H; [|discriminate].
      assert (HoK : 0 <= oK) by (apply A5; reflexivity).
      destruct (table_update (MEC_table st2) (K_count st2 - 2) _) as [t | e] eqn:ET;
        [|discriminate].
      cbn [bind] in H. cbn [bind lift] in H. injection H as <- <-.
      apply table_update_ok in ET; [|lia]. destruct ET as [HT ->].
      rewrite A4 in HT.
      unfold with_bounds. split; [|cbn [K_count]; lia].
      unfold rank_inv. cbn [K_count MEC_table K K_low K_high ori_K].
      split; [lia|]. split; [now rewrite length_list_set|].
      split.
      { rewrite A2, A3. destruct (K_high st =? 0); [lia | apply Z.div_pos; lia]. }
      split; [exact HoK|]. split; [lia|].
      split; [intros k Hk; apply A5; congruence|].
      split; [apply Forall_list_set; [exact A6 | exact HoK]|].
      rewrite A2. destruct Hwit2 as [Hw | (i & Hi & Hw)]; [now left | right].
      exists i. split; [lia|]. rewrite nth_list_set_other by lia. exact Hw.
Qed.

End Rank_facts.

Section Rank_loop_facts.

Variable rr : nat -> Q.
Variable svds : qmatrix -> nat -> result qmatrix.
Variable binom_pmf : Z -> Z -> float -> float.
Variable seq_err : float.
Variable MEC_thre : Q.
Variable K_step : Z.
Variable S : matrix.
Variable L : nat.
Variable ori_mis_cri : list Z.
Variable ori_ACGTcount : matrix.

(** Every pass uses a column of the table, so the fuel that the table
    allows is enough: the loop ends by its condition or by an exception. *)
Lemma rank_loop_ends (fuel : nat) :
  forall st n,
    rank_inv st -> 52 - K_count st <= Z.of_nat fuel ->
    (exists e,
       rank_loop rr svds binom_pmf seq_err MEC_thre K_step S L ori_mis_cri ori_ACGTcount
                 fuel st n = Raise e) \/
    (exists st' n',
       rank_loop rr svds binom_pmf seq_err MEC_thre K_step S L ori_mis_cri ori_ACGTcount
                 fuel st n = Ok (Some st', n') /\
       rank_inv st' /\ K_high st' - K_low st' = 1).
Proof.
  induction fuel as [|fuel IH]; intros st n Hinv Hfuel.
  - destruct Hinv as (Hc & _). lia.
  - cbn [rank_loop]. destruct (rank_continue st) eqn:Ec.
    + unfold bindRS.
      destruct (rank_iter rr svds binom_pmf seq_err MEC_thre K_step S L ori_mis_cri
                          ori_ACGTcount st n) as [[st1 n1] | e] eqn:Ei.
      * destruct (rank_iter_inv _ _ _ _ _ _ _ _ _ _ _ _ _ _ Hinv Ei) as [Hinv1 Hlt].
        apply IH; [exact Hinv1 | lia].
      * left. eexists. reflexivity.
    + right. exists st, n. split; [reflexivity|]. split; [exact Hinv|].
      unfold rank_continue in Ec. apply negb_false_iff, Z.eqb_eq in Ec. exact Ec.
Qed.

Lemma rank_init_inv (K0 : Z) : 0 <= K0 -> rank_inv (rank_init K0).
Proof.
  intro H. unfold rank_inv, rank_init.
  cbn [K_count MEC_table K K_low K_high ori_K].
  split; [lia|]. split; [apply repeat_length|].
  split; [exact H|]. split; [lia|]. split; [lia|].
  split; [discriminate|]. split; [|now left].
  apply Forall_forall. intros c Hc. apply repeat_spec in Hc. subst c. simpl. lia.
Qed.

(** At the exit the entry of [K_table[1]] is in the table. *)
Lemma chosen_entry_exists (st : rank_state) :
  rank_inv st -> K_high st - K_low st = 1 ->
  exists i, list_get (find_K (MEC_table st) (K_high st)) 0 = Ok i /\
            cK (nth i (MEC_table st) zero_col) = K_high st.
Proof.
  intros (Hc & Hlen & _ & Hl & _ & _ & _ & Hwit) Hexit.
  destruct Hwit as [H0 | (i & Hi & Hw)]; [lia|].
  assert (Hin : In i (find_K (MEC_table st) (K_high st))).
  { apply find_K_in. split; [rewrite Hlen; lia | exact Hw]. }
  destruct (find_K (MEC_table st) (K_high st)) as [|first rest] eqn:Ef; [contradiction|].
  exists first. split; [reflexivity|].
  assert (Hf : In first (find_K (MEC_table st) (K_high st))) by (rewrite Ef; now left).
  apply find_K_in in Hf. apply Hf.
Qed.

End Rank_loop_facts.

(** C5, as the code has it.  The rank-estimation loop makes at most 51
    passes, because every pass takes a column of the 50-column table: it
    ends either with an exception or in a state with high - low = 1, and
    then the entry whose K is [K_table[1]] is in the table and is the one
    that line 529 selects. *)
Theorem rank_loop_terminates (rr : nat -> Q)
    (svds : qmatrix -> nat -> result qmatrix)
    (binom_pmf : Z -> Z -> float -> float) (seq_err : float)
    (MEC_thre : Q)
    (S : matrix) (L : nat) (ori_mis_cri : list Z) (ori_ACGTcount : matrix)
    (K0 : Z) (n : nat) :
  0 <= K0 ->
  (exists e,
     rank_loop rr svds binom_pmf seq_err MEC_thre K0 S L ori_mis_cri ori_ACGTcount
               51 (rank_init K0) n = Raise e) \/
  (exists st n',
     rank_loop rr svds binom_pmf seq_err MEC_thre K0 S L ori_mis_cri ori_ACGTcount
               51 (rank_init K0) n = Ok (Some st, n') /\
     K_high st - K_low st = 1 /\
     exists i, list_get (find_K (MEC_table st) (K_high st)) 0 = Ok i /\
               cK (nth i (MEC_table st) zero_col) = K_high st).
Proof.
  intro HK.
  destruct (rank_loop_ends rr svds binom_pmf seq_err MEC_thre K0 S L ori_mis_cri ori_ACGTcount
              51 (rank_init K0) n (rank_init_inv K0 HK))
    as [He | (st & n' & Hl & Hinv & Hexit)].
  - cbn [rank_init K_count]. lia.
  - left. exact He.
  - right. exists st, n'. split; [exact Hl|]. split; [exact Hexit|].
    apply chosen_entry_exists; assumption.
Qed.

Lemma rank_loop_terminates_witness :
  exists st n',
    rank_loop (fun _ => 0%Q)
              (fun _ R => Ok (repeat [2 # 1; 2 # 1; 0; 0; 0; 0; 0; 0]%Q R))
              binom_pmf_float default_seq_err (312 # 10000) 2 (repeat [1; 1] 32) 2 (repeat 2 32)
              [[32; 0; 0; 0]; [32; 0; 0; 0]] 51 (rank_init 2) 0%nat
    = Ok (Some st, n') /\
    K_high st - K_low st = 1.
Proof.
  destruct (rank_loop_terminates (fun _ => 0%Q)
              (fun _ R => Ok (repeat [2 # 1; 2 # 1; 0; 0; 0; 0; 0; 0]%Q R))
              binom_pmf_float default_seq_err (312 # 10000) (repeat [1; 1] 32) 2 (repeat 2 32)
              [[32; 0; 0; 0]; [32; 0; 0; 0]] 2 0%nat)
    as [(e & He) | (st & n' & Hl & Hexit & _)].
  - lia.
  - vm_compute in He. discriminate.
  - exists st, n'. split; assumption.
Defined.

(** C5, as the specification words it, fails.  With a single read (A, C)
    and the default K = 5 the successive clustering is skipped (1 > 5 is
    false), no haplotype is returned, and the reassignment takes the argmax
    of an empty axis: the loop ends with a [ValueError] in its first pass
    and never reaches high - low = 1. *)
Lemma rank_loop_single_read_raises :
  (exists e,
     rank_loop (fun _ => 0%Q) (fun _ _ => Ok []) binom_pmf_float default_seq_err (312 # 10000) 5
               [[1; 2]] 2 [2] [[1; 0; 0; 0]; [0; 1; 0; 0]] 51 (rank_init 5) 0%nat
     = Raise (ValueError e)) /\
  ~ (exists fuel st n',
       rank_loop (fun _ => 0%Q) (fun _ _ => Ok []) binom_pmf_float default_seq_err (312 # 10000) 5
                 [[1; 2]] 2 [2] [[1; 0; 0; 0]; [0; 1; 0; 0]] fuel (rank_init 5) 0%nat
       = Ok (Some st, n')).
Proof.
  split.
  - eexists. vm_compute. reflexivity.
  - intros (fuel & st & n' & H).
    destruct fuel; vm_compute in H; discriminate.
Qed.

(** * Frequencies of the strains *)

Section Sum_facts.

Lemma sum_listQ_app (l1 l2 : list Q) :
  (sum_listQ (l1 ++ l2) == sum_listQ l1 + sum_listQ l2)%Q.
Proof.
  induction l1 as [|x l1 IH]; cbn [app sum_listQ fold_right].
  - now rewrite Qplus_0_l.
  - fold (sum_listQ (l1 ++ l2)). fold (sum_listQ l1). rewrite IH. ring.
Qed.

Lemma sum_listQ_perm (l l' : list Q) :
  Permutation l l' -> (sum_listQ l == sum_listQ l')%Q.
Proof.
  induction 1 as [| x l l' _ IH | x y l | l l' l'' _ IH1 _ IH2];
    cbn [sum_listQ fold_right].
  - reflexivity.
  - fold (sum_listQ l). fold (sum_listQ l'). now rewrite IH.
  - fold (sum_listQ l). ring.
  - now rewrite IH1.
Qed.

Lemma sum_listQ_ext {A} (f g : A -> Q) (l : list A) :
  (forall a, In a l -> (f a == g a)%Q) ->
  (sum_listQ (map f l) == sum_listQ (map g l))%Q.
Proof.
  induction l as [|a l IH]; intro H; cbn [map sum_listQ fold_right]; [reflexivity|].
  fold (sum_listQ (map f l)). fold (sum_listQ (map g l)).
  rewrite (H a (or_introl eq_refl)), IH; [reflexivity|].
  intros b Hb. apply H. now right.
Qed.

(** Sums over two index lists may be exchanged. *)
Lemma sum_listQ_swap {A B} (h : A -> B -> Q) (la : list A) (lb : list B) :
  (sum_listQ (map (fun a => sum_listQ (map (fun b => h a b) lb)) la)
   == sum_listQ (map (fun b => sum_listQ (map (fun a => h a b) la)) lb))%Q.
Proof.
  induction la as [|a la IH]; cbn [map sum_listQ fold_right].
  - induction lb as [|b lb IHb]; cbn [map sum_listQ fold_right]; [reflexivity|].
    fold (sum_listQ (map (fun b0 : B => 0%Q) lb)) in *.
    rewrite <- IHb. ring.
  - fold (sum_listQ (map (fun a0 => sum_listQ (map (fun b => h a0 b) lb)) la)).
    rewrite IH. clear IH.
    induction lb as [|b lb IHb]; cbn [map sum_listQ fold_right]; [ring|].
    fold (sum_listQ (map (fun b0 => h a b0) lb)).
    fold (sum_listQ (map (fun a0 => h a0 b) la)).
    fold (sum_listQ (map (fun b0 => sum_listQ (map (fun a0 => h a0 b0) la)) lb)).
    fold (sum_listQ (map (fun b0 => (h a b0 + sum_listQ (map (fun a0 => h a0 b0) la))%Q) lb)).
    rewrite <- IHb. ring.
Qed.

Lemma sum_listQ_indicator {A} (p : A -> bool) (x : Q) (l : list A) :
  (sum_listQ (map (fun a => if p a then x else 0) l)
   == inject_Z (Z.of_nat (length (filter p l))) * x)%Q.
Proof.
  induction l as [|a l IH]; cbn [map sum_listQ fold_right filter].
  - cbn. ring.
  - fold (sum_listQ (map (fun a0 => if p a0 then x else 0%Q) l)). rewrite IH.
    destruct (p a); cbn [length].
    + rewrite Nat2Z.inj_succ. unfold Z.succ. rewrite inject_Z_plus. ring.
    + ring.
Qed.

Lemma fold_left_cond_sum (p : nat -> bool) (f : nat -> Q) (l : list nat) (acc : Q) :
  (fold_left (fun tem j => if p j then (tem + f j)%Q else tem) l acc
   == acc + sum_listQ (map (fun j => if p j then f j else 0) l))%Q.
Proof.
  revert acc. induction l as [|j l IH]; intro acc; cbn [fold_left map sum_listQ fold_right].
  - ring.
  - fold (sum_listQ (map (fun j0 => if p j0 then f j0 else 0%Q) l)).
    rewrite IH. destruct (p j); ring.
Qed.

End Sum_facts.

Section Sort_facts.

Lemma insert_by_perm (v : nat -> Q) (i : nat) (l : list nat) :
  Permutation (insert_by v i l) (i :: l).
Proof.
  induction l as [|j l IH]; cbn [insert_by]; [reflexivity|].
  destruct (Qltb (v i) (v j)); [reflexivity|].
  rewrite IH. apply perm_swap.
Qed.

Lemma fold_insert_perm (v : nat -> Q) (l acc : list nat) :
  Permutation (fold_left (fun acc i => insert_by v i acc) l acc) (l ++ acc).
Proof.
  revert acc. induction l as [|i l IH]; intro acc; cbn [fold_left app]; [reflexivity|].
  rewrite IH. rewrite insert_by_perm. symmetry. apply Permutation_middle.
Qed.

(** [np.argsort] returns a permutation of the positions. *)
Lemma argsort_perm (vals : list Q) :
  Permutation (argsort vals) (seq 0 (length vals)).
Proof.
  unfold argsort. rewrite fold_insert_perm. now rewrite app_nil_r.
Qed.

Lemma length_argsort (vals : list Q) : length (argsort vals) = length vals.
Proof.
  rewrite (Permutation_length (argsort_perm vals)). apply length_seq.
Qed.

(** Reading a list at a permutation of its positions permutes it. *)
Lemma nth_perm {A} (d : A) (l : list A) (idx : list nat) :
  Permutation idx (seq 0 (length l)) ->
  Permutation (map (fun i => nth i l d) idx) l.
Proof.
  intro H. rewrite (Permutation_map (fun i => nth i l d) H).
  now rewrite map_nth_seq.
Qed.

End Sort_facts.

Section Hashtable_facts.

Lemma ht_add_sum (h : list (string * Q)) (k : string) (v : Q) :
  (sum_listQ (map snd (ht_add h k v)) == sum_listQ (map snd h) + v)%Q.
Proof.
  induction h as [|[k' v'] h IH]; cbn [ht_add map snd sum_listQ fold_right].
  - ring.
  - destruct (String.eqb k k'); cbn [map snd sum_listQ fold_right].
    + fold (sum_listQ (map snd h)). ring.
    + fold (sum_listQ (map snd (ht_add h k v))). fold (sum_listQ (map snd h)).
      rewrite IH. ring.
Qed.

Lemma fold_ht_add_sum (Quasi : list string) (fre : list Q) (l : list nat)
    (h : list (string * Q)) :
  (sum_listQ (map snd
     (fold_left (fun h i => ht_add h (nth i Quasi EmptyString) (nth i fre 0%Q)) l h))
   == sum_listQ (map snd h) + sum_listQ (map (fun i => nth i fre 0%Q) l))%Q.
Proof.
  revert h. induction l as [|i l IH]; intro h; cbn [fold_left map].
  - change (sum_listQ []) with 0%Q. ring.
  - change (sum_listQ (nth i fre 0%Q :: map (fun i0 => nth i0 fre 0%Q) l))
      with (nth i fre 0%Q + sum_listQ (map (fun i0 => nth i0 fre 0%Q) l))%Q.
    rewrite IH, ht_add_sum. ring.
Qed.

(** Merging equal sequences keeps the total of the frequencies. *)
Lemma Hashtable_sum (Quasi : list string) (fre : list Q) :
  length Quasi = length fre ->
  (sum_listQ (map snd (Hashtable Quasi fre)) == sum_listQ fre)%Q.
Proof.
  intro Hlen. unfold Hashtable. rewrite fold_ht_add_sum.
  rewrite Hlen, map_nth_seq.
  change (sum_listQ (map snd (@nil (string * Q)))) with 0%Q. ring.
Qed.

End Hashtable_facts.

Section Rank_bound.

Lemma split_pivot_length (rows rest : qmatrix) (p : list Q) :
  split_pivot rows = Some (p, rest) -> length rows = Datatypes.S (length rest).
Proof.
  revert p rest. induction rows as [|r rows IH]; intros p rest H; [discriminate|].
  cbn [split_pivot] in H. destruct (is_zeroQ (hd 0%Q r)).
  - destruct (split_pivot rows) as [[p' rest']|] eqn:E; [|discriminate].
    injection H as <- <-. cbn [length]. f_equal. eapply IH. reflexivity.
  - injection H as <- <-. reflexivity.
Qed.

(** The rank is at most the number of rows. *)
Lemma rank_cols_le (ncols : nat) (rows : qmatrix) :
  (rank_cols ncols rows <= length rows)%nat.
Proof.
  revert rows. induction ncols as [|n IH]; intro rows; cbn [rank_cols]; [lia|].
  destruct (split_pivot rows) as [[p rest]|] eqn:E.
  - apply split_pivot_length in E. specialize (IH (map (eliminate p) rest)).
    rewrite length_map in IH. lia.
  - specialize (IH (map (@tl Q) rows)). rewrite length_map in IH. exact IH.
Qed.

Lemma matrix_rank_le (ncols : nat) (M : matrix) :
  (matrix_rank ncols M <= length M)%nat.
Proof.
  unfold matrix_rank.
  pose proof (rank_cols_le ncols (map (map inject_Z) M)) as H.
  now rewrite length_map in H.
Qed.

End Rank_bound.

Section Collapse_facts.

Lemma sum_list_add {A} (f g : A -> Z) (l : list A) :
  sum_list (map (fun a => f a + g a) l) = sum_list (map f l) + sum_list (map g l).
Proof.
  induction l as [|a l IH]; cbn [map sum_list fold_right]; [reflexivity|].
  fold (sum_list (map (fun a0 => f a0 + g a0) l)).
  fold (sum_list (map f l)). fold (sum_list (map g l)). lia.
Qed.

Lemma sum_one_bucket (a m : nat) :
  (a < m)%nat ->
  sum_list (map (fun i => if Nat.eqb a i then 1 else 0) (seq 0 m)) = 1.
Proof.
  intro Ha. rewrite (sum_indicator nat (fun i => Nat.eqb a i)).
  assert (H : filter (fun i => Nat.eqb a i) (seq 0 m) = [a]).
  { replace m with (a + Datatypes.S (m - a - 1))%nat by lia.
    rewrite seq_app, filter_app. cbn [seq filter Nat.add].
    rewrite Nat.eqb_refl.
    assert (H1 : forall k n, (k + n <= a)%nat -> filter (fun i => Nat.eqb a i) (seq k n) = []).
    { intros k n. revert k. induction n as [|n IHn]; intros k Hk; [reflexivity|].
      cbn [seq filter]. destruct (Nat.eqb_spec a k); [lia|]. apply IHn. lia. }
    assert (H2 : forall k n, (a < k)%nat -> filter (fun i => Nat.eqb a i) (seq k n) = []).
    { intros k n. revert k. induction n as [|n IHn]; intros k Hk; [reflexivity|].
      cbn [seq filter]. destruct (Nat.eqb_spec a k); [lia|]. apply IHn. lia. }
    rewrite H1 by lia. rewrite H2 by lia. reflexivity. }
  rewrite H. reflexivity.
Qed.

(** Every read is counted for exactly one haplotype. *)
Lemma count_partition (index : list nat) (m : nat) :
  Forall (fun a => (a < m)%nat) index ->
  sum_list (map (fun i => Z.of_nat (length (filter (fun a => Nat.eqb a i) index)))
                (seq 0 m))
  = Z.of_nat (length index).
Proof.
  induction 1 as [|a index Ha _ IH]; cbn [filter length].
  - induction (seq 0 m) as [|i l IHl]; [reflexivity|].
    cbn [map sum_list fold_right].
    fold (sum_list (map (fun _ : nat => Z.of_nat 0) l)). rewrite IHl. reflexivity.
  - rewrite <- (map_ext
       (fun i => (if Nat.eqb a i then 1 else 0)
                 + Z.of_nat (length (filter (fun a0 => Nat.eqb a0 i) index)))).
    + rewrite sum_list_add, IH, sum_one_bucket by exact Ha. lia.
    + intro i. destruct (Nat.eqb a i); cbn [length]; lia.
Qed.

Lemma sum_listQ_div (l : list Z) (t : Z) :
  (sum_listQ (map (fun c => inject_Z c / inject_Z t) l)
   == inject_Z (sum_list l) / inject_Z t)%Q.
Proof.
  induction l as [|c l IH]; cbn [map sum_listQ fold_right sum_list].
  - unfold Qdiv. ring.
  - fold (sum_listQ (map (fun c0 => (inject_Z c0 / inject_Z t)%Q) l)).
    fold (sum_list l). rewrite IH, inject_Z_plus. unfold Qdiv. ring.
Qed.

Lemma collect_rows_length {A} (f : nat -> result A) (l : list nat) (V : list A) :
  fold_right (fun i acc => do rest <- acc; do row <- f i; Ok (row :: rest)) (Ok []) l
  = Ok V ->
  length V = length l.
Proof.
  revert V. induction l as [|i l IH]; intros V H; cbn [fold_right] in H.
  - now injection H as <-.
  - destruct (fold_right _ (Ok []) l) as [rest | e]; [|discriminate].
    cbn [bind] in H. destruct (f i) as [row | e]; [|discriminate].
    cbn [bind] in H. injection H as <-. cbn [length]. f_equal. now apply IH.
Qed.

Lemma reassign_length (S haps : matrix) (index : list nat) :
  reassign S haps = Ok index ->
  length index = length S /\ haps <> [].
Proof.
  unfold reassign, argmax_axis1. intro H.
  destruct (Nat.eqb_spec (length haps) 0) as [E | E]; [discriminate|].
  injection H as <-. unfold iden_table. rewrite !length_map. split; [reflexivity|].
  intro Hn. subst haps. now apply E.
Qed.

End Collapse_facts.

Section Output_facts.

Variable S : matrix.
Variable L : nat.

Hypothesis HS : has_cols L S.
Hypothesis HN : S <> [].

(** What [collapse] returns. *)
Lemma collapse_inv (reconV2 : matrix) (s : strains) :
  has_cols L reconV2 ->
  collapse S L reconV2 = Ok s ->
  length (viralseq_fre s) = length (V_deletion s) /\
  (sum_listQ (viralseq_fre s) == 1)%Q /\
  length (V_deletion_new s) = length (viralseq_fre_new s) /\
  viralseq_fre_new s
  = map (fun i =>
           fold_left
             (fun tem j =>
                if same_row (nth i (V_deletion_new s) []) (nth j (V_deletion s) [])
                then (tem + nth j (viralseq_fre s) 0)%Q else tem)
             (seq 0 (length (V_deletion s))) 0%Q)
        (seq 0 (length (V_deletion_new s))).
Proof.
  intros HV H. unfold collapse in H.
  destruct (reassign S reconV2) as [index | e] eqn:Ere; [|discriminate].
  cbn [bind] in H.
  destruct (reassign_length _ _ _ Ere) as [Hlen Hne].
  destruct (reassign_closest L S reconV2 HS HV Hne) as (a & Ha & _ & Hcl).
  rewrite Ha in Ere. injection Ere as ->.
  assert (Hidx : Forall (fun a => (a < length reconV2)%nat) index).
  { apply Forall_forall. intros x Hx.
    destruct (In_nth _ _ 0%nat Hx) as (i & Hi & <-).
    apply (Hcl i). lia. }
  match type of H with
  | bind ?c _ = _ => destruct c as [V_del | e] eqn:EV; [|discriminate]
  end.
  cbn [bind] in H. apply collect_rows_length in EV. rewrite length_seq in EV.
  injection H as <-. cbn [V_deletion viralseq_fre V_deletion_new viralseq_fre_new].
  set (fre_count := map (fun i => Z.of_nat (length (filter (fun a => Nat.eqb a i) index)))
                        (seq 0 (length reconV2))) in *.
  set (fre := map (fun c => (inject_Z c / inject_Z (sum_list fre_count))%Q) fre_count) in *.
  assert (Htotal : sum_list fre_count = Z.of_nat (length index))
    by (apply count_partition; exact Hidx).
  assert (Hfre_len : length fre = length V_del).
  { unfold fre, fre_count. now rewrite !length_map, length_seq. }
  set (m' := matrix_rank L V_del) in *.
  assert (Hnew_len : length (take_rows V_del (firstn m' (rev (argsort fre)))) = m').
  { unfold take_rows. rewrite length_map, length_firstn, length_rev, length_argsort.
    pose proof (matrix_rank_le L V_del). fold m' in H. lia. }
  split; [exact Hfre_len|]. split.
  { unfold fre. rewrite sum_listQ_div, Htotal.
    assert (Hpos : ~ (inject_Z (Z.of_nat (length index)) == 0)%Q).
    { intro E. unfold Qeq in E. cbn in E.
      destruct S; [congruence|]. rewrite Hlen in E. cbn [length] in E. lia. }
    now field. }
  split.
  { rewrite Hnew_len. now rewrite length_map, length_seq. }
  rewrite Hnew_len. reflexivity.
Qed.

Lemma put_rows_length (Homoseq : list Z) (SNVpos : list nat) (V full : matrix) :
  fold_right
    (fun row acc =>
       do rest <- acc; do full <- put_snvs Homoseq SNVpos row; Ok (full :: rest))
    (Ok []) V = Ok full ->
  length full = length V.
Proof.
  revert full. induction V as [|row V IH]; intros full H; cbn [fold_right] in H.
  - now injection H as <-.
  - destruct (fold_right _ (Ok []) V) as [rest | e]; [|discriminate].
    cbn [bind] in H. destruct (put_snvs Homoseq SNVpos row) as [f | e]; [|discriminate].
    cbn [bind] in H. injection H as <-. cbn [length]. f_equal. now apply IH.
Qed.

(** The frequencies written add up to those of the retained list. *)
Lemma fasta_sum (Homoseq : list Z) (SNVpos : list nat) (s : strains)
    (out : list (string * Q)) :
  length (V_deletion_new s) = length (viralseq_fre_new s) ->
  fasta Homoseq SNVpos s = Ok out ->
  (sum_listQ (map snd out) == sum_listQ (viralseq_fre_new s))%Q.
Proof.
  intros Hlen H. unfold fasta in H.
  match type of H with
  | bind ?c _ = _ => destruct c as [Recon | e] eqn:ER; [|discriminate]
  end.
  cbn [bind] in H. apply put_rows_length in ER. injection H as <-.
  set (h := Hashtable (map (render (length Homoseq) 0) Recon) (viralseq_fre_new s)).
  rewrite (sum_listQ_perm (map snd (map (fun i => nth i h (EmptyString, 0%Q))
                                        (rev (argsort (map snd h)))))
                          (map snd h)).
  - unfold h. apply Hashtable_sum. rewrite length_map. congruence.
  - apply Permutation_map. apply nth_perm.
    rewrite <- Permutation_rev. rewrite argsort_perm. now rewrite length_map.
Qed.

(** The total of the retained list, haplotype by haplotype of the original
    list. *)
Lemma fre_new_total (s : strains) :
  viralseq_fre_new s
  = map (fun i =>
           fold_left
             (fun tem j =>
                if same_row (nth i (V_deletion_new s) []) (nth j (V_deletion s) [])
                then (tem + nth j (viralseq_fre s) 0)%Q else tem)
             (seq 0 (length (V_deletion s))) 0%Q)
        (seq 0 (length (V_deletion_new s))) ->
  (sum_listQ (viralseq_fre_new s)
   == sum_listQ (map (fun j => inject_Z (Z.of_nat (retained_copies s j))
                               * nth j (viralseq_fre s) 0)
                     (seq 0 (length (V_deletion s)))))%Q.
Proof.
  intro H. rewrite H.
  rewrite (sum_listQ_ext _
             (fun i => sum_listQ
                (map (fun j => if same_row (nth i (V_deletion_new s) [])
                                           (nth j (V_deletion s) [])
                               then nth j (viralseq_fre s) 0%Q else 0%Q)
                     (seq 0 (length (V_deletion s)))))).
  2:{ intros i _.
      rewrite (fold_left_cond_sum
                 (fun j => same_row (nth i (V_deletion_new s) []) (nth j (V_deletion s) []))
                 (fun j => nth j (viralseq_fre s) 0%Q)).
      ring. }
  rewrite (sum_listQ_swap
             (fun i j => if same_row (nth i (V_deletion_new s) []) (nth j (V_deletion s) [])
                         then nth j (viralseq_fre s) 0%Q else 0%Q)).
  apply sum_listQ_ext. intros j _.
  apply (sum_listQ_indicator
           (fun i => same_row (nth i (V_deletion_new s) []) (nth j (V_deletion s) []))).
Qed.

End Output_facts.

(** C7, as the code has it.  The frequencies of the haplotypes before the
    rank truncation add up to 1.  The frequencies written to the FASTA file
    add up to the sum, over the haplotypes of the original list, of the
    frequency times the number of retained haplotypes identical to it.  So
    the total written is 1 when every haplotype of the original list is
    identical to exactly one retained haplotype. *)
Theorem fasta_frequencies_total (S : matrix) (L : nat) (reconV2 : matrix)
    (Homoseq : list Z) (SNVpos : list nat) (s : strains)
    (out : list (string * Q)) :
  has_cols L S -> S <> [] -> has_cols L reconV2 ->
  collapse S L reconV2 = Ok s ->
  fasta Homoseq SNVpos s = Ok out ->
  (sum_listQ (viralseq_fre s) == 1)%Q /\
  (sum_listQ (map snd out)
   == sum_listQ (map (fun j => inject_Z (Z.of_nat (retained_copies s j))
                               * nth j (viralseq_fre s) 0)
                     (seq 0 (length (V_deletion s)))))%Q /\
  ((forall j, (j < length (V_deletion s))%nat -> retained_copies s j = 1%nat) ->
   (sum_listQ (map snd out) == 1)%Q).
Proof.
  intros HS HN HV Hc Hf.
  destruct (collapse_inv S L HS HN reconV2 s HV Hc) as (Hlen & Hone & Hnew & Hform).
  pose proof (fasta_sum Homoseq SNVpos s out Hnew Hf) as Hout.
  pose proof (fre_new_total s Hform) as Htot.
  split; [exact Hone|]. split; [now rewrite Hout|].
  intro Hall. rewrite Hout, Htot, <- Hone.
  transitivity (sum_listQ (map (fun j => nth j (viralseq_fre s) 0%Q)
                               (seq 0 (length (viralseq_fre s))))).
  - rewrite Hlen. apply sum_listQ_ext. intros j Hj. apply in_seq in Hj.
    rewrite Hall by lia. change (inject_Z (Z.of_nat 1)) with 1%Q. ring.
  - now rewrite map_nth_seq.
Qed.

Lemma fasta_frequencies_total_witness :
  exists s out,
    collapse [[1; 1]; [1; 1]; [1; 1]; [1; 2]; [1; 2]] 2 [[1; 1]; [1; 2]] = Ok s /\
    fasta [1; 1; 1] [0%nat; 2%nat] s = Ok out /\
    (sum_listQ (map snd out) == 1)%Q.
Proof.
  eexists _, _.
  split; [vm_compute; reflexivity|]. split; [vm_compute; reflexivity|].
  eapply (fasta_frequencies_total [[1; 1]; [1; 1]; [1; 1]; [1; 2]; [1; 2]] 2
            [[1; 1]; [1; 2]] [1; 1; 1] [0%nat; 2%nat]).
  - repeat constructor.
  - discriminate.
  - repeat constructor.
  - vm_compute; reflexivity.
  - vm_compute; reflexivity.
  - intros j Hj.
    destruct j as [|[|j]]; [reflexivity | reflexivity | cbn in Hj; lia].
Defined.

(** C7, as the specification words it, fails.  Three reads AA and two reads
    CC, haplotypes AA and CC: the rows (1,1) and (2,2) are proportional, so
    the rank is 1 and only AA is kept; CC is identical to no retained
    haplotype and its frequency 2/5 is not written.  The total is 3/5. *)
Lemma fasta_total_below_one :
  exists s out,
    collapse [[1; 1]; [1; 1]; [1; 1]; [2; 2]; [2; 2]] 2 [[1; 1]; [2; 2]] = Ok s /\
    fasta [1; 1; 1] [0%nat; 2%nat] s = Ok out /\
    out = [("AAA"%string, (3 # 5)%Q)] /\
    ~ (sum_listQ (map snd out) == 1)%Q.
Proof.
  eexists _, _.
  split; [vm_compute; reflexivity|]. split; [vm_compute; reflexivity|].
  split; [reflexivity|].
  vm_compute. discriminate.
Qed.

(** * The two implementations of the statistics *)

(** X1.  On a 2-D read matrix with at least one read the implementation
    kept in [test.py] and [ACGT_count] return the same table, the counts
    of the four nucleotides at every position.  On a matrix without reads
    the old implementation raises [IndexError], while [ACGT_count] returns
    the table of zeros. *)
Theorem preexisting_matches (L : nat) (M : matrix) :
  has_cols L M ->
  (M <> [] ->
   preexisting_ACGT_count L M = Ok (count_table L M) /\
   ACGT_rows L M = Ok (count_table L M)) /\
  (M = [] ->
   (exists msg, preexisting_ACGT_count L M = Raise (IndexError msg)) /\
   ACGT_rows L M = Ok (repeat [0; 0; 0; 0] L)).
Proof.
  intro H. split.
  - intro Hne. pose proof (ACGT_rows_ok L M H) as Hnew. split; [|exact Hnew].
    unfold preexisting_ACGT_count.
    destruct M as [|r M']; [congruence|].
    change (dim (of_rows L (r :: M')) 0) with (S (length M')).
    cbn [Nat.eqb]. rewrite <- Hnew. unfold ACGT_rows, ACGT_count.
    change (ndim (of_rows L (r :: M'))) with 2%nat. cbn [Nat.eqb negb bind].
    reflexivity.
  - intros ->. split; [eexists; reflexivity|].
    rewrite (ACGT_rows_ok L [] H). f_equal. unfold count_table.
    rewrite <- (map_const_seq [0; 0; 0; 0] 0 L). reflexivity.
Qed.

Lemma preexisting_matches_witness :
  preexisting_ACGT_count 2 [[1; 0]; [1; 4]; [2; 4]] = Ok [[2; 1; 0; 0]; [0; 0; 0; 2]] /\
  ACGT_rows 2 [[1; 0]; [1; 4]; [2; 4]] = Ok [[2; 1; 0; 0]; [0; 0; 0; 2]].
Proof.
  destruct (preexisting_matches 2 [[1; 0]; [1; 4]; [2; 4]]
              ltac:(repeat constructor)) as [H _].
  exact (H ltac:(discriminate)).
Defined.

(** * The tensor encoding and the projection *)

Section Encoding_facts.

Lemma combine_app {A B} (a1 a2 : list A) (b1 b2 : list B) :
  length a1 = length b1 ->
  combine (a1 ++ a2) (b1 ++ b2) = combine a1 b1 ++ combine a2 b2.
Proof.
  revert b1. induction a1 as [|x a1 IH]; intros [|y b1] H; try discriminate.
  - reflexivity.
  - cbn [app combine]. f_equal. apply IH. now injection H.
Qed.

Lemma combine_map_map {A B C} (f : A -> B) (g : A -> C) (l : list A) :
  combine (map f l) (map g l) = map (fun x => (f x, g x)) l.
Proof. induction l as [|x l IH]; [reflexivity|]. cbn [map combine]. now rewrite IH. Qed.

(** An indicator times the projection is the indicator: a gap has no
    indicator set. *)
Lemma ind_times_projection (v : Z) (r : list Z) :
  v <> 0 ->
  map (fun ab => (fst ab * snd ab)%Q)
      (combine (map (ind v) r) (map (fun x => if x =? 0 then 0%Q else 1%Q) r))
  = map (ind v) r.
Proof.
  intro Hv. rewrite combine_map_map, map_map. apply map_ext. intro x.
  cbn [fst snd]. unfold ind.
  destruct (Z.eqb_spec x v) as [-> | Hne].
  - replace (v =? 0) with false by (symmetry; now apply Z.eqb_neq). reflexivity.
  - destruct (x =? 0); reflexivity.
Qed.

(** The indicators of a read add up to its number of non-gap positions. *)
Lemma sum_indicators (r : list Z) :
  Forall (fun x => 0 <= x <= 4) r ->
  (sum_listQ (map (ind 1) r) + sum_listQ (map (ind 2) r)
   + sum_listQ (map (ind 3) r) + sum_listQ (map (ind 4) r)
   == inject_Z (nongap_count r))%Q.
Proof.
  induction 1 as [|x r Hx _ IH].
  - reflexivity.
  - unfold nongap_count in *. cbn [map sum_listQ sum_list fold_right].
    fold (sum_listQ (map (ind 1) r)). fold (sum_listQ (map (ind 2) r)).
    fold (sum_listQ (map (ind 3) r)). fold (sum_listQ (map (ind 4) r)).
    fold (sum_list (map (fun x0 => if x0 =? 0 then 0 else 1) r)).
    rewrite inject_Z_plus, <- IH. unfold ind.
    assert (Hc : x = 0 \/ x = 1 \/ x = 2 \/ x = 3 \/ x = 4) by lia.
    destruct Hc as [-> | [-> | [-> | [-> | ->]]]]; cbn [Z.eqb Pos.eqb]; ring.
Qed.

Lemma ind_values (v : Z) (r : list Z) :
  Forall (fun x => x = 0%Q \/ x = 1%Q) (map (ind v) r).
Proof.
  rewrite Forall_map. apply Forall_forall. intros x _. unfold ind.
  destruct (x =? v); auto.
Qed.

(** The first maximum of a non-empty list of floats. *)
Lemma argmax_from_Q (pre l : list Q) (bi : nat) (b : Q) :
  (bi < length pre)%nat -> nth bi pre 0%Q = b ->
  (forall k, (k < length pre)%nat -> (nth k pre 0 <= b)%Q) ->
  (forall k, (k < bi)%nat -> (nth k pre 0 < b)%Q) ->
  let c := argmax_from Qltb bi b (length pre) l in
  (c < length (pre ++ l))%nat /\
  (forall k, (k < length (pre ++ l))%nat ->
     (nth k (pre ++ l) 0 <= nth c (pre ++ l) 0)%Q) /\
  (forall k, (k < c)%nat -> (nth k (pre ++ l) 0 < nth c (pre ++ l) 0)%Q).
Proof.
  revert pre bi b. induction l as [|x t IH]; intros pre bi b Hbi Hb Hmax Hfirst.
  - cbn [argmax_from]. rewrite app_nil_r. rewrite Hb. auto.
  - cbn [argmax_from].
    assert (Hlen : length (pre ++ [x]) = S (length pre))
      by (rewrite length_app; simpl; lia).
    replace (pre ++ x :: t) with ((pre ++ [x]) ++ t)
      by (rewrite <- app_assoc; reflexivity).
    destruct (Qltb b x) eqn:E.
    + apply Qltb_lt in E.
      specialize (IH (pre ++ [x]) (length pre) x).
      rewrite Hlen in IH. apply IH.
      * lia.
      * rewrite app_nth2 by lia. rewrite Nat.sub_diag. reflexivity.
      * intros k Hk. destruct (Nat.eq_dec k (length pre)) as [-> | Hne].
        -- rewrite app_nth2 by lia. rewrite Nat.sub_diag. simpl. lra.
        -- rewrite app_nth1 by lia. specialize (Hmax k ltac:(lia)). lra.
      * intros k Hk. rewrite app_nth1 by lia. specialize (Hmax k ltac:(lia)). lra.
    + assert (Hge : (x <= b)%Q).
      { apply Qnot_lt_le. intro Hlt. apply Qltb_lt in Hlt. congruence. }
      specialize (IH (pre ++ [x]) bi b).
      rewrite Hlen in IH. apply IH.
      * lia.
      * rewrite app_nth1 by lia. exact Hb.
      * intros k Hk. destruct (Nat.eq_dec k (length pre)) as [-> | Hne].
        -- rewrite app_nth2 by lia. rewrite Nat.sub_diag. simpl. exact Hge.
        -- rewrite app_nth1 by lia. apply Hmax. lia.
      * intros k Hk. rewrite app_nth1 by lia. apply Hfirst. exact Hk.
Qed.

Lemma argmax_by_Q (l : list Q) :
  l <> [] ->
  (argmax_by Qltb l < length l)%nat /\
  (forall k, (k < length l)%nat -> (nth k l 0 <= nth (argmax_by Qltb l) l 0)%Q) /\
  (forall k, (k < argmax_by Qltb l)%nat -> (nth k l 0 < nth (argmax_by Qltb l) l 0)%Q).
Proof.
  destruct l as [|x t]; [congruence|]. intros _.
  unfold argmax_by.
  apply (argmax_from_Q [x] t 0 x).
  - simpl; lia.
  - reflexivity.
  - intros k Hk. simpl in Hk. assert (k = 0%nat) by lia. subst. simpl. lra.
  - intros k Hk. lia.
Qed.

(** Decoding undoes the encoding of a matrix of nucleotides. *)
Lemma decode_tensor (V : matrix) (R L : nat) :
  length V = R -> has_cols L V -> Forall (Forall (fun x => 1 <= x <= 4)) V ->
  decode (tensor V) R L = V.
Proof.
  intros HR HL Hent.
  destruct (decode_shape (tensor V) R L) as [HdR HdL].
  apply (matrix_ext R L); try assumption.
  intros i j Hi Hj.
  assert (Hrow : In (nth i V []) V) by (apply nth_In; lia).
  assert (Hx : 1 <= nth j (nth i V []) 0 <= 4).
  { rewrite Forall_forall in Hent. specialize (Hent _ Hrow).
    rewrite Forall_forall in Hent. apply Hent. apply nth_In.
    unfold has_cols in HL. rewrite Forall_forall in HL. rewrite (HL _ Hrow). exact Hj. }
  rewrite decode_entry;
    [ | rewrite length_tensor; exact HR | apply tensor_has_cols; exact HL
      | exact Hi | exact Hj ].
  cbn [seq map].
  rewrite !(nth_tensor L V i j) by (rewrite ?HR; assumption || lia).
  cbn [Z.of_nat Pos.of_succ_nat Pos.succ Z.add Pos.add].
  set (x := nth j (nth i V []) 0) in *.
  assert (Hc : x = 1 \/ x = 2 \/ x = 3 \/ x = 4) by lia.
  destruct Hc as [-> | [-> | [-> | ->]]]; reflexivity.
Qed.

End Encoding_facts.

(** X2.  The tensor of a read matrix holds only zeros and ones, and the
    ones of a read are as many as its non-gap positions: a gap sets none of
    the four indicators.  So the projection leaves the tensor unchanged:
    [TM_E * P_tensor] is [TM_E]. *)
Theorem tensor_one_hot (L : nat) (M : matrix) :
  snv_matrix L M ->
  qmap2 Qmult (tensor M) (P_tensor_of M) = tensor M /\
  forall i, (i < length M)%nat ->
    Forall (fun x => x = 0%Q \/ x = 1%Q) (nth i (tensor M) []) /\
    (sum_listQ (nth i (tensor M) []) == inject_Z (nongap_count (nth i M [])))%Q.
Proof.
  intros [Hcols Hent]. rewrite tensor_rows. split.
  - unfold qmap2, P_tensor_of. rewrite combine_map_map, map_map.
    apply map_ext. intro r. cbn [fst snd].
    rewrite !combine_app by (rewrite !length_map; reflexivity).
    rewrite !map_app.
    rewrite !ind_times_projection by lia. reflexivity.
  - intros i Hi.
    set (f := fun r => map (ind 1) r ++ map (ind 2) r ++ map (ind 3) r ++ map (ind 4) r).
    rewrite (nth_indep _ [] (f [])) by (rewrite length_map; exact Hi).
    rewrite (map_nth f). unfold f. split.
    + repeat (apply Forall_app; split); apply ind_values.
    + rewrite !sum_listQ_app.
      rewrite <- sum_indicators.
      * ring.
      * rewrite Forall_forall in Hent. apply Hent. apply nth_In. exact Hi.
Qed.

Lemma tensor_one_hot_witness :
  qmap2 Qmult (tensor [[1; 0; 4]; [0; 2; 2]]) (P_tensor_of [[1; 0; 4]; [0; 2; 2]])
  = tensor [[1; 0; 4]; [0; 2; 2]].
Proof.
  destruct (tensor_one_hot 3 [[1; 0; 4]; [0; 2; 2]]) as [H _].
  - split; repeat constructor; lia.
  - exact H.
Defined.

(** X3.  Decoding a real-valued (R, 4L) matrix always gives an (R, L)
    matrix of nucleotides 1..4, never a gap: entry (i, j) is the first of
    the four groups whose value at position j of row i is the largest. *)
Theorem decode_first_largest_group (Vt : qmatrix) (R L : nat) :
  length Vt = R -> has_cols (4 * L) Vt ->
  length (decode Vt R L) = R /\ has_cols L (decode Vt R L) /\
  forall i j, (i < R)%nat -> (j < L)%nat ->
    exists g, (g < 4)%nat /\
      nth j (nth i (decode Vt R L) []) 0 = Z.of_nat g + 1 /\
      (forall g', (g' < 4)%nat ->
         (nth (g' * L + j) (nth i Vt []) 0 <= nth (g * L + j) (nth i Vt []) 0)%Q) /\
      (forall g', (g' < g)%nat ->
         (nth (g' * L + j) (nth i Vt []) 0 < nth (g * L + j) (nth i Vt []) 0)%Q).
Proof.
  intros HR Hc.
  destruct (decode_shape Vt R L) as [H1 H2].
  split; [exact H1|]. split; [exact H2|].
  intros i j Hi Hj. rewrite decode_entry by assumption.
  set (l := map (fun g => nth (g * L + j) (nth i Vt []) 0%Q) (seq 0 4)).
  destruct (argmax_by_Q l ltac:(discriminate)) as (Hlt & Hmax & Hfirst).
  assert (Hl : length l = 4%nat) by reflexivity.
  assert (Hn : forall g, (g < 4)%nat -> nth g l 0%Q = nth (g * L + j) (nth i Vt []) 0%Q).
  { intros g Hg. destruct g as [|[|[|[|g]]]]; try lia; reflexivity. }
  exists (argmax_by Qltb l). rewrite Hl in *.
  split; [exact Hlt|]. split; [reflexivity|]. split.
  - intros g' Hg'. rewrite <- !Hn by assumption. apply Hmax. exact Hg'.
  - intros g' Hg'. rewrite <- !Hn by lia. apply Hfirst. exact Hg'.
Qed.

Lemma decode_first_largest_group_witness :
  exists g, (g < 4)%nat /\
    nth 1 (nth 0 (decode [[(1 # 2); 3; 0; 3; (1 # 2); 0; 0; (-1)]%Q] 1 2) []) 0
    = Z.of_nat g + 1.
Proof.
  destruct (decode_first_largest_group
              [[(1 # 2); 3; 0; 3; (1 # 2); 0; 0; (-1)]%Q] 1 2 eq_refl
              ltac:(repeat constructor)) as (_ & _ & H).
  destruct (H 0%nat 1%nat ltac:(lia) ltac:(lia)) as (g & Hg & He & _).
  exists g. split; assumption.
Defined.

(** * The votes at the positions that no read covers *)

Section Uncovered_facts.

Lemma fold_max_ge (t : list Z) :
  forall x y, In y (x :: t) -> y <= fold_left Z.max t x.
Proof.
  induction t as [|z t IH]; intros x y Hin.
  - destruct Hin as [-> | []]. cbn. lia.
  - cbn [fold_left]. destruct Hin as [-> | [-> | Hin]].
    + transitivity (Z.max y z); [lia|]. apply IH. now left.
    + transitivity (Z.max x y); [lia|]. apply IH. now left.
    + apply IH. now right.
Qed.

Lemma max_list_ge (l : list Z) (y : Z) : In y l -> y <= max_list l.
Proof.
  destruct l as [|x t]; [intros []|]. intro H. unfold max_list.
  now apply fold_max_ge.
Qed.

Lemma list_get_In {A} (l : list A) (k : nat) (x : A) :
  list_get l k = Ok x -> In x l.
Proof.
  unfold list_get. destruct (nth_error l k) eqn:E; [|discriminate].
  intro H. injection H as <-. eapply nth_error_In; eassumption.
Qed.

(** The nucleotide taken at an uncovered position holds the largest count
    of the row; a random number is drawn exactly when the largest count is
    not unique. *)
Lemma fallback_spec (rr : nat -> Q) (row : list Z) (n n' : nat) (v : Z) :
  row <> [] ->
  fallback rr row n = Ok (v, n') ->
  exists c, (c < length row)%nat /\ v = Z.of_nat c + 1 /\
            nth c row 0 = max_list row /\
            (forall c', (c' < length row)%nat -> nth c' row 0 <= nth c row 0) /\
            (n' = n \/ n' = S n).
Proof.
  intros Hne. unfold fallback.
  set (tem := np_where (map (fun x => x =? max_list row) row)).
  assert (Hmaxall : forall c c', (c' < length row)%nat -> nth c row 0 = max_list row ->
                                 nth c' row 0 <= nth c row 0).
  { intros c c' Hc' ->. apply max_list_ge. now apply nth_In. }
  destruct (negb (Nat.eqb (length tem) 1)).
  - destruct (list_get tem _) as [t|e] eqn:Hg; [|discriminate].
    intro H. injection H as <- <-.
    apply list_get_In in Hg. unfold tem in Hg. apply in_np_where in Hg.
    rewrite length_map in Hg. destruct Hg as [Ht Hm].
    set (f := fun x => x =? max_list row) in *.
    rewrite (nth_indep _ false (f 0)) in Hm by (rewrite length_map; exact Ht).
    rewrite (map_nth f) in Hm. unfold f in Hm. apply Z.eqb_eq in Hm.
    exists t. split; [exact Ht|]. split; [reflexivity|]. split; [exact Hm|].
    split; [|now right]. intros c' Hc'. now apply Hmaxall.
  - unfold ret. intro H. injection H as <- <-.
    destruct (argmax_list_first_max row Hne) as (Hlt & Hmax & _).
    assert (Hm : nth (argmax_list row) row 0 = max_list row).
    { apply Z.le_antisymm.
      - apply max_list_ge. now apply nth_In.
      - destruct (In_nth row (max_list row) 0 (max_list_in row Hne)) as (k & Hk & <-).
        now apply Hmax. }
    exists (argmax_list row). split; [exact Hlt|]. split; [reflexivity|].
    split; [exact Hm|]. split; [|now left]. intros c' Hc'. now apply Hmaxall.
Qed.

Lemma fill_uncovered_other (rr : nat -> Q) (prior : matrix) (js : list nat) :
  forall (row row' : list Z) (n n' : nat) (j : nat),
  foldM (fun row j => v <- fallback rr (nth j prior []) ;; ret (list_set row j v))
        js row n = Ok (row', n') ->
  ~ In j js -> nth j row' 0 = nth j row 0.
Proof.
  induction js as [|k js IH]; intros row row' n n' j Hf Hnot.
  - cbn [foldM] in Hf. unfold ret in Hf. now injection Hf as <- _.
  - cbn [foldM] in Hf. unfold bindRS at 1 in Hf. unfold bindRS at 1 in Hf.
    destruct (fallback rr (nth k prior []) n) as [[w m1]|e]; [|discriminate].
    unfold ret at 1 in Hf.
    rewrite (IH _ _ _ _ j Hf) by (intro I; apply Hnot; now right).
    apply nth_list_set_other. intro E. apply Hnot. now left.
Qed.

(** After the positions [js] are filled, each of them holds a nucleotide
    with the largest count of its row of [prior]. *)
Lemma fill_uncovered_spec (rr : nat -> Q) (prior : matrix) (js : list nat) :
  (forall j, In j js -> nth j prior [] <> []) ->
  forall (row row' : list Z) (n n' : nat),
  foldM (fun row j => v <- fallback rr (nth j prior []) ;; ret (list_set row j v))
        js row n = Ok (row', n') ->
  forall j, In j js -> (j < length row)%nat ->
    exists c, (c < length (nth j prior []))%nat /\
              nth j row' 0 = Z.of_nat c + 1 /\
              (forall c', (c' < length (nth j prior []))%nat ->
                 nth c' (nth j prior []) 0 <= nth c (nth j prior []) 0).
Proof.
  induction js as [|j0 js IH]; intros Hne row row' n n' Hf j Hj Hlt.
  - destruct Hj.
  - cbn [foldM] in Hf. unfold bindRS at 1 in Hf.
    unfold bindRS at 1 in Hf.
    destruct (fallback rr (nth j0 prior []) n) as [[v n1]|e] eqn:Hfb; [|discriminate].
    unfold ret at 1 in Hf.
    destruct (in_dec Nat.eq_dec j js) as [Hin | Hnot].
    + apply (IH (fun k Hk => Hne k (or_intror Hk)) _ _ _ _ Hf j Hin).
      now rewrite length_list_set.
    + destruct Hj as [<- | Hj]; [|contradiction].
      destruct (fallback_spec rr _ n n1 v (Hne j0 (or_introl eq_refl)) Hfb)
        as (c & Hc & -> & _ & Hmax & _).
      exists c. split; [exact Hc|]. split; [|exact Hmax].
      rewrite (fill_uncovered_other rr prior js _ _ _ _ j0 Hf Hnot).
      now apply nth_list_set_same.
Qed.

Lemma fold_list_set_same (js : list nat) (row : list Z) (j : nat) :
  In j js -> (j < length row)%nat ->
  nth j (fold_left (fun row j => list_set row j 0) js row) 0 = 0.
Proof.
  revert row. induction js as [|k js IH]; intros row Hin Hlt; [destruct Hin|].
  cbn [fold_left].
  destruct (in_dec Nat.eq_dec j js) as [Hin' | Hnot].
  - apply IH; [exact Hin' | now rewrite length_list_set].
  - destruct Hin as [-> | Hin]; [|contradiction].
    rewrite fold_list_set_other by exact Hnot. now apply nth_list_set_same.
Qed.

Lemma argmax_counts_range (reads : matrix) (j : nat) :
  1 <= Z.of_nat (argmax_list [nuc_count reads j 0; nuc_count reads j 1;
                              nuc_count reads j 2; nuc_count reads j 3]) + 1 <= 4.
Proof.
  destruct (argmax_counts_first_max reads j) as [H _]. lia.
Qed.

(** The row of a vote, position by position. *)
Lemma majority_vote_rows (rr : nat -> Q) (L : nat) (reads prior : matrix) (n : nat) :
  snv_matrix L reads -> length prior = L -> has_cols 4 prior -> unit_interval rr ->
  exists row n',
    majority_vote rr L reads prior n = Ok (row, n') /\
    length row = L /\
    (forall j, (j < L)%nat -> covered reads j = true ->
       exists c, first_max (nuc_count reads j) c /\ nth j row 0 = Z.of_nat c + 1) /\
    (forall j, (j < L)%nat -> covered reads j = false ->
       exists c, (c < 4)%nat /\ nth j row 0 = Z.of_nat c + 1 /\
                 forall c', (c' < 4)%nat ->
                   nth c' (nth j prior []) 0 <= nth c (nth j prior []) 0).
Proof.
  intros HM Hlen Hprior Hrr.
  destruct (majority_vote_ok rr L reads prior n HM Hlen Hprior Hrr)
    as (row & n' & Hmv & Hl & Hcov & _).
  exists row, n'. split; [exact Hmv|]. split; [exact Hl|]. split.
  - intros j Hj Hc. eexists. split; [apply argmax_counts_first_max|].
    now apply Hcov.
  - intros j Hj Hc.
    destruct HM as [Hcols Hent].
    unfold majority_vote in Hmv. unfold bindRS at 1 in Hmv.
    rewrite (single_stats_ok L reads Hcols) in Hmv. cbn [lift] in Hmv.
    rewrite (uncov_pos_table L reads Hent) in Hmv.
    assert (H4 : forall k, (k < L)%nat -> length (nth k prior []) = 4%nat).
    { intros k Hk. unfold has_cols in Hprior. rewrite Forall_forall in Hprior.
      apply Hprior, nth_In. lia. }
    assert (Hne : forall k, In k (filter (fun j => negb (covered reads j)) (seq 0 L)) ->
                      nth k prior [] <> []).
    { intros k Hk E. apply filter_In in Hk. destruct Hk as [Hk _].
      apply in_seq in Hk. specialize (H4 k ltac:(lia)). rewrite E in H4. discriminate. }
    destruct (fill_uncovered_spec rr prior _ Hne _ _ _ _ Hmv j) as (c & Hc4 & Hv & Hmax).
    + apply filter_In. split; [apply in_seq; lia | now rewrite Hc].
    + now rewrite length_map, length_count_table.
    + rewrite (H4 j Hj) in *. exists c. auto.
Qed.

End Uncovered_facts.

(** X4.  A row of [V_major] or of [reconV2] never holds a gap: every entry
    is a nucleotide 1..4.  At a position that no read of the haplotype
    covers the entry is a nucleotide with the largest count among all the
    reads ([ACGTcount], [ori_ACGTcount]). *)
Theorem majority_vote_no_gap (rr : nat -> Q) (L : nat) (reads prior : matrix)
    (n : nat) :
  snv_matrix L reads -> length prior = L -> has_cols 4 prior -> unit_interval rr ->
  exists row n',
    majority_vote rr L reads prior n = Ok (row, n') /\
    length row = L /\
    Forall (fun x => 1 <= x <= 4) row /\
    (forall j, (j < L)%nat -> covered reads j = false ->
       exists c, (c < 4)%nat /\ nth j row 0 = Z.of_nat c + 1 /\
                 forall c', (c' < 4)%nat ->
                   nth c' (nth j prior []) 0 <= nth c (nth j prior []) 0).
Proof.
  intros HM Hlen Hprior Hrr.
  destruct (majority_vote_rows rr L reads prior n HM Hlen Hprior Hrr)
    as (row & n' & Hmv & Hl & Hcov & Hunc).
  exists row, n'. split; [exact Hmv|]. split; [exact Hl|]. split; [|exact Hunc].
  apply Forall_forall. intros x Hx.
  destruct (In_nth row x 0 Hx) as (j & Hj & <-). rewrite Hl in Hj.
  destruct (covered reads j) eqn:Hc.
  - destruct (Hcov j Hj Hc) as (c & [Hc4 _] & ->). lia.
  - destruct (Hunc j Hj Hc) as (c & Hc4 & -> & _). lia.
Qed.

Lemma majority_vote_no_gap_witness :
  exists row n',
    majority_vote (fun _ => (1 # 2)%Q) 2 [[1; 0]; [2; 0]]
                  [[5; 5; 0; 0]; [0; 3; 0; 3]] 0%nat = Ok (row, n') /\
    Forall (fun x => 1 <= x <= 4) row.
Proof.
  destruct (majority_vote_no_gap (fun _ => (1 # 2)%Q) 2 [[1; 0]; [2; 0]]
              [[5; 5; 0; 0]; [0; 3; 0; 3]] 0%nat)
    as (row & n' & H & _ & Hr & _).
  - split; repeat constructor; lia.
  - reflexivity.
  - repeat constructor.
  - intro k. split; [discriminate | reflexivity].
  - exists row, n'. split; assumption.
Defined.

(** X5.  A row of [V_deletion] holds a gap exactly at the positions that no
    read of the haplotype covers, and a nucleotide 1..4 elsewhere. *)
Theorem deletion_vote_gaps (L : nat) (reads : matrix) :
  snv_matrix L reads ->
  exists row,
    deletion_vote L reads = Ok row /\
    length row = L /\
    Forall (fun x => 0 <= x <= 4) row /\
    (forall j, (j < L)%nat -> (nth j row 0 = 0 <-> covered reads j = false)).
Proof.
  intros HM. pose proof HM as [Hcols Hent].
  assert (Hrow : forall j, (j < L)%nat ->
            nth j (fold_left (fun row j => list_set row j 0)
                     (filter (fun j => negb (covered reads j)) (seq 0 L))
                     (map (fun r => Z.of_nat (argmax_list r) + 1) (count_table L reads))) 0
            = if covered reads j then
                Z.of_nat (argmax_list [nuc_count reads j 0; nuc_count reads j 1;
                                       nuc_count reads j 2; nuc_count reads j 3]) + 1
              else 0).
  { intros j Hj. destruct (covered reads j) eqn:Hc.
    - rewrite fold_list_set_other.
      + now apply nth_vote_row.
      + rewrite filter_In. intros [_ Hneg]. rewrite Hc in Hneg. discriminate.
    - apply fold_list_set_same.
      + apply filter_In. split; [apply in_seq; lia | now rewrite Hc].
      + now rewrite length_map, length_count_table. }
  unfold deletion_vote. rewrite (single_stats_ok L reads Hcols). cbn [bind].
  rewrite (uncov_pos_table L reads Hent).
  eexists. split; [reflexivity|].
  assert (Hlen : length (fold_left (fun row j => list_set row j 0)
                     (filter (fun j => negb (covered reads j)) (seq 0 L))
                     (map (fun r => Z.of_nat (argmax_list r) + 1) (count_table L reads)))
                 = L).
  { rewrite fold_list_set_length, length_map. apply length_count_table. }
  split; [exact Hlen|]. split.
  - apply Forall_forall. intros x Hx.
    destruct (In_nth _ x 0 Hx) as (j & Hj & <-). rewrite Hlen in Hj.
    rewrite Hrow by exact Hj. pose proof (argmax_counts_range reads j).
    destruct (covered reads j); lia.
  - intros j Hj. rewrite Hrow by exact Hj.
    pose proof (argmax_counts_range reads j).
    destruct (covered reads j); split; try congruence; lia.
Qed.

Lemma deletion_vote_gaps_witness :
  deletion_vote 3 [[1; 0; 2]; [1; 0; 4]] = Ok [1; 0; 2].
Proof.
  destruct (deletion_vote_gaps 3 [[1; 0; 2]; [1; 0; 4]]) as (row & H & _).
  - split; repeat constructor; lia.
  - rewrite H. vm_compute in H. injection H as <-. reflexivity.
Defined.

(** X6.  The additional majority vote over the selected reads: where a
    selected read covers the position the dominant haplotype gets the first
    nucleotide with the largest count among the selected reads, elsewhere it
    keeps the nucleotide decoded from the factorization.  The recorded
    haplotype has no gap. *)
Theorem additional_vote_spec (L : nat) (selected addi_count : matrix)
    (V_flag : list Z) :
  snv_matrix L selected -> ACGT_rows L selected = Ok addi_count ->
  length V_flag = L -> Forall (fun x => 1 <= x <= 4) V_flag ->
  let V := additional_vote addi_count V_flag in
  length V = L /\
  Forall (fun x => 1 <= x <= 4) V /\
  forall j, (j < L)%nat ->
    (covered selected j = true ->
     exists c, first_max (nuc_count selected j) c /\ nth j V 0 = Z.of_nat c + 1) /\
    (covered selected j = false -> nth j V 0 = nth j V_flag 0).
Proof.
  intros [Hcols Hent] Hcount HL HV V.
  rewrite (ACGT_rows_ok L selected Hcols) in Hcount. injection Hcount as <-.
  assert (Hlen : length V = L).
  { unfold V, additional_vote. rewrite length_map, length_combine, length_count_table. lia. }
  assert (Hnth : forall j, (j < L)%nat ->
            nth j V 0
            = if covered selected j then
                Z.of_nat (argmax_list [nuc_count selected j 0; nuc_count selected j 1;
                                       nuc_count selected j 2; nuc_count selected j 3]) + 1
              else nth j V_flag 0).
  { intros j Hj. unfold V, additional_vote.
    rewrite (combine_nth_seq [] 0 (count_table L selected) V_flag L)
      by (rewrite ?length_count_table; auto).
    rewrite map_map.
    set (f := fun j0 => _).
    rewrite (nth_indep _ 0 (f 0%nat)) by (rewrite length_map, length_seq; exact Hj).
    rewrite (map_nth f), seq_nth by exact Hj. rewrite Nat.add_0_l. unfold f.
    cbn [fst snd]. rewrite (uncovered_row L selected j Hent Hj).
    rewrite nth_count_table by exact Hj.
    destruct (covered selected j); cbn [negb]; lia. }
  split; [exact Hlen|]. split.
  - apply Forall_forall. intros x Hx.
    destruct (In_nth V x 0 Hx) as (j & Hj & <-). rewrite Hlen in Hj.
    rewrite Hnth by exact Hj. pose proof (argmax_counts_range selected j).
    destruct (covered selected j); [lia|].
    rewrite Forall_forall in HV. apply HV, nth_In. lia.
  - intros j Hj. rewrite Hnth by exact Hj. split; intros ->; [|reflexivity].
    eexists. split; [apply argmax_counts_first_max | reflexivity].
Qed.

Lemma additional_vote_spec_witness :
  additional_vote [[1; 2; 0; 0]; [0; 0; 0; 0]] [4; 3] = [2; 3].
Proof.
  destruct (additional_vote_spec 2 [[1; 0]; [2; 0]; [2; 0]]
              [[1; 2; 0; 0]; [0; 0; 0; 0]] [4; 3]) as (_ & _ & H).
  - split; repeat constructor; lia.
  - reflexivity.
  - reflexivity.
  - repeat constructor; lia.
  - reflexivity.
Defined.

(** * The assignment of the reads to the haplotypes *)

Section Assignment_facts.

(** The first minimum of a non-empty list of floats. *)
Lemma argmin_from_Q (pre l : list Q) (bi : nat) (b : Q) :
  (bi < length pre)%nat -> nth bi pre 0%Q = b ->
  (forall k, (k < length pre)%nat -> (b <= nth k pre 0)%Q) ->
  (forall k, (k < bi)%nat -> (b < nth k pre 0)%Q) ->
  let c := argmax_from (fun x y => Qltb y x) bi b (length pre) l in
  (c < length (pre ++ l))%nat /\
  (forall k, (k < length (pre ++ l))%nat ->
     (nth c (pre ++ l) 0 <= nth k (pre ++ l) 0)%Q) /\
  (forall k, (k < c)%nat -> (nth c (pre ++ l) 0 < nth k (pre ++ l) 0)%Q).
Proof.
  revert pre bi b. induction l as [|x t IH]; intros pre bi b Hbi Hb Hmin Hfirst.
  - cbn [argmax_from]. rewrite app_nil_r. rewrite Hb. auto.
  - cbn [argmax_from].
    assert (Hlen : length (pre ++ [x]) = S (length pre))
      by (rewrite length_app; simpl; lia).
    replace (pre ++ x :: t) with ((pre ++ [x]) ++ t)
      by (rewrite <- app_assoc; reflexivity).
    destruct (Qltb x b) eqn:E.
    + apply Qltb_lt in E.
      specialize (IH (pre ++ [x]) (length pre) x).
      rewrite Hlen in IH. apply IH.
      * lia.
      * rewrite app_nth2 by lia. rewrite Nat.sub_diag. reflexivity.
      * intros k Hk. destruct (Nat.eq_dec k (length pre)) as [-> | Hne].
        -- rewrite app_nth2 by lia. rewrite Nat.sub_diag. simpl. lra.
        -- rewrite app_nth1 by lia. specialize (Hmin k ltac:(lia)). lra.
      * intros k Hk. rewrite app_nth1 by lia. specialize (Hmin k ltac:(lia)). lra.
    + assert (Hge : (b <= x)%Q).
      { apply Qnot_lt_le. intro Hlt. apply Qltb_lt in Hlt. congruence. }
      specialize (IH (pre ++ [x]) bi b).
      rewrite Hlen in IH. apply IH.
      * lia.
      * rewrite app_nth1 by lia. exact Hb.
      * intros k Hk. destruct (Nat.eq_dec k (length pre)) as [-> | Hne].
        -- rewrite app_nth2 by lia. rewrite Nat.sub_diag. simpl. exact Hge.
        -- rewrite app_nth1 by lia. apply Hmin. lia.
      * intros k Hk. rewrite app_nth1 by lia. apply Hfirst. exact Hk.
Qed.

Lemma argmin_listQ_first_min (l : list Q) :
  l <> [] ->
  (argmin_listQ l < length l)%nat /\
  (forall k, (k < length l)%nat -> (nth (argmin_listQ l) l 0 <= nth k l 0)%Q) /\
  (forall k, (k < argmin_listQ l)%nat -> (nth (argmin_listQ l) l 0 < nth k l 0)%Q).
Proof.
  destruct l as [|x t]; [congruence|]. intros _.
  unfold argmin_listQ, argmax_by.
  apply (argmin_from_Q [x] t 0 x).
  - simpl; lia.
  - reflexivity.
  - intros k Hk. simpl in Hk. assert (k = 0%nat) by lia. subst. simpl. lra.
  - intros k Hk. lia.
Qed.

Lemma length_update_U (TM_E P_tensor Vt : qmatrix) (R : nat) :
  length P_tensor = length TM_E ->
  length (update_U TM_E P_tensor Vt R) = length TM_E.
Proof.
  intro H. unfold update_U. rewrite length_map, length_combine. lia.
Qed.

Lemma nth_update_U (TM_E P_tensor Vt : qmatrix) (R i : nat) :
  length P_tensor = length TM_E -> (i < length TM_E)%nat ->
  nth i (update_U TM_E P_tensor Vt R) 0%nat
  = argmin_listQ
      (map (fun r => sq_dist (nth i TM_E []) (nth r Vt []) (nth i P_tensor []))
           (seq 0 R)).
Proof.
  intros Hlen Hi. unfold update_U.
  rewrite (combine_nth_seq [] [] TM_E P_tensor (length TM_E)) by auto.
  rewrite map_map.
  set (f := fun j => _).
  rewrite (nth_indep _ 0%nat (f 0%nat)) by (rewrite length_map, length_seq; exact Hi).
  rewrite (map_nth f), seq_nth by exact Hi. reflexivity.
Qed.

Lemma update_U_in_range (TM_E P_tensor Vt : qmatrix) (R : nat) :
  (0 < R)%nat ->
  Forall (fun a => (a < R)%nat) (update_U TM_E P_tensor Vt R).
Proof.
  intro HR. unfold update_U. rewrite Forall_map. apply Forall_forall.
  intros tp _.
  set (l := map _ (seq 0 R)).
  assert (Hl : length l = R) by (unfold l; now rewrite length_map, length_seq).
  destruct (argmin_listQ_first_min l) as [H _].
  - intro E. rewrite E in Hl. simpl in Hl. lia.
  - now rewrite Hl in H.
Qed.

(** A column of [U] adds up to the number of reads of its haplotype. *)
Lemma nth_col_sums (R : nat) (index : list nat) (r : nat) :
  (r < R)%nat ->
  nth r (col_sums R (BV_rows R index)) 0
  = Z.of_nat (length (filter (fun a => Nat.eqb a r) index)).
Proof.
  intro Hr. unfold col_sums.
  set (f := fun r0 => sum_list (map (fun u => nth r0 u 0) (BV_rows R index))).
  rewrite (nth_indep _ 0 (f 0%nat)) by (rewrite length_map, length_seq; exact Hr).
  rewrite (map_nth f), seq_nth by exact Hr. rewrite Nat.add_0_l. unfold f, BV_rows.
  rewrite map_map.
  rewrite <- (sum_indicator nat (fun a => Nat.eqb a r)).
  f_equal. apply map_ext. intro a.
  set (g := fun r0 => if Nat.eqb r0 a then 1 else 0).
  rewrite (nth_indep _ 0 (g 0%nat)) by (rewrite length_map, length_seq; exact Hr).
  rewrite (map_nth g), seq_nth by exact Hr. rewrite Nat.add_0_l. unfold g.
  rewrite (Nat.eqb_sym r a). reflexivity.
Qed.

Lemma col_sums_counts (R : nat) (index : list nat) :
  col_sums R (BV_rows R index)
  = map (fun r => Z.of_nat (length (filter (fun a => Nat.eqb a r) index))) (seq 0 R).
Proof.
  apply (nth_ext _ _ 0 0).
  - unfold col_sums. now rewrite !length_map.
  - intros r Hr. unfold col_sums in Hr. rewrite length_map, length_seq in Hr.
    rewrite nth_col_sums by exact Hr.
    set (f := fun r0 => Z.of_nat (length (filter (fun a => Nat.eqb a r0) index))).
    rewrite (nth_indep _ 0 (f 0%nat)) by (rewrite length_map, length_seq; exact Hr).
    rewrite (map_nth f), seq_nth by exact Hr. reflexivity.
Qed.

Lemma domi_flag_in_range (R : nat) (index : list nat) :
  (0 < R)%nat -> (argmax_list (col_sums R (BV_rows R index)) < R)%nat.
Proof.
  intro HR.
  assert (Hl : length (col_sums R (BV_rows R index)) = R)
    by (unfold col_sums; now rewrite length_map, length_seq).
  destruct (argmax_list_first_max (col_sums R (BV_rows R index))) as [H _].
  - intro E. rewrite E in Hl. simpl in Hl. lia.
  - now rewrite Hl in H.
Qed.

End Assignment_facts.

(** X7.  The update of [U] assigns every read to exactly one of the [R]
    haplotypes, the first one at the smallest projected distance from the
    read.  Column [r] of [U] adds up to the number of reads assigned to
    haplotype [r], so the columns add up to the number of reads, and
    [domi_flag] is the first haplotype with the largest number of reads. *)
Theorem assignment_nearest (TM_E P_tensor Vt : qmatrix) (R : nat) :
  (0 < R)%nat -> length P_tensor = length TM_E ->
  let min_index := update_U TM_E P_tensor Vt R in
  let U := BV_rows R min_index in
  let members := fun r => Z.of_nat (length (filter (fun a => Nat.eqb a r) min_index)) in
  let domi_flag := argmax_list (col_sums R U) in
  length min_index = length TM_E /\
  (forall i, (i < length TM_E)%nat ->
     let a := nth i min_index 0%nat in
     let dist := fun r => sq_dist (nth i TM_E []) (nth r Vt []) (nth i P_tensor []) in
     (a < R)%nat /\
     (forall r, (r < R)%nat -> (dist a <= dist r)%Q) /\
     (forall r, (r < a)%nat -> (dist a < dist r)%Q)) /\
  (forall r, (r < R)%nat -> nth r (col_sums R U) 0 = members r) /\
  sum_list (col_sums R U) = Z.of_nat (length TM_E) /\
  (domi_flag < R)%nat /\
  (forall r, (r < R)%nat -> members r <= members domi_flag) /\
  (forall r, (r < domi_flag)%nat -> members r < members domi_flag).
Proof.
  intros HR Hlen min_index U members domi_flag.
  assert (Hl : length min_index = length TM_E) by (apply length_update_U; exact Hlen).
  assert (Hrange : Forall (fun a => (a < R)%nat) min_index)
    by (apply update_U_in_range; exact HR).
  assert (Hcols : forall r, (r < R)%nat -> nth r (col_sums R U) 0 = members r)
    by (intros r Hr; apply nth_col_sums; exact Hr).
  assert (Hcl : length (col_sums R U) = R)
    by (unfold col_sums; now rewrite length_map, length_seq).
  assert (Hd : (domi_flag < R)%nat) by (apply domi_flag_in_range; exact HR).
  split; [exact Hl|]. split; [|split; [exact Hcols|split; [|split; [exact Hd|split]]]].
  - intros i Hi a dist. unfold a, min_index.
    rewrite nth_update_U by assumption.
    set (l := map _ (seq 0 R)).
    assert (Hll : length l = R) by (unfold l; now rewrite length_map, length_seq).
    assert (Hnth : forall r, (r < R)%nat -> nth r l 0%Q = dist r).
    { intros r Hr. unfold l.
      rewrite (nth_indep _ 0%Q (dist 0%nat)) by (rewrite length_map, length_seq; exact Hr).
      rewrite (map_nth dist), seq_nth by exact Hr. reflexivity. }
    destruct (argmin_listQ_first_min l) as (H1 & H2 & H3).
    { intro E. rewrite E in Hll. simpl in Hll. lia. }
    rewrite Hll in *. split; [exact H1|]. split.
    + intros r Hr. rewrite <- !Hnth by assumption. now apply H2.
    + intros r Hr. rewrite <- !Hnth by lia. now apply H3.
  - unfold U. rewrite col_sums_counts.
    rewrite (count_partition min_index R Hrange). now rewrite Hl.
  - intros r Hr. rewrite <- !Hcols by assumption.
    destruct (argmax_list_first_max (col_sums R U)) as (_ & H2 & _).
    { intro E. rewrite E in Hcl. simpl in Hcl. lia. }
    apply H2. now rewrite Hcl.
  - intros r Hr. rewrite <- !Hcols by (unfold domi_flag in *; lia).
    destruct (argmax_list_first_max (col_sums R U)) as (_ & _ & H3).
    { intro E. rewrite E in Hcl. simpl in Hcl. lia. }
    apply H3. exact Hr.
Qed.

Lemma assignment_nearest_witness :
  update_U (tensor [[1]; [2]; [2]]) (P_tensor_of [[1]; [2]; [2]])
           [[1; 0; 0; 0]; [0; 1; 0; 0]]%Q 2 = [0; 1; 1]%nat /\
  sum_list (col_sums 2 (BV_rows 2 [0; 1; 1]%nat)) = 3.
Proof.
  destruct (assignment_nearest (tensor [[1]; [2]; [2]]) (P_tensor_of [[1]; [2]; [2]])
              [[1; 0; 0; 0]; [0; 1; 0; 0]]%Q 2 ltac:(lia) eq_refl)
    as (_ & _ & _ & H & _).
  split; [reflexivity | exact H].
Defined.

(** * The result of the alternating minimization *)

Section AM_result_facts.

Variable rr : nat -> Q.
Variable L : nat.
Variable reads : matrix.
Variable R : nat.

Hypothesis Hrr : unit_interval rr.
Hypothesis HM : snv_matrix L reads.

Lemma majority_vote_range (rows prior : matrix) (n : nat) (row : list Z) (n' : nat) :
  snv_matrix L rows -> length prior = L -> has_cols 4 prior ->
  majority_vote rr L rows prior n = Ok (row, n') ->
  length row = L /\ Forall (fun x => 1 <= x <= 4) row.
Proof.
  intros Hrows Hlen Hprior Hmv.
  destruct (majority_vote_rows rr L rows prior n Hrows Hlen Hprior Hrr)
    as (row0 & n0 & Hmv0 & Hl & Hcov & Hunc).
  rewrite Hmv in Hmv0. injection Hmv0 as <- <-.
  split; [exact Hl|].
  apply Forall_forall. intros x Hx.
  destruct (In_nth row x 0 Hx) as (j & Hj & <-). rewrite Hl in Hj.
  destruct (covered rows j) eqn:Hc.
  - destruct (Hcov j Hj Hc) as (c & [Hc4 _] & ->). lia.
  - destruct (Hunc j Hj Hc) as (c & Hc4 & -> & _). lia.
Qed.

(** The haplotypes of a vote: [R] rows of nucleotides. *)
Lemma vote_all_range (index : list nat) (prior : matrix) (n : nat)
    (V : matrix) (n' : nat) :
  length prior = L -> has_cols 4 prior ->
  vote_all rr L reads index prior R n = Ok (V, n') ->
  length V = R /\ has_cols L V /\ Forall (Forall (fun x => 1 <= x <= 4)) V.
Proof.
  intros Hlen Hprior Hv. unfold vote_all in Hv.
  assert (Hf : forall i m row m',
             majority_vote rr L (select_rows (eq_mask index i) reads) prior m
             = Ok (row, m') ->
             length row = L /\ Forall (fun x => 1 <= x <= 4) row).
  { intros i m row m' Hmv.
    eapply majority_vote_range; [ | exact Hlen | exact Hprior | exact Hmv].
    apply select_rows_snv. exact HM. }
  destruct (mapM_Forall
              (fun row => length row = L /\ Forall (fun x => 1 <= x <= 4) row)
              (fun i => majority_vote rr L (select_rows (eq_mask index i) reads) prior)
              (seq 0 R) Hf n V n' Hv) as [HF Hl].
  rewrite length_seq in Hl. split; [exact Hl|]. split.
  - unfold has_cols. eapply Forall_impl; [|exact HF]. now intros row [H _].
  - eapply Forall_impl; [|exact HF]. now intros row [_ H].
Qed.

Variable prior : matrix.
Hypothesis Hprior_len : length prior = L.
Hypothesis Hprior_cols : has_cols 4 prior.

Lemma am_step_voted (s s' : am_state) (n n' : nat) :
  am_step rr L reads (tensor reads) (P_tensor_of reads) prior R s n = Ok (s', n') ->
  voted L R reads s'.
Proof.
  unfold am_step. unfold bindRS.
  destruct (vote_all rr L reads _ prior R n) as [[V n1]|e] eqn:Hv; [|discriminate].
  unfold ret. intro H. injection H as <- <-.
  destruct (vote_all_range _ prior n V n1 Hprior_len Hprior_cols Hv) as (H1 & H2 & H3).
  unfold voted. cbn [ite min_index U Vt].
  split; [lia|]. split.
  - rewrite length_update_U; [apply length_tensor|].
    unfold P_tensor_of. now rewrite length_map, length_tensor.
  - split; [reflexivity|]. exists V. auto.
Qed.

Lemma am_loop_voted (fuel : nat) :
  forall s n s' n',
    voted L R reads s ->
    am_loop rr L fuel reads (tensor reads) (P_tensor_of reads) prior R s n = Ok (s', n') ->
    voted L R reads s'.
Proof.
  induction fuel as [|fuel IH]; intros s n s' n' Hv Hl; cbn [am_loop] in Hl.
  - unfold ret in Hl. now injection Hl as <- _.
  - destruct (am_continue s).
    + unfold bindRS in Hl.
      destruct (am_step rr L reads _ _ prior R s n) as [[s1 n1]|e] eqn:Hs; [|discriminate].
      apply (IH s1 n1 s' n'); [|exact Hl].
      eapply am_step_voted; eassumption.
    + unfold ret in Hl. now injection Hl as <- _.
Qed.

(** The loop makes a first pass whenever its condition holds at the start. *)
Lemma am_loop_from_start (s0 : am_state) (n : nat) :
  am_continue s0 = true -> ite s0 = 0%nat ->
  exists s n',
    am_loop rr L max_ite reads (tensor reads) (P_tensor_of reads) prior R s0 n
    = Ok (s, n') /\
    am_continue s = false /\ (ite s <= max_ite)%nat /\ voted L R reads s.
Proof.
  intros Hc H0.
  destruct (am_loop_ends rr L reads prior (tensor reads) (P_tensor_of reads) R
              Hrr HM Hprior_len Hprior_cols max_ite s0 n)
    as (s & n' & Hloop & Hcont & Hb); [lia|].
  exists s, n'. split; [exact Hloop|]. split; [exact Hcont|].
  split; [apply Hb; rewrite H0; lia|].
  change max_ite with (S 1999) in Hloop.
  cbn [am_loop] in Hloop. rewrite Hc in Hloop. unfold bindRS in Hloop.
  destruct (am_step rr L reads _ _ prior R s0 n) as [[s1 n1]|e] eqn:Hs; [|discriminate].
  apply (am_loop_voted 1999 s1 n1 s n'); [|exact Hloop].
  eapply am_step_voted; eassumption.
Qed.

End AM_result_facts.

(** X8.  The alternating minimization fails exactly when the SVD fails, and
    with the same exception.  Otherwise it makes between 1 and 2000 passes
    and returns the statistics of the reads; every read is assigned, [U] is
    the indicator matrix of the assignment, and [Vt] is the tensor of the
    last majority vote, so the matrix [V] decoded at line 302 is that vote:
    [R] haplotypes over the nucleotides 1..4. *)
Theorem alternating_minimization_result (rr : nat -> Q)
    (svds : qmatrix -> nat -> result qmatrix) (L : nat) (reads : matrix)
    (R svd_flag n : nat) :
  unit_interval rr -> snv_matrix L reads -> (0 < R)%nat -> (0 < L)%nat ->
  (forall e, svds (tensor reads) R = Raise e ->
     alternating_minimization rr svds L reads R svd_flag n = Raise e) /\
  (forall Vt0, svds (tensor reads) R = Ok Vt0 ->
     exists s n',
       alternating_minimization rr svds L reads R svd_flag n
       = Ok (s, count_table L reads, n') /\
       (1 <= ite s <= max_ite)%nat /\
       length (min_index s) = length reads /\
       U s = BV_rows R (min_index s) /\
       exists V, length V = R /\ has_cols L V /\
                 Forall (Forall (fun x => 1 <= x <= 4)) V /\
                 Vt s = tensor V /\ decode (Vt s) R L = V).
Proof.
  intros Hrr HM HR HL. pose proof HM as [Hcols _]. split.
  - intros e He. unfold alternating_minimization, am_init.
    unfold bindRS at 1. rewrite He. reflexivity.
  - intros Vt0 HVt. unfold alternating_minimization, am_init.
    unfold bindRS at 1. rewrite HVt. cbn [bind lift].
    unfold bindRS at 1. rewrite (ACGT_rows_ok L reads Hcols). cbn [lift].
    unfold bindRS at 1.
    match goal with
    | |- context [am_loop _ _ _ _ _ _ _ _ ?s0 n] =>
        destruct (am_loop_from_start rr L reads R Hrr HM (count_table L reads)
                    (length_count_table L reads)
                    ltac:(unfold has_cols, count_table; rewrite Forall_map;
                          apply Forall_forall; intros; reflexivity)
                    s0 n eq_refl eq_refl)
          as (s & n' & Hloop & _ & Hmax & Hv)
    end.
    rewrite Hloop. unfold ret.
    destruct Hv as (H1 & H2 & H3 & V & HV1 & HV2 & HV3 & HV4).
    exists s, n'. split; [reflexivity|]. split; [lia|]. split; [exact H2|].
    split; [exact H3|]. exists V. repeat split; try assumption.
    rewrite HV4. now apply decode_tensor.
Qed.

Lemma alternating_minimization_result_witness :
  exists s n',
    alternating_minimization (fun _ => 0%Q)
      (fun _ _ => Ok [[2 # 1; 2 # 1; 0; 0; 0; 0; 0; 0]%Q]) 2
      (repeat [1; 1] 32) 1 1 0%nat
    = Ok (s, count_table 2 (repeat [1; 1] 32), n') /\
    (1 <= ite s <= max_ite)%nat.
Proof.
  destruct (alternating_minimization_result (fun _ => 0%Q)
              (fun _ _ => Ok [[2 # 1; 2 # 1; 0; 0; 0; 0; 0; 0]%Q]) 2
              (repeat [1; 1] 32) 1 1 0%nat) as [_ H].
  - intro k. split; [discriminate | reflexivity].
  - split; repeat constructor; lia.
  - lia.
  - lia.
  - destruct (H _ eq_refl) as (s & n' & H1 & H2 & _).
    exists s, n'. split; assumption.
Defined.

(** * Removing the assigned reads *)

Section Delete_facts.

Lemma filter_map_comm {A B} (g : A -> B) (f : B -> bool) (l : list A) :
  filter f (map g l) = map g (filter (fun a => f (g a)) l).
Proof.
  induction l as [|a l IH]; [reflexivity|].
  cbn [map filter]. destruct (f (g a)); cbn [map]; now rewrite IH.
Qed.

Lemma combine_seq_nth {A} (d : A) (l : list A) :
  combine (seq 0 (length l)) l = map (fun i => (i, nth i l d)) (seq 0 (length l)).
Proof.
  rewrite (combine_nth_seq 0%nat d (seq 0 (length l)) l (length l))
    by (rewrite ?length_seq; reflexivity).
  apply map_ext_in. intros i Hi. apply in_seq in Hi.
  rewrite seq_nth by lia. reflexivity.
Qed.

(** [np.delete] keeps the rows whose number is not in [index]. *)
Lemma delete_rows_nth {A} (d : A) (l : list A) (index : list nat) :
  delete_rows l index
  = map (fun i => nth i l d)
        (filter (fun i => negb (existsb (Nat.eqb i) index)) (seq 0 (length l))).
Proof.
  unfold delete_rows. rewrite (combine_seq_nth d).
  rewrite filter_map_comm, map_map. reflexivity.
Qed.

Lemma existsb_filter_seq (p : nat -> bool) (n i : nat) :
  (i < n)%nat ->
  existsb (Nat.eqb i) (filter p (seq 0 n)) = p i.
Proof.
  intro Hi. destruct (p i) eqn:E.
  - apply existsb_exists. exists i. split; [|apply Nat.eqb_refl].
    apply filter_In. split; [apply in_seq; lia | exact E].
  - destruct (existsb _ _) eqn:Ex; [|reflexivity].
    apply existsb_exists in Ex. destruct Ex as (k & Hk & Heq).
    apply Nat.eqb_eq in Heq. subst k. apply filter_In in Hk. destruct Hk as [_ Hk].
    congruence.
Qed.

Lemma delete_filtered {A} (d : A) (l : list A) (p : nat -> bool) :
  delete_rows l (filter p (seq 0 (length l)))
  = map (fun i => nth i l d) (filter (fun i => negb (p i)) (seq 0 (length l))).
Proof.
  rewrite (delete_rows_nth d). f_equal. apply filter_ext_in.
  intros i Hi. apply in_seq in Hi. now rewrite existsb_filter_seq by lia.
Qed.

Lemma filter_partition {A} (p : A -> bool) (l : list A) :
  Permutation (filter p l ++ filter (fun a => negb (p a)) l) l.
Proof.
  induction l as [|a l IH]; [constructor|].
  cbn [filter]. destruct (p a); cbn [negb app].
  - now constructor.
  - apply Permutation_sym, Permutation_cons_app, Permutation_sym. exact IH.
Qed.

Lemma filter_length_split {A} (p : A -> bool) (l : list A) :
  (length (filter p l) + length (filter (fun a => negb (p a)) l) = length l)%nat.
Proof.
  rewrite <- length_app. apply Permutation_length, filter_partition.
Qed.

Lemma filter_seq_increasing (p : nat -> bool) (n : nat) :
  forall start i j,
    (i < j)%nat -> (j < length (filter p (seq start n)))%nat ->
    (nth i (filter p (seq start n)) 0 < nth j (filter p (seq start n)) 0)%nat.
Proof.
  assert (Hge : forall start m k, In k (filter p (seq start m)) -> (start <= k)%nat).
  { intros start m k Hk. apply filter_In in Hk. destruct Hk as [Hk _].
    apply in_seq in Hk. lia. }
  induction n as [|n IH]; intros start i j Hij Hj.
  - simpl in Hj. lia.
  - cbn [seq filter] in *. destruct (p start).
    + cbn [length] in Hj. destruct j as [|j]; [lia|].
      destruct i as [|i]; cbn [nth].
      * assert (H : (S start <= nth j (filter p (seq (S start) n)) 0)%nat).
        { apply (Hge (S start) n). apply nth_In. lia. }
        lia.
      * apply IH; lia.
    + apply IH; assumption.
Qed.

Lemma selection_facts
    (binom_pmf : Z -> Z -> float -> float) (seq_err : float)
    (ACGTcount M_E : matrix)
    (V_flag mis_cri : list Z) :
  length mis_cri = length M_E ->
  let index := select_reads binom_pmf seq_err ACGTcount M_E V_flag mis_cri in
  Permutation (take_rows M_E index ++ delete_rows M_E index) M_E /\
  (length index + length (delete_rows M_E index) = length M_E)%nat /\
  (forall i j, (i < j)%nat -> (j < length index)%nat ->
     (nth i index 0 < nth j index 0)%nat) /\
  Forall (fun i => (i < length M_E)%nat) index /\
  length (delete_rows mis_cri index) = length (delete_rows M_E index) /\
  combine (delete_rows M_E index) (delete_rows mis_cri index)
  = delete_rows (combine M_E mis_cri) index.
Proof.
  intros Hlen index. unfold index, select_reads.
  set (p := fun i => selects binom_pmf seq_err ACGTcount V_flag (nth i M_E []) (nth i mis_cri 0)).
  rewrite (delete_filtered [] M_E p).
  pose proof (delete_filtered 0 mis_cri p) as Hmis. rewrite Hlen in Hmis.
  split; [|split; [|split; [|split; [|split]]]].
  - unfold take_rows. rewrite <- map_app.
    rewrite <- (map_nth_seq [] M_E) at 3.
    apply Permutation_map, filter_partition.
  - rewrite length_map.
    pose proof (filter_length_split p (seq 0 (length M_E))) as H.
    now rewrite length_seq in H.
  - intros i j. apply (filter_seq_increasing p (length M_E) 0).
  - apply Forall_forall. intros i Hi. apply filter_In in Hi.
    destruct Hi as [Hi _]. apply in_seq in Hi. lia.
  - rewrite Hmis. now rewrite !length_map.
  - assert (Hc : length (combine M_E mis_cri) = length M_E)
      by (rewrite length_combine; lia).
    pose proof Hmis as H1.
    pose proof (delete_filtered ([], 0) (combine M_E mis_cri) p) as H2.
    rewrite Hc in H2. rewrite H1, H2. rewrite combine_map_map.
    apply map_ext. intro i. now rewrite combine_nth by auto.
Qed.

End Delete_facts.

(** X9.  The selection splits the active reads: every read is either
    assigned to the dominant haplotype or kept for the next round, none is
    lost or taken twice.  The numbers of the selected reads are in
    increasing order and in range, and a read that is kept keeps its own
    mismatch criterion. *)
Theorem selection_splits_reads
    (binom_pmf : Z -> Z -> float -> float) (seq_err : float)
    (ACGTcount M_E : matrix)
    (V_flag mis_cri : list Z) :
  length mis_cri = length M_E ->
  let index := select_reads binom_pmf seq_err ACGTcount M_E V_flag mis_cri in
  Permutation (take_rows M_E index ++ delete_rows M_E index) M_E /\
  (length index + length (delete_rows M_E index) = length M_E)%nat /\
  (forall i j, (i < j)%nat -> (j < length index)%nat ->
     (nth i index 0 < nth j index 0)%nat) /\
  Forall (fun i => (i < length M_E)%nat) index /\
  length (delete_rows mis_cri index) = length (delete_rows M_E index) /\
  combine (delete_rows M_E index) (delete_rows mis_cri index)
  = delete_rows (combine M_E mis_cri) index.
Proof. exact (selection_facts binom_pmf seq_err ACGTcount M_E V_flag mis_cri). Qed.


Lemma selection_splits_reads_witness :
  select_reads binom_pmf_float default_seq_err [[2; 1; 0; 0]; [1; 1; 0; 0]]
               [[1; 1]; [2; 2]; [1; 0]] [1; 1] [2; 2; 2] = [0; 2]%nat /\
  delete_rows [[1; 1]; [2; 2]; [1; 0]] [0; 2]%nat = [[2; 2]].
Proof.
  destruct (selection_splits_reads binom_pmf_float default_seq_err [[2; 1; 0; 0]; [1; 1; 0; 0]]
              [[1; 1]; [2; 2]; [1; 0]] [1; 1] [2; 2; 2] eq_refl) as (_ & H & _).
  split; reflexivity.
Defined.

(** * Successive clustering *)

Section SC_facts.

Variable rr : nat -> Q.
Variable svds : qmatrix -> nat -> result qmatrix.
Variable binom_pmf : Z -> Z -> float -> float.
Variable seq_err : float.
Variable L : nat.

Lemma successive_clustering_inv (R : nat) :
  forall svd_flag st n st' b n',
    length (mis_cri st) = length (M_E st) ->
    successive_clustering rr svds binom_pmf seq_err L R svd_flag st n = Ok (st', b, n') ->
    (num_V st <= num_V st')%nat /\
    (num_V st' - num_V st <= R)%nat /\
    length (reconV st') = length (reconV st) /\
    length (mis_cri st') = length (M_E st') /\
    (length (M_E st') <= length (M_E st))%nat /\
    (num_V st' - num_V st <= length (M_E st) - length (M_E st'))%nat /\
    incl (combine (M_E st') (mis_cri st')) (combine (M_E st) (mis_cri st)) /\
    ((num_V st < num_V st')%nat -> (R < length (M_E st))%nat) /\
    (b = true ->
     (num_V st' - num_V st = R)%nat \/
     (length (M_E st') <= R - (num_V st' - num_V st))%nat) /\
    (b = false ->
     (num_V st' - num_V st < R)%nat /\
     (R - (num_V st' - num_V st) < length (M_E st'))%nat).
Proof.
  assert (Hsame : forall R0 st b,
            length (mis_cri st) = length (M_E st) ->
            (b = true -> R0 = 0%nat \/ (length (M_E st) <= R0)%nat) ->
            (b = false -> (0 < R0)%nat /\ (R0 < length (M_E st))%nat) ->
            (num_V st <= num_V st)%nat /\
            (num_V st - num_V st <= R0)%nat /\
            length (reconV st) = length (reconV st) /\
            length (mis_cri st) = length (M_E st) /\
            (length (M_E st) <= length (M_E st))%nat /\
            (num_V st - num_V st <= length (M_E st) - length (M_E st))%nat /\
            incl (combine (M_E st) (mis_cri st)) (combine (M_E st) (mis_cri st)) /\
            ((num_V st < num_V st)%nat -> (R0 < length (M_E st))%nat) /\
            (b = true ->
             (num_V st - num_V st = R0)%nat \/
             (length (M_E st) <= R0 - (num_V st - num_V st))%nat) /\
            (b = false ->
             (num_V st - num_V st < R0)%nat /\
             (R0 - (num_V st - num_V st) < length (M_E st))%nat)).
  { intros R0 st b Hl Ht Hf. rewrite !Nat.sub_diag, Nat.sub_0_r.
    split; [lia|]. split; [lia|]. split; [reflexivity|]. split; [exact Hl|].
    split; [lia|]. split; [lia|]. split; [apply incl_refl|]. split; [lia|]. split.
    - intro E. destruct (Ht E); [left; lia | right; lia].
    - intro E. apply Hf, E. }
  induction R as [|R' IH]; intros svd_flag st n st' b n' Hlen Hsc.
  - cbn [successive_clustering] in Hsc. unfold ret in Hsc.
    injection Hsc as <- <- <-. apply Hsame; [exact Hlen | now left | discriminate].
  - cbn [successive_clustering] in Hsc. unfold bindRS at 1 in Hsc.
    unfold len_col0 in Hsc. destruct (Nat.eqb L 0); [discriminate|].
    cbn [lift] in Hsc.
    destruct (Nat.ltb (S R') (length (M_E st))) eqn:Hlt; cbn [negb] in Hsc.
    + unfold bindRS at 1 in Hsc.
      destruct (alternating_minimization rr svds L (M_E st) (S R') svd_flag n)
        as [[[am ACGTcount] n1]|e]; [|discriminate].
      cbn [fst snd] in Hsc.
      destruct (selection_facts binom_pmf seq_err ACGTcount (M_E st)
                  (nth (argmax_list (col_sums (S R') (U am)))
                       (decode (Vt am) (S R') L) []) (mis_cri st) Hlen)
        as (_ & Hsplit & _ & _ & Hml & Halign).
      set (index := select_reads binom_pmf seq_err ACGTcount (M_E st) _ (mis_cri st)) in *.
      apply Nat.ltb_lt in Hlt.
      destruct (Nat.eqb (length index) 0) eqn:He.
      * unfold ret in Hsc. injection Hsc as <- <- <-.
        apply Hsame; [exact Hlen | discriminate | intros _; lia].
      * apply Nat.eqb_neq in He. unfold bindRS at 1 in Hsc.
        destruct (ACGT_rows L (take_rows (M_E st) index)) as [addi|e]; [|discriminate].
        cbn [lift] in Hsc.
        apply IH in Hsc; [|exact Hml].
        cbn [M_E mis_cri num_V reconV] in Hsc.
        destruct Hsc as (I1 & I2 & I3 & I4 & I5 & I6 & I7 & _ & I8 & I9).
        rewrite length_list_set in I3.
        split; [lia|]. split; [lia|]. split; [exact I3|]. split; [exact I4|].
        split; [lia|]. split; [lia|]. split.
        { intros x Hx. apply I7 in Hx. rewrite Halign in Hx.
          unfold delete_rows in Hx. apply in_map_iff in Hx.
          destruct Hx as ([k y] & <- & Hin). apply filter_In in Hin.
          destruct Hin as [Hin _]. apply in_combine_r in Hin. exact Hin. }
        split; [intros _; exact Hlt|]. split.
        { intro E. destruct (I8 E); [left; lia | right; lia]. }
        { intro E. destruct (I9 E). split; lia. }
    + unfold ret in Hsc. injection Hsc as <- <- <-. apply Nat.ltb_ge in Hlt.
      apply Hsame; [exact Hlen | intros _; right; lia | discriminate].
Qed.

End SC_facts.

(** X10.  Successive clustering extracts at most [R] haplotypes, and only
    when there are more reads than [R]; every extraction removes at least
    one read.  The reads left are reads of the start, each still with its
    own mismatch criterion.  A loop that runs to
    its end has extracted all [R] haplotypes or is left with no more reads
    than haplotypes to extract; a loop left by the empty-selection guard
    still has more reads than haplotypes to extract. *)
Theorem successive_clustering_invariants (rr : nat -> Q)
    (svds : qmatrix -> nat -> result qmatrix)
    (binom_pmf : Z -> Z -> float -> float) (seq_err : float)
    (L R svd_flag : nat)
    (st st' : sc_state) (b : bool) (n n' : nat) :
  length (mis_cri st) = length (M_E st) ->
  successive_clustering rr svds binom_pmf seq_err L R svd_flag st n = Ok (st', b, n') ->
  (num_V st <= num_V st')%nat /\
  (num_V st' - num_V st <= R)%nat /\
  length (reconV st') = length (reconV st) /\
  length (mis_cri st') = length (M_E st') /\
  (length (M_E st') <= length (M_E st))%nat /\
  (num_V st' - num_V st <= length (M_E st) - length (M_E st'))%nat /\
  incl (combine (M_E st') (mis_cri st')) (combine (M_E st) (mis_cri st)) /\
  ((num_V st < num_V st')%nat -> (R < length (M_E st))%nat) /\
  (b = true ->
   (num_V st' - num_V st = R)%nat \/
   (length (M_E st') <= R - (num_V st' - num_V st))%nat) /\
  (b = false ->
   (num_V st' - num_V st < R)%nat /\
   (R - (num_V st' - num_V st) < length (M_E st'))%nat).
Proof. apply successive_clustering_inv. Qed.

Lemma successive_clustering_invariants_witness :
  exists st' n',
    successive_clustering (fun _ => 0%Q)
      (fun _ _ => Ok [[2 # 1; 2 # 1; 0; 0; 0; 0; 0; 0]%Q])
      binom_pmf_float default_seq_err 2 1 1
      (mk_sc (repeat [1; 1] 32) (repeat 2 32) 1 [[0; 0]]) 0%nat
    = Ok (st', true, n') /\
    num_V st' = 2%nat /\ M_E st' = [].
Proof.
  eexists _, _. split; [vm_compute; reflexivity|].
  destruct (successive_clustering_invariants (fun _ => 0%Q)
              (fun _ _ => Ok [[2 # 1; 2 # 1; 0; 0; 0; 0; 0; 0]%Q])
      binom_pmf_float default_seq_err 2 1 1
              (mk_sc (repeat [1; 1] 32) (repeat 2 32) 1 [[0; 0]]) _ true 0%nat _
              eq_refl ltac:(vm_compute; reflexivity)) as (_ & _ & _ & _ & _ & _ & _ & _ & _).
  split; reflexivity.
Defined.

(** * The MEC as a sum of Hamming distances *)

Section MEC_distance_facts.

(** The mismatches of a read against a row of the completed matrix. *)
Lemma row_mismatches (s m : list Z) :
  sum_list
    (map (fun xy =>
            let p := if fst xy =? 0 then 0 else 1 in
            if (fst xy - snd xy) * p =? 0 then 0 else 1)
         (combine s m))
  = hamming s m.
Proof.
  unfold hamming.
  rewrite <- (sum_indicator _ (fun xy => negb (fst xy =? 0) && negb (fst xy =? snd xy))).
  f_equal. apply map_ext. intros [x y]. cbn [fst snd].
  destruct (Z.eqb_spec x 0) as [-> | Hx]; cbn [negb andb].
  - now rewrite Z.mul_0_r.
  - rewrite Z.mul_1_r.
    destruct (Z.eqb_spec (x - y) 0), (Z.eqb_spec x y); cbn [negb]; lia.
Qed.

Lemma combine_map_r {A B C} (f : B -> C) (l : list A) (l' : list B) :
  combine l (map f l') = map (fun ab => (fst ab, f (snd ab))) (combine l l').
Proof.
  revert l'. induction l as [|a l IH]; intros [|b l']; try reflexivity.
  cbn [map combine fst snd]. now rewrite IH.
Qed.

Lemma MEC_count_hamming (S haps : matrix) (a : list nat) :
  MEC_count S (take_rows haps a)
  = sum_list (map (fun ra => hamming (fst ra) (nth (snd ra) haps [])) (combine S a)).
Proof.
  unfold MEC_count, take_rows. rewrite combine_map_r, map_map.
  f_equal. apply map_ext. intros [r k]. cbn [fst snd]. apply row_mismatches.
Qed.

Lemma hamming_nonneg (read hap : list Z) : 0 <= hamming read hap.
Proof. unfold hamming. lia. Qed.

Lemma nongap_count_nonneg (read : list Z) : 0 <= nongap_count read.
Proof.
  unfold nongap_count. induction read as [|x read IH]; cbn [map sum_list fold_right].
  - lia.
  - fold (sum_list (map (fun x0 => if x0 =? 0 then 0 else 1) read)).
    destruct (x =? 0); lia.
Qed.

Lemma hamming_le_nongap (read hap : list Z) : hamming read hap <= nongap_count read.
Proof.
  unfold hamming.
  rewrite <- (sum_indicator _ (fun xy => negb (fst xy =? 0) && negb (fst xy =? snd xy))).
  revert hap. induction read as [|x read IH]; intros [|y hap].
  - cbn. lia.
  - cbn. lia.
  - cbn [combine map sum_list fold_right]. apply nongap_count_nonneg.
  - specialize (IH hap). unfold nongap_count in *.
    cbn [combine map sum_list fold_right fst snd].
    fold (sum_list (map (fun x0 => if x0 =? 0 then 0 else 1) read)).
    fold (sum_list (map (fun xy : Z * Z =>
                           if negb (fst xy =? 0) && negb (fst xy =? snd xy)
                           then 1 else 0) (combine read hap))).
    destruct (x =? 0), (x =? y); cbn [negb andb]; lia.
Qed.

Lemma sum_nongap_nonneg (S : matrix) : 0 <= sum_list (map nongap_count S).
Proof.
  induction S as [|r S IH]; cbn [map sum_list fold_right]; [lia|].
  fold (sum_list (map nongap_count S)). pose proof (nongap_count_nonneg r). lia.
Qed.

Lemma sum_hamming_bounds (haps : matrix) (S : matrix) (a : list nat) :
  0 <= sum_list (map (fun ra => hamming (fst ra) (nth (snd ra) haps [])) (combine S a))
    <= sum_list (map nongap_count S).
Proof.
  revert a. induction S as [|r S IH]; intros [|k a].
  - cbn. lia.
  - cbn. lia.
  - pose proof (sum_nongap_nonneg (r :: S)) as H.
    change (sum_list (map (fun ra : list Z * nat =>
                             hamming (fst ra) (nth (snd ra) haps []))
                          (combine (r :: S) []))) with 0.
    lia.
  - specialize (IH a). cbn [combine map sum_list fold_right fst snd].
    fold (sum_list (map nongap_count S)).
    fold (sum_list (map (fun ra : list Z * nat =>
                           hamming (fst ra) (nth (snd ra) haps [])) (combine S a))).
    pose proof (hamming_nonneg r (nth k haps [])).
    pose proof (hamming_le_nongap r (nth k haps [])). lia.
Qed.

(** The MEC of a set of gap-free haplotypes. *)
Lemma MEC_of_distance (L : nat) (S reconV2 : matrix) (mec : Z) :
  has_cols L S -> has_cols L reconV2 ->
  Forall (Forall (fun x => 1 <= x <= 4)) reconV2 ->
  MEC_of S reconV2 = Ok mec ->
  exists a,
    reassign S reconV2 = Ok a /\ length a = length S /\
    mec = sum_list (map (fun ra => hamming (fst ra) (nth (snd ra) reconV2 []))
                        (combine S a)) /\
    (forall i h, (i < length S)%nat -> (h < length reconV2)%nat ->
       (nth i a 0 < length reconV2)%nat /\
       hamming (nth i S []) (nth (nth i a 0%nat) reconV2 [])
       <= hamming (nth i S []) (nth h reconV2 [])) /\
    0 <= mec <= sum_list (map nongap_count S).
Proof.
  intros HS HV Hent Hmec. unfold MEC_of in Hmec.
  destruct (reassign S reconV2) as [a|e] eqn:Hr; [|discriminate].
  cbn [bind] in Hmec. injection Hmec as <-.
  destruct (reassign_length S reconV2 a Hr) as [Hla Hne].
  destruct (reassign_closest L S reconV2 HS HV Hne) as (a' & Hr' & _ & Hclose).
  rewrite Hr in Hr'. injection Hr' as <-.
  exists a. split; [reflexivity|]. split; [exact Hla|].
  rewrite MEC_count_hamming. split; [reflexivity|]. split; [|apply sum_hamming_bounds].
  intros i h Hi Hh. destruct (Hclose i Hi) as (Hlt & Hmax & _).
  split; [exact Hlt|].
  assert (Hrow : length (nth i S []) = L) by (apply nth_has_cols; assumption).
  assert (Hhap : forall k, (k < length reconV2)%nat ->
            length (nth k reconV2 []) = L /\
            Forall (fun x => 1 <= x <= 4) (nth k reconV2 [])).
  { intros k Hk. split; [apply nth_has_cols; assumption|].
    rewrite Forall_forall in Hent. apply Hent, nth_In. exact Hk. }
  destruct (Hhap _ Hlt) as [Hl1 He1]. destruct (Hhap _ Hh) as [Hl2 He2].
  rewrite <- !hd_is_hamming by (assumption || congruence).
  rewrite !(ident_count_agree L) by assumption.
  specialize (Hmax h Hh). lia.
Qed.

End MEC_distance_facts.

(** X11.  For haplotypes without gaps the MEC is the sum, over the reads,
    of the Hamming distance of the read to the haplotype it is assigned to,
    and no other haplotype is nearer to the read.  The MEC lies between 0
    and the number of non-gap entries of the SNV matrix. *)
Theorem MEC_is_nearest_distance (L : nat) (S reconV2 : matrix) (mec : Z) :
  has_cols L S -> has_cols L reconV2 ->
  Forall (Forall (fun x => 1 <= x <= 4)) reconV2 ->
  MEC_of S reconV2 = Ok mec ->
  exists a,
    reassign S reconV2 = Ok a /\ length a = length S /\
    mec = sum_list (map (fun ra => hamming (fst ra) (nth (snd ra) reconV2 []))
                        (combine S a)) /\
    (forall i h, (i < length S)%nat -> (h < length reconV2)%nat ->
       (nth i a 0 < length reconV2)%nat /\
       hamming (nth i S []) (nth (nth i a 0%nat) reconV2 [])
       <= hamming (nth i S []) (nth h reconV2 [])) /\
    0 <= mec <= sum_list (map nongap_count S).
Proof. apply MEC_of_distance. Qed.

Lemma MEC_is_nearest_distance_witness :
  MEC_of [[1; 1; 0]; [2; 2; 1]; [1; 2; 0]] [[1; 1; 1]; [2; 2; 2]] = Ok 2.
Proof.
  destruct (MEC_is_nearest_distance 3 [[1; 1; 0]; [2; 2; 1]; [1; 2; 0]]
              [[1; 1; 1]; [2; 2; 2]] 2) as (a & _).
  - repeat constructor.
  - repeat constructor.
  - repeat constructor; lia.
  - reflexivity.
  - reflexivity.
Defined.

(** * The outcome of a sign branch *)

Section Branch_outcome_facts.

Variable rr : nat -> Q.
Variable svds : qmatrix -> nat -> result qmatrix.
Variable binom_pmf : Z -> Z -> float -> float.
Variable seq_err : float.
Variable S : matrix.
Variable L : nat.
Variable mis : list Z.
Variable ori : matrix.

(** No haplotype to compare with: the reassignment raises. *)
Lemma second_vote_empty (reconV : matrix) (n : nat) :
  second_vote rr S L ori reconV 1 n
  = Raise (ValueError "attempt to get argmax of an empty sequence").
Proof. reflexivity. Qed.

Lemma run_sign_too_large (K_ite : Z) (svd_flag n : nat) :
  K_ite <= 0 \/ ((0 < L)%nat /\ Z.of_nat (length S) <= K_ite) ->
  exists msg,
    run_sign rr svds binom_pmf seq_err S L mis ori K_ite svd_flag n = Raise (ValueError msg).
Proof.
  intro H. unfold run_sign.
  destruct (Z.ltb_spec K_ite 0) as [Hneg | Hpos]; [eexists; reflexivity|].
  assert (Hsc : successive_clustering rr svds binom_pmf seq_err L (Z.to_nat K_ite) svd_flag
                  (mk_sc S mis 1 (repeat (repeat 0 L) (Z.to_nat K_ite))) n
                = Ok (mk_sc S mis 1 (repeat (repeat 0 L) (Z.to_nat K_ite)), true, n)).
  { destruct (Z.to_nat K_ite) as [|R'] eqn:ER; [reflexivity|].
    destruct H as [H | [HL H]]; [lia|].
    cbn [successive_clustering]. unfold bindRS at 1, len_col0. cbn [M_E].
    replace (Nat.eqb L 0) with false by (symmetry; apply Nat.eqb_neq; lia).
    cbn [lift].
    replace (Nat.ltb (Datatypes.S R') (length S)) with false
      by (symmetry; apply Nat.ltb_ge; lia).
    reflexivity. }
  unfold bindRS at 1. rewrite Hsc. cbn [snd fst num_V reconV].
  unfold bindRS at 1. rewrite second_vote_empty. eexists; reflexivity.
Qed.

Hypothesis Hrr : unit_interval rr.
Hypothesis HS : snv_matrix L S.
Hypothesis Hmis : length mis = length S.
Hypothesis Hori_len : length ori = L.
Hypothesis Hori_cols : has_cols 4 ori.

Lemma run_sign_success (K_ite : Z) (svd_flag n : nat) (mec hap : Z)
    (V2 : matrix) (n' : nat) :
  run_sign rr svds binom_pmf seq_err S L mis ori K_ite svd_flag n = Ok (Some (mec, hap, V2), n') ->
  1 <= hap <= K_ite /\ hap < Z.of_nat (length S) /\
  hap = Z.of_nat (length V2) /\
  has_cols L V2 /\ Forall (Forall (fun x => 1 <= x <= 4)) V2 /\
  MEC_of S V2 = Ok mec /\
  0 <= mec <= sum_list (map nongap_count S).
Proof.
  intro Hrun. pose proof HS as [Hcols _]. unfold run_sign in Hrun.
  destruct (Z.ltb_spec K_ite 0) as [Hneg | Hpos]; [discriminate|].
  unfold bindRS at 1 in Hrun.
  destruct (successive_clustering rr svds binom_pmf seq_err L (Z.to_nat K_ite) svd_flag _ n)
    as [[[st' b] n1]|e] eqn:Hsc; [|discriminate].
  cbn [fst snd] in Hrun. destruct b; [|discriminate].
  apply successive_clustering_inv in Hsc; [|exact Hmis].
  destruct Hsc as (I1 & I2 & I3 & _ & _ & I6 & _ & I7 & _).
  cbn [num_V reconV M_E] in I1, I2, I3, I6, I7.
  rewrite repeat_length in I3.
  unfold bindRS at 1 in Hrun.
  destruct (second_vote rr S L ori (reconV st') (num_V st') n1)
    as [[reconV2 n2]|e] eqn:Hsv; [|discriminate].
  unfold bindRS at 1 in Hrun.
  destruct (MEC_of S reconV2) as [m|e] eqn:Hm; [|discriminate].
  cbn [lift] in Hrun. unfold ret in Hrun. injection Hrun as <- <- <- <-.
  unfold second_vote in Hsv. unfold bindRS at 1 in Hsv.
  destruct (reassign S (firstn (num_V st' - 1) (reconV st'))) as [index|e] eqn:Hre;
    [|discriminate].
  cbn [lift] in Hsv.
  destruct (reassign_length _ _ _ Hre) as [_ Hne].
  assert (Hfound : (1 <= num_V st' - 1)%nat).
  { destruct (num_V st' - 1)%nat; [now cbn [firstn] in Hne | lia]. }
  destruct (vote_all_range rr L S (num_V st' - 1) Hrr HS index ori n1 reconV2 n2
              Hori_len Hori_cols Hsv) as (V1 & V2 & V3).
  destruct (MEC_of_distance L S reconV2 m Hcols V2 V3 Hm) as (a & _ & _ & _ & _ & Hb).
  rewrite V1. repeat split; try assumption; try lia.
Qed.

End Branch_outcome_facts.

(** X12.  A sign branch raises [ValueError] when K is not positive or is
    not smaller than the number of reads: no haplotype is extracted and the
    reassignment has nothing to compare the reads with.  A branch that
    succeeds returns between 1 and K haplotypes, fewer than there are
    reads, each of full length and without gaps, and the MEC of these
    haplotypes. *)
Theorem run_sign_outcome (rr : nat -> Q) (svds : qmatrix -> nat -> result qmatrix)
    (binom_pmf : Z -> Z -> float -> float) (seq_err : float)
    (S : matrix) (L : nat) (mis : list Z) (ori : matrix)
    (K_ite : Z) (svd_flag n : nat) :
  unit_interval rr -> snv_matrix L S -> length mis = length S ->
  length ori = L -> has_cols 4 ori ->
  (K_ite <= 0 \/ ((0 < L)%nat /\ Z.of_nat (length S) <= K_ite) ->
   exists msg,
     run_sign rr svds binom_pmf seq_err S L mis ori K_ite svd_flag n = Raise (ValueError msg)) /\
  (forall mec hap V2 n',
     run_sign rr svds binom_pmf seq_err S L mis ori K_ite svd_flag n
     = Ok (Some (mec, hap, V2), n') ->
     1 <= hap <= K_ite /\ hap < Z.of_nat (length S) /\
     hap = Z.of_nat (length V2) /\
     has_cols L V2 /\ Forall (Forall (fun x => 1 <= x <= 4)) V2 /\
     MEC_of S V2 = Ok mec /\
     0 <= mec <= sum_list (map nongap_count S)).
Proof.
  intros Hrr HS Hmis Hl Hc. split.
  - apply run_sign_too_large.
  - intros mec hap V2 n'. now apply run_sign_success.
Qed.

Lemma run_sign_outcome_witness :
  (exists msg,
     run_sign (fun _ => 0%Q) (fun _ _ => Ok []) binom_pmf_float default_seq_err [[1; 2]] 2 [2]
              [[1; 0; 0; 0]; [0; 1; 0; 0]] 5 1 0%nat = Raise (ValueError msg)) /\
  (exists n',
     run_sign (fun _ => 0%Q) (fun _ _ => Ok [[2 # 1; 2 # 1; 0; 0; 0; 0; 0; 0]%Q])
              binom_pmf_float default_seq_err (repeat [1; 1] 32) 2 (repeat 2 32)
              [[32; 0; 0; 0]; [32; 0; 0; 0]] 1 1 0%nat
     = Ok (Some (0, 1, [[1; 1]]), n')).
Proof.
  split.
  - destruct (run_sign_outcome (fun _ => 0%Q) (fun _ _ => Ok []) binom_pmf_float default_seq_err
                [[1; 2]] 2 [2] [[1; 0; 0; 0]; [0; 1; 0; 0]] 5 1 0%nat) as [H _].
    + intro k. split; [discriminate | reflexivity].
    + split; repeat constructor; lia.
    + reflexivity.
    + reflexivity.
    + repeat constructor.
    + apply H. right. split; [lia | simpl; lia].
  - eexists. vm_compute. reflexivity.
Defined.

(** * The mismatch criteria *)

Section Criteria_facts.

Lemma find_seq_range (p : nat -> bool) (start n l : nat) :
  find p (seq start n) = Some l -> (start <= l < start + n)%nat /\ p l = true.
Proof.
  intro H. apply find_some in H. destruct H as [Hin Hp].
  apply in_seq in Hin. split; [lia | exact Hp].
Qed.

Lemma find_seq_first (p : nat -> bool) (n : nat) :
  forall start l,
    find p (seq start n) = Some l ->
    forall k, (start <= k < l)%nat -> p k = false.
Proof.
  induction n as [|n IH]; intros start l H k Hk; cbn [seq find] in H; [discriminate|].
  destruct (p start) eqn:E.
  - injection H as <-. lia.
  - destruct (Nat.eq_dec k start) as [-> | Hne]; [exact E|].
    apply (IH (S start) l H). lia.
Qed.

(** A weaker test is passed no later. *)
Lemma find_seq_mono (p p' : nat -> bool) (n : nat) :
  (forall l, p' l = true -> p l = true) ->
  forall start l',
    find p' (seq start n) = Some l' ->
    exists l, find p (seq start n) = Some l /\ (l <= l')%nat.
Proof.
  intro Himp. induction n as [|n IH]; intros start l' H; cbn [seq find] in *;
    [discriminate|].
  destruct (p' start) eqn:E'.
  - injection H as <-. rewrite (Himp _ E'). exists start. split; [reflexivity | lia].
  - destruct (IH _ _ H) as (l & Hl & Hle).
    destruct (p start) eqn:E.
    + exists start. split; [reflexivity|]. apply find_seq_range in H. lia.
    + exists l. split; assumption.
Qed.

(** The criterion of a read, lines 124-129, as a function of its number of
    non-gap positions. *)
Lemma criterion_mono (Ls : list nat) (a b : Z) :
  a <= b ->
  let crit := fun ng : Z =>
    match find (fun l => ng <? Z.of_nat (nth l Ls 0%nat)) (seq 0 (length Ls)) with
    | Some l => Z.of_nat l + 1
    | None => Z.of_nat (length Ls) + 1
    end in
  1 <= crit a /\ crit a <= crit b /\ crit b <= Z.of_nat (length Ls) + 1.
Proof.
  intros Hab crit. unfold crit.
  destruct (find (fun l => b <? Z.of_nat (nth l Ls 0%nat)) (seq 0 (length Ls)))
    as [l'|] eqn:Fb.
  - destruct (find_seq_mono (fun l => a <? Z.of_nat (nth l Ls 0%nat))
                (fun l => b <? Z.of_nat (nth l Ls 0%nat)) (length Ls)) with (2 := Fb)
      as (l & -> & Hle).
    { intros l H. apply Z.ltb_lt in H. apply Z.ltb_lt. lia. }
    apply find_seq_range in Fb. lia.
  - destruct (find (fun l => a <? Z.of_nat (nth l Ls 0%nat)) (seq 0 (length Ls)))
      as [l|] eqn:Fa.
    + apply find_seq_range in Fa. lia.
    + lia.
Qed.

Lemma length_flat_map_le {A B} (f : A -> list B) (l : list A) :
  (forall a, (length (f a) <= 1)%nat) ->
  (length (flat_map f l) <= length l)%nat.
Proof.
  intro H. induction l as [|a l IH]; cbn [flat_map length]; [lia|].
  rewrite length_app. specialize (H a). lia.
Qed.

Lemma length_threshold_table (binom_pmf : Z -> Z -> float -> float) (seq_err : float) :
  (length (threshold_table binom_pmf seq_err) <= max_thre)%nat.
Proof.
  unfold threshold_table.
  etransitivity; [apply length_flat_map_le | now rewrite length_seq].
  intro thre. destruct (find _ _); cbn [length]; lia.
Qed.

Lemma make_mis_cri_ok (binom_pmf : Z -> Z -> float -> float) (seq_err : float)
    (S : matrix) :
  threshold_table binom_pmf seq_err <> [] ->
  exists mis,
    make_mis_cri binom_pmf seq_err S = Ok mis /\ length mis = length S /\
    Forall (fun m => 1 <= m <= Z.of_nat (length (threshold_table binom_pmf seq_err)) + 1)
           mis /\
    forall i j, (i < length S)%nat -> (j < length S)%nat ->
      nongap_count (nth i S []) <= nongap_count (nth j S []) ->
      nth i mis 0 <= nth j mis 0.
Proof.
  intro Hne. unfold make_mis_cri.
  destruct (threshold_table binom_pmf seq_err) as [|[l0 t0] rest]; [congruence|].
  cbn [map fst].
  set (Ls := Datatypes.S l0 :: map fst rest).
  assert (HLs : length Ls = length ((l0, t0) :: rest))
    by (unfold Ls; cbn [length]; now rewrite length_map).
  set (crit := fun read : list Z =>
         match find (fun l => nongap_count read <? Z.of_nat (nth l Ls 0%nat))
                    (seq 0 (length Ls)) with
         | Some l => Z.of_nat l + 1
         | None => Z.of_nat (length Ls) + 1
         end).
  exists (map crit S). split; [reflexivity|]. split; [apply length_map|]. split.
  - rewrite Forall_map. apply Forall_forall. intros read _.
    destruct (criterion_mono Ls (nongap_count read) (nongap_count read) (Z.le_refl _))
      as (H1 & _ & H3).
    unfold crit. rewrite <- HLs. lia.
  - intros i j Hi Hj Hle.
    rewrite !(nth_indep (map crit S) 0 (crit [])) by (rewrite length_map; assumption).
    rewrite !(map_nth crit).
    destruct (criterion_mono Ls _ _ Hle) as (_ & H2 & _). exact H2.
Qed.

End Criteria_facts.

(** * The threshold table *)

Section Threshold_facts.

Variable binom_pmf : Z -> Z -> float -> float.
Variable seq_err : float.

Lemma tail_prob_step (thre l : nat) :
  tail_prob binom_pmf seq_err (S thre) l
  = (tail_prob binom_pmf seq_err thre l
     - binom_pmf (Z.of_nat thre) (Z.of_nat l) seq_err)%float.
Proof.
  unfold tail_prob. rewrite seq_S, fold_left_app. reflexivity.
Qed.

Lemma find_seq_least (p : nat -> bool) (n : nat) :
  forall start l,
    (start <= l < start + n)%nat -> p l = true ->
    (forall k, (start <= k < l)%nat -> p k = false) ->
    find p (seq start n) = Some l.
Proof.
  induction n as [|n IH]; intros start l Hr Hp Hbefore; [lia|].
  cbn [seq find]. destruct (Nat.eq_dec l start) as [-> | Hne].
  - now rewrite Hp.
  - rewrite (Hbefore start) by lia. apply IH; [lia | exact Hp|].
    intros k Hk. apply Hbefore. lia.
Qed.

Lemma in_threshold_table (l thre : nat) :
  In (l, thre) (threshold_table binom_pmf seq_err) <->
  (1 <= thre <= max_thre)%nat /\
  find (reached binom_pmf seq_err thre) (seq 1 max_len) = Some l.
Proof.
  unfold threshold_table. rewrite in_flat_map. split.
  - intros (t & Ht & Hin). apply in_seq in Ht.
    destruct (find (reached binom_pmf seq_err t) (seq 1 max_len)) as [l1|] eqn:F;
      [|destruct Hin].
    destruct Hin as [E | []]. injection E as <- <-. split; [lia | exact F].
  - intros [Ht F]. exists thre. split; [apply in_seq; lia|]. rewrite F. now left.
Qed.

(** An entry holds the first length that passes the test. *)
Lemma threshold_table_entry (l thre : nat) :
  In (l, thre) (threshold_table binom_pmf seq_err) <->
  (1 <= thre <= max_thre)%nat /\ (1 <= l <= max_len)%nat /\
  reached binom_pmf seq_err thre l = true /\
  forall l', (1 <= l' < l)%nat -> reached binom_pmf seq_err thre l' = false.
Proof.
  rewrite in_threshold_table. split.
  - intros [Ht F]. split; [exact Ht|].
    pose proof (find_seq_range _ _ _ _ F) as [Hr Hp].
    split; [unfold max_len in *; lia|]. split; [exact Hp|].
    intros l' Hl'. exact (find_seq_first _ _ _ _ F l' Hl').
  - intros (Ht & Hl & Hp & Hbefore). split; [exact Ht|].
    apply find_seq_least; [unfold max_len in *; lia | exact Hp | exact Hbefore].
Qed.

Lemma find_all_false {A} (f : A -> bool) (l : list A) :
  (forall x, In x l -> f x = false) -> find f l = None.
Proof.
  induction l as [|x l IH]; intro H; cbn [find]; [reflexivity|].
  rewrite (H x (or_introl eq_refl)). apply IH. intros y Hy. apply H. now right.
Qed.

(** The thresholds of the table increase: a threshold has at most one
    entry, and the entries come in the order of the loop. *)
Lemma table_from (n : nat) :
  forall start,
    let tb :=
      flat_map
        (fun thre =>
           match find (reached binom_pmf seq_err thre) (seq 1 max_len) with
           | Some l => [(l, thre)]
           | None => []
           end)
        (seq start n) in
    StronglySorted lt (map snd tb) /\ Forall (fun t => (start <= t)%nat) (map snd tb).
Proof.
  induction n as [|n IH]; intro start; cbn [seq flat_map].
  - cbn. split; constructor.
  - destruct (IH (S start)) as (I1 & I2).
    destruct (find (reached binom_pmf seq_err start) (seq 1 max_len)) as [l|];
      cbn [app map snd].
    + split.
      * constructor; [exact I1|].
        eapply Forall_impl; [|exact I2]. intros t Ht. cbv beta in Ht. lia.
      * constructor; [lia|].
        eapply Forall_impl; [|exact I2]. intros t Ht. cbv beta in Ht. lia.
    + split; [exact I1|].
      eapply Forall_impl; [|exact I2]. intros t Ht. cbv beta in Ht. lia.
Qed.

Lemma threshold_table_increasing :
  StronglySorted lt (map snd (threshold_table binom_pmf seq_err)).
Proof.
  unfold threshold_table. apply (table_from max_thre 1).
Qed.

(** The first entry is (1, 1) exactly when one position already passes the
    test for one mismatch. *)
Lemma threshold_table_head :
  (exists rest, threshold_table binom_pmf seq_err = (1%nat, 1%nat) :: rest) <->
  PrimFloat.leb p_value (1 - binom_pmf 0%Z 1%Z seq_err)%float = true.
Proof.
  change (PrimFloat.leb p_value (1 - binom_pmf 0%Z 1%Z seq_err)%float)
    with (reached binom_pmf seq_err 1%nat 1%nat).
  split.
  - intros [rest E].
    assert (Hin : In (1%nat, 1%nat) (threshold_table binom_pmf seq_err))
      by (rewrite E; now left).
    apply threshold_table_entry in Hin. apply Hin.
  - intro H. unfold threshold_table.
    change (seq 1 max_thre) with (1%nat :: seq 2 19). cbn [flat_map].
    change (seq 1 max_len) with (1%nat :: seq 2 299). cbn [find].
    rewrite H. eexists. reflexivity.
Qed.

(** When [binom.pmf] gives 1.0 for no error and 0.0 for [k >= 1] errors,
    as it does for an error rate of 0, no threshold is ever reached. *)
Lemma threshold_table_certain :
  (forall l, binom_pmf 0 (Z.of_nat l) seq_err = 1%float) ->
  (forall k l, (0 < k)%nat -> binom_pmf (Z.of_nat k) (Z.of_nat l) seq_err = 0%float) ->
  threshold_table binom_pmf seq_err = [].
Proof.
  intros H0 Hk.
  assert (Htail : forall thre l, tail_prob binom_pmf seq_err (S thre) l = 0%float).
  { intros thre l. induction thre as [|thre IH].
    - rewrite tail_prob_step. change (tail_prob binom_pmf seq_err 0 l) with 1%float.
      change (Z.of_nat 0) with 0. rewrite H0. reflexivity.
    - rewrite tail_prob_step, IH, Hk by lia. reflexivity. }
  assert (H : forall thre, (1 <= thre)%nat ->
            find (reached binom_pmf seq_err thre) (seq 1 max_len) = None).
  { intros thre Ht. apply find_all_false. intros l _.
    destruct thre as [|thre]; [lia|]. unfold reached. rewrite Htail. reflexivity. }
  unfold threshold_table.
  assert (G : forall n start, (1 <= start)%nat ->
            flat_map
              (fun thre =>
                 match find (reached binom_pmf seq_err thre) (seq 1 max_len) with
                 | Some l => [(l, thre)]
                 | None => []
                 end) (seq start n) = []).
  { induction n as [|n IH]; intros start Hs; cbn [seq flat_map]; [reflexivity|].
    rewrite (H start Hs). cbn [app]. apply IH. lia. }
  apply G. lia.
Qed.

End Threshold_facts.

(** X13.  The mismatch criteria.  When no entry of the threshold table is
    found, [L[0] += 1] raises [IndexError].  Otherwise every read gets a
    criterion between 1 and [len(Th) + 1], which is at most 21, and a read
    with fewer non-gap positions never gets a larger criterion than a read
    with more. *)
Theorem mis_cri_monotone (binom_pmf : Z -> Z -> float -> float) (seq_err : float)
    (S : matrix) :
  (threshold_table binom_pmf seq_err = [] ->
   exists msg, make_mis_cri binom_pmf seq_err S = Raise (IndexError msg)) /\
  (threshold_table binom_pmf seq_err <> [] ->
   exists mis,
     make_mis_cri binom_pmf seq_err S = Ok mis /\ length mis = length S /\
     Forall (fun m => 1 <= m <= Z.of_nat (length (threshold_table binom_pmf seq_err)) + 1)
            mis /\
     Forall (fun m => 1 <= m <= 21) mis /\
     forall i j, (i < length S)%nat -> (j < length S)%nat ->
       nongap_count (nth i S []) <= nongap_count (nth j S []) ->
       nth i mis 0 <= nth j mis 0).
Proof.
  split.
  - intro E. unfold make_mis_cri. rewrite E. eexists. reflexivity.
  - intro Hne.
    destruct (make_mis_cri_ok binom_pmf seq_err S Hne) as (mis & H1 & H2 & H3 & H4).
    exists mis. repeat split; try assumption.
    eapply Forall_impl; [|exact H3]. intros m Hm. cbv beta in Hm.
    pose proof (length_threshold_table binom_pmf seq_err) as Hl.
    unfold max_thre in Hl. lia.
Qed.

Lemma mis_cri_monotone_witness :
  exists mis,
    make_mis_cri binom_pmf_float default_seq_err [[1; 2]; [0; 3]] = Ok mis /\
    length mis = 2%nat.
Proof.
  destruct (mis_cri_monotone binom_pmf_float default_seq_err [[1; 2]; [0; 3]]) as [_ H].
  destruct H as (mis & H1 & H2 & _).
  - destruct (proj2 (threshold_table_head binom_pmf_float default_seq_err)) as [rest ->];
      [vm_compute; reflexivity | discriminate].
  - exists mis. split; assumption.
Defined.

(** X14.  The threshold table, as the program computes it in binary64.
    An entry [(l, thre)] is in the table exactly when [thre] is one of
    1..20 and [l] is the first length in 1..300 at which the test
    [pr >= p_value] of line 117 passes; a threshold that no length passes
    has no entry.  The thresholds [Th] increase, and there are at most 20
    entries.  The first entry is (1, 1) exactly when
    [1 - binom.pmf(0, 1, seq_err) >= p_value] holds in binary64.  When
    [binom.pmf] gives 1.0 for no error and 0.0 for one error or more, as
    for an error rate of 0, the table is empty and [L[0] += 1] raises
    [IndexError]. *)
Theorem threshold_table_entries (binom_pmf : Z -> Z -> float -> float)
    (seq_err : float) :
  let tb := threshold_table binom_pmf seq_err in
  (forall l thre,
     In (l, thre) tb <->
     (1 <= thre <= max_thre)%nat /\ (1 <= l <= max_len)%nat /\
     reached binom_pmf seq_err thre l = true /\
     forall l', (1 <= l' < l)%nat -> reached binom_pmf seq_err thre l' = false) /\
  StronglySorted lt (map snd tb) /\
  (length tb <= max_thre)%nat /\
  ((exists rest, tb = (1%nat, 1%nat) :: rest) <->
   PrimFloat.leb p_value (1 - binom_pmf 0%Z 1%Z seq_err)%float = true) /\
  ((forall l, binom_pmf 0 (Z.of_nat l) seq_err = 1%float) ->
   (forall k l, (0 < k)%nat -> binom_pmf (Z.of_nat k) (Z.of_nat l) seq_err = 0%float) ->
   tb = [] /\
   forall S, exists msg, make_mis_cri binom_pmf seq_err S = Raise (IndexError msg)).
Proof.
  intro tb.
  split; [intros l thre; apply threshold_table_entry|].
  split; [apply threshold_table_increasing|].
  split; [apply length_threshold_table|].
  split; [apply threshold_table_head|].
  intros H0 Hk.
  pose proof (threshold_table_certain binom_pmf seq_err H0 Hk) as E.
  split; [exact E|].
  intro S. unfold make_mis_cri. rewrite E. eexists. reflexivity.
Qed.

(** An error rate equal to [p_value] = 1e-05, with [binom.pmf(0, l, p)]
    evaluated as [(1 - p)^l]: one position does not pass the test,
    because [1 - (1 - 1e-05)] is 9.99999999995449e-06 in binary64, so the
    first entry is (2, 1) and not (1, 1).  With the values of [binom.pmf]
    for an error rate of 0 the table is empty. *)
Lemma threshold_table_entries_witness :
  In (2%nat, 1%nat) (threshold_table binom_pmf_float p_value) /\
  ~ (exists rest, threshold_table binom_pmf_float p_value = (1%nat, 1%nat) :: rest) /\
  threshold_table (fun k _ _ => if k =? 0 then 1%float else 0%float) 0%float = [].
Proof.
  destruct (threshold_table_entries binom_pmf_float p_value) as (H1 & _ & _ & H2 & _).
  split; [|split].
  - apply H1. split; [unfold max_thre; lia|]. split; [unfold max_len; lia|].
    split; [vm_compute; reflexivity|].
    intros l' Hl'. assert (l' = 1%nat) as -> by lia. vm_compute. reflexivity.
  - intro H. apply H2 in H. vm_compute in H. discriminate.
  - destruct (threshold_table_entries
                (fun k _ _ => if k =? 0 then 1%float else 0%float) 0%float)
      as (_ & _ & _ & _ & H3).
    apply H3.
    + intro l. reflexivity.
    + intros k l Hk. destruct k as [|k]; [lia | reflexivity].
Defined.

(** * The full sequences *)

Section Sequence_facts.

(** Writing the SNVs into the reference, one position after the other. *)
Lemma put_fold_ok (pvs : list (nat * Z)) :
  forall full,
    Forall (fun pv => (fst pv < length full)%nat) pvs ->
    exists full',
      fold_left
        (fun acc pv =>
           do full <- acc;
           if Nat.ltb (fst pv) (length full) then Ok (list_set full (fst pv) (snd pv))
           else Raise (IndexError "index is out of bounds for axis 1"))
        pvs (Ok full) = Ok full' /\
      length full' = length full /\
      (forall j, ~ In j (map fst pvs) -> nth j full' 0 = nth j full 0) /\
      (NoDup (map fst pvs) ->
       forall p x, In (p, x) pvs -> nth p full' 0 = x).
Proof.
  induction pvs as [|[p x] pvs IH]; intros full Hall.
  - exists full. cbn [fold_left map]. repeat split; auto. intros _ p x [].
  - inversion Hall as [|? ? Hp Hrest]; subst. cbn [fst snd] in Hp.
    cbn [fold_left bind fst snd].
    replace (Nat.ltb p (length full)) with true by (symmetry; now apply Nat.ltb_lt).
    destruct (IH (list_set full p x)) as (full' & Hf & Hl & Hother & Hset).
    { rewrite length_list_set. exact Hrest. }
    exists full'. split; [exact Hf|]. rewrite length_list_set in Hl.
    split; [exact Hl|]. split.
    + intros j Hj. cbn [map fst] in Hj.
      rewrite Hother by (intro; apply Hj; now right).
      apply nth_list_set_other. intro; apply Hj; now left.
    + intros Hnd q y Hin. cbn [map fst] in Hnd. inversion Hnd as [|? ? Hnotin Hnd']; subst.
      destruct Hin as [E | Hin].
      * injection E as <- <-. rewrite Hother by exact Hnotin.
        now apply nth_list_set_same.
      * now apply Hset.
Qed.

Lemma put_fold_raise (pvs : list (nat * Z)) (e : exn) :
  fold_left
    (fun acc pv =>
       do full <- acc;
       if Nat.ltb (fst pv) (length full) then Ok (list_set full (fst pv) (snd pv))
       else Raise (IndexError "index is out of bounds for axis 1"))
    pvs (Raise e) = Raise e.
Proof. induction pvs as [|pv pvs IH]; [reflexivity | exact IH]. Qed.

Lemma put_fold_out_of_range (pvs : list (nat * Z)) :
  forall full,
    ~ Forall (fun pv => (fst pv < length full)%nat) pvs ->
    fold_left
      (fun acc pv =>
         do full <- acc;
         if Nat.ltb (fst pv) (length full) then Ok (list_set full (fst pv) (snd pv))
         else Raise (IndexError "index is out of bounds for axis 1"))
      pvs (Ok full) = Raise (IndexError "index is out of bounds for axis 1").
Proof.
  induction pvs as [|[p x] pvs IH]; intros full Hnot.
  - exfalso. apply Hnot. constructor.
  - cbn [fold_left bind fst snd].
    destruct (Nat.ltb_spec p (length full)) as [Hlt | Hge].
    + apply IH. rewrite length_list_set. intro Hall. apply Hnot.
      constructor; [exact Hlt | exact Hall].
    + apply put_fold_raise.
Qed.

Lemma Forall_combine_fst {A B} (P : A -> Prop) (l : list A) (l' : list B) :
  length l' = length l ->
  (Forall (fun ab => P (fst ab)) (combine l l') <-> Forall P l).
Proof.
  revert l'. induction l as [|a l IH]; intros [|b l'] Hlen; try discriminate.
  - split; constructor.
  - cbn [combine]. injection Hlen as Hlen. split; intro H; inversion H; subst;
      constructor; auto; apply (IH l'); auto.
Qed.

Lemma map_fst_combine {A B} (l : list A) (l' : list B) :
  length l' = length l -> map fst (combine l l') = l.
Proof.
  revert l'. induction l as [|a l IH]; intros [|b l'] Hlen; try discriminate.
  - reflexivity.
  - cbn [combine map fst]. f_equal. apply IH. now injection Hlen.
Qed.

(** The text of a full sequence. *)
Lemma render_letters (Glen : nat) (row : list Z) :
  forall j,
    (j + length row <= Glen)%nat ->
    render Glen j row
    = string_of_list_ascii
        (map nucleotide_letter (filter (fun x => (0 <=? x) && (x <=? 4)) row)).
Proof.
  induction row as [|x row IH]; intros j Hj; cbn [render filter map]; [reflexivity|].
  cbn [length] in Hj.
  replace (Nat.ltb Glen (j + 1)) with false by (symmetry; apply Nat.ltb_ge; lia).
  cbn [andb]. rewrite (IH (S j)) by lia. unfold nucleotide_letter.
  destruct (Z.eqb_spec x 1) as [-> | H1]; [reflexivity|].
  destruct (Z.eqb_spec x 2) as [-> | H2]; [reflexivity|].
  destruct (Z.eqb_spec x 3) as [-> | H3]; [reflexivity|].
  destruct (Z.eqb_spec x 4) as [-> | H4]; [reflexivity|].
  destruct (Z.eqb_spec x 0) as [-> | H0]; [reflexivity|].
  replace ((0 <=? x) && (x <=? 4)) with false; [reflexivity|].
  symmetry. apply andb_false_iff.
  destruct (Z.leb_spec 0 x); [|now left]. right. apply Z.leb_gt. lia.
Qed.

Lemma length_string_of_list (l : list ascii) :
  String.length (string_of_list_ascii l) = length l.
Proof. induction l as [|a l IH]; cbn; [reflexivity | now rewrite IH]. Qed.

Lemma filter_all {A} (f : A -> bool) (l : list A) :
  Forall (fun x => f x = true) l -> filter f l = l.
Proof.
  induction 1 as [|x l Hx _ IH]; [reflexivity|]. cbn [filter]. now rewrite Hx, IH.
Qed.

End Sequence_facts.

(** X15.  Writing a haplotype into the reference sequence: the result has
    the length of the reference, holds the reference outside the SNV
    positions and, when the positions are distinct, the haplotype at the
    SNV positions.  A position beyond the end of the reference raises
    [IndexError]. *)
Theorem put_snvs_spec (Homoseq : list Z) (SNVpos : list nat) (row : list Z) :
  length row = length SNVpos ->
  (Forall (fun p => (p < length Homoseq)%nat) SNVpos ->
   exists full,
     put_snvs Homoseq SNVpos row = Ok full /\
     length full = length Homoseq /\
     (forall j, ~ In j SNVpos -> nth j full 0 = nth j Homoseq 0) /\
     (NoDup SNVpos ->
      forall k, (k < length SNVpos)%nat ->
                nth (nth k SNVpos 0%nat) full 0 = nth k row 0)) /\
  (~ Forall (fun p => (p < length Homoseq)%nat) SNVpos ->
   exists msg, put_snvs Homoseq SNVpos row = Raise (IndexError msg)).
Proof.
  intro Hlen. unfold put_snvs. split.
  - intro Hall.
    destruct (put_fold_ok (combine SNVpos row) Homoseq) as (full & Hf & Hl & Ho & Hs).
    { apply (Forall_combine_fst (fun p => (p < length Homoseq)%nat)); assumption. }
    rewrite (map_fst_combine SNVpos row Hlen) in Ho, Hs.
    exists full. split; [exact Hf|]. split; [exact Hl|]. split; [exact Ho|].
    intros Hnd k Hk. apply (Hs Hnd).
    rewrite (combine_nth_seq 0%nat 0 SNVpos row (length SNVpos)) by auto.
    apply in_map_iff. exists k. split; [reflexivity | apply in_seq; lia].
  - intro Hnot. eexists. apply put_fold_out_of_range.
    intro Hall. apply Hnot.
    apply (Forall_combine_fst (fun p => (p < length Homoseq)%nat) SNVpos row); assumption.
Qed.

Lemma put_snvs_spec_witness :
  put_snvs [1; 1; 1; 1] [0%nat; 2%nat] [3; 0] = Ok [3; 1; 0; 1] /\
  exists msg, put_snvs [1; 1] [0%nat; 2%nat] [3; 0] = Raise (IndexError msg).
Proof.
  split.
  - destruct (put_snvs_spec [1; 1; 1; 1] [0%nat; 2%nat] [3; 0] eq_refl) as [H _].
    destruct H as (full & Hf & _); [repeat constructor|].
    rewrite Hf. vm_compute in Hf. injection Hf as <-. reflexivity.
  - destruct (put_snvs_spec [1; 1] [0%nat; 2%nat] [3; 0] eq_refl) as [_ H].
    apply H. intro Hall. inversion Hall as [|? ? _ H2]; subst.
    inversion H2 as [|? ? H3 _]; subst. simpl in H3. lia.
Defined.

(** X16.  The text of a full sequence of the length of the reference: one
    letter per entry, A, C, G, T for 1..4 and a star for a gap, so the
    early exit of the loop is never taken; an entry outside 0..4 gives no
    letter. *)
Theorem render_full_sequence (Glen : nat) (row : list Z) :
  length row = Glen ->
  render Glen 0 row
  = string_of_list_ascii
      (map nucleotide_letter (filter (fun x => (0 <=? x) && (x <=? 4)) row)) /\
  (Forall (fun x => 0 <= x <= 4) row ->
   render Glen 0 row = string_of_list_ascii (map nucleotide_letter row) /\
   String.length (render Glen 0 row) = Glen).
Proof.
  intro Hlen.
  assert (H : render Glen 0 row
              = string_of_list_ascii
                  (map nucleotide_letter
                       (filter (fun x => (0 <=? x) && (x <=? 4)) row)))
    by (apply render_letters; lia).
  split; [exact H|]. intro Hall.
  rewrite H, filter_all.
  - split; [reflexivity|]. now rewrite length_string_of_list, length_map.
  - eapply Forall_impl; [|exact Hall]. intros x Hx. cbv beta in Hx |- *.
    apply andb_true_iff. split; apply Z.leb_le; lia.
Qed.

Lemma render_full_sequence_witness :
  render 5 0 [1; 2; 0; 4; 3] = "AC*TG"%string.
Proof.
  destruct (render_full_sequence 5 [1; 2; 0; 4; 3] eq_refl) as [_ H].
  destruct H as [H _]; [repeat (apply Forall_cons; [lia|]); apply Forall_nil|]. exact H.
Defined.

(** * The table of the sequences and the order of the records *)

Section Table_sort_facts.

Lemma sorted_snoc {A} (R : A -> A -> Prop) (l : list A) (a : A) :
  StronglySorted R l -> Forall (fun x => R x a) l -> StronglySorted R (l ++ [a]).
Proof.
  induction 1 as [|x l Hs IH Hall]; intro Ha; cbn [app].
  - repeat constructor.
  - inversion Ha; subst. constructor; [now apply IH|].
    apply Forall_app. split; [exact Hall | now repeat constructor].
Qed.

Lemma sorted_rev {A} (R : A -> A -> Prop) (l : list A) :
  StronglySorted R l -> StronglySorted (fun a b => R b a) (rev l).
Proof.
  induction 1 as [|x l Hs IH Hall]; cbn [rev]; [constructor|].
  apply sorted_snoc; [exact IH|].
  apply Forall_forall. intros y Hy. apply in_rev in Hy.
  rewrite Forall_forall in Hall. now apply Hall.
Qed.

Lemma sorted_map {A B} (f : A -> B) (R : B -> B -> Prop) (l : list A) :
  StronglySorted (fun a b => R (f a) (f b)) l -> StronglySorted R (map f l).
Proof.
  induction 1 as [|x l Hs IH Hall]; cbn [map]; constructor; [exact IH|].
  rewrite Forall_map. exact Hall.
Qed.

Lemma sorted_weaken {A} (R R' : A -> A -> Prop) (l : list A) :
  (forall a b, R a b -> R' a b) -> StronglySorted R l -> StronglySorted R' l.
Proof.
  intros Himp. induction 1 as [|x l Hs IH Hall]; constructor; [exact IH|].
  eapply Forall_impl; [|exact Hall]. intros a. apply Himp.
Qed.

Lemma sorted_app_inv {A} (R : A -> A -> Prop) (l1 l2 : list A) :
  StronglySorted R (l1 ++ l2) ->
  forall a b, In a l1 -> In b l2 -> R a b.
Proof.
  induction l1 as [|x l1 IH]; intros Hs a b Ha Hb; [destruct Ha|].
  cbn [app] in Hs. inversion Hs as [|? ? Hs' Hall]; subst.
  destruct Ha as [<- | Ha].
  - rewrite Forall_forall in Hall. apply Hall. apply in_or_app. now right.
  - now apply IH.
Qed.

Lemma insert_by_sorted (v : nat -> Q) (i : nat) (l : list nat) :
  StronglySorted (fun a b => (v a <= v b)%Q) l ->
  StronglySorted (fun a b => (v a <= v b)%Q) (insert_by v i l).
Proof.
  induction 1 as [|j t Hs IH Hall]; cbn [insert_by].
  - repeat constructor.
  - destruct (Qltb (v i) (v j)) eqn:E.
    + apply Qltb_lt in E. constructor; [now constructor|].
      constructor; [lra|]. eapply Forall_impl; [|exact Hall].
      intros a Ha. cbv beta in Ha. lra.
    + assert (Hji : (v j <= v i)%Q).
      { apply Qnot_lt_le. intro Hlt. apply Qltb_lt in Hlt. congruence. }
      constructor; [exact IH|].
      apply Forall_forall. intros a Ha.
      apply (Permutation_in _ (insert_by_perm v i t)) in Ha.
      destruct Ha as [<- | Ha]; [exact Hji|].
      rewrite Forall_forall in Hall. now apply Hall.
Qed.

(** [np.argsort] lists the positions in ascending order of their values. *)
Lemma argsort_sorted (vals : list Q) :
  StronglySorted (fun a b => (nth a vals 0 <= nth b vals 0)%Q) (argsort vals).
Proof.
  unfold argsort.
  assert (H : forall l acc,
            StronglySorted (fun a b => (nth a vals 0 <= nth b vals 0)%Q) acc ->
            StronglySorted (fun a b => (nth a vals 0 <= nth b vals 0)%Q)
              (fold_left (fun acc i => insert_by (fun k => nth k vals 0%Q) i acc) l acc)).
  { induction l as [|i l IH]; intros acc Hacc; cbn [fold_left]; [exact Hacc|].
    apply IH. now apply (insert_by_sorted (fun k => nth k vals 0%Q)). }
  apply H. constructor.
Qed.

(** The total that a sequence holds in the table. *)
Lemma ht_add_total (h : list (string * Q)) (k k' : string) (v : Q) :
  (sum_listQ (map snd (filter (fun kv => String.eqb (fst kv) k') (ht_add h k v)))
   == sum_listQ (map snd (filter (fun kv => String.eqb (fst kv) k') h))
      + (if String.eqb k k' then v else 0))%Q.
Proof.
  induction h as [|[k0 v0] h IH]; cbn [ht_add filter fst].
  - destruct (String.eqb k k'); cbn; ring.
  - destruct (String.eqb_spec k k0) as [-> | Hne]; cbn [filter fst].
    + destruct (String.eqb k0 k'); cbn [map snd].
      * change (sum_listQ ((v0 + v)%Q :: ?t)) with ((v0 + v) + sum_listQ t)%Q.
        unfold sum_listQ at 1 2. cbn [fold_right]. ring.
      * ring.
    + destruct (String.eqb k0 k') eqn:E0; cbn [map snd].
      * unfold sum_listQ at 1 2. cbn [fold_right].
        fold (sum_listQ (map snd (filter (fun kv => String.eqb (fst kv) k') (ht_add h k v)))).
        fold (sum_listQ (map snd (filter (fun kv => String.eqb (fst kv) k') h))).
        rewrite IH. ring.
      * exact IH.
Qed.

Lemma ht_add_keys (h : list (string * Q)) (k : string) (v : Q) :
  NoDup (map fst h) ->
  NoDup (map fst (ht_add h k v)) /\
  (forall k', In k' (map fst (ht_add h k v)) <-> k' = k \/ In k' (map fst h)).
Proof.
  induction h as [|[k0 v0] h IH]; intro Hnd; cbn [ht_add map fst].
  - split; [repeat constructor; intros []|]. intro k'. cbn. intuition.
  - inversion Hnd as [|? ? Hnotin Hnd']; subst.
    destruct (String.eqb_spec k k0) as [-> | Hne]; cbn [map fst].
    + split; [exact Hnd|]. intro k'. cbn. intuition.
    + destruct (IH Hnd') as [I1 I2]. split.
      * constructor; [|exact I1]. rewrite I2. intros [E | Hin]; [congruence | contradiction].
      * intro k'. cbn [In]. rewrite I2. intuition.
Qed.

Lemma Hashtable_fold (Quasi : list string) (fre : list Q) (l : list nat) :
  forall h,
    NoDup (map fst h) ->
    let h' := fold_left (fun h i => ht_add h (nth i Quasi EmptyString) (nth i fre 0%Q)) l h in
    NoDup (map fst h') /\
    (forall k, In k (map fst h') <->
               In k (map fst h) \/ In k (map (fun i => nth i Quasi EmptyString) l)) /\
    (forall k,
       (sum_listQ (map snd (filter (fun kv => String.eqb (fst kv) k) h'))
        == sum_listQ (map snd (filter (fun kv => String.eqb (fst kv) k) h))
           + sum_listQ (map (fun i => nth i fre 0)
                            (filter (fun i => String.eqb (nth i Quasi EmptyString) k) l)))%Q).
Proof.
  induction l as [|i l IH]; intros h Hnd; cbn [fold_left].
  - split; [exact Hnd|]. split.
    + intro k. cbn. intuition.
    + intro k. cbn [filter map]. change (sum_listQ []) with 0%Q. ring.
  - destruct (ht_add_keys h (nth i Quasi EmptyString) (nth i fre 0%Q) Hnd) as [K1 K2].
    destruct (IH _ K1) as (I1 & I2 & I3). split; [exact I1|]. split.
    + intro k. rewrite I2, K2. cbn [map In]. intuition.
    + intro k. rewrite I3, ht_add_total. cbn [filter].
      destruct (String.eqb (nth i Quasi EmptyString) k); cbn [map].
      * match goal with
        | |- context [sum_listQ (?a :: ?t)] =>
            change (sum_listQ (a :: t)) with (a + sum_listQ t)%Q
        end.
        ring.
      * ring.
Qed.

Lemma single_key_total (h : list (string * Q)) (k : string) (v : Q) :
  NoDup (map fst h) -> In (k, v) h ->
  (sum_listQ (map snd (filter (fun kv => String.eqb (fst kv) k) h)) == v)%Q.
Proof.
  induction h as [|[k0 v0] h IH]; intros Hnd Hin; [destruct Hin|].
  cbn [map fst] in Hnd. inversion Hnd as [|? ? Hnotin Hnd']; subst.
  cbn [filter fst]. destruct Hin as [E | Hin].
  - injection E as -> ->. rewrite String.eqb_refl.
    assert (Hnone : filter (fun kv => String.eqb (fst kv) k) h = []).
    { clear -Hnotin. induction h as [|[k1 v1] h IHh]; [reflexivity|].
      cbn [filter fst map] in *. destruct (String.eqb_spec k1 k) as [-> | Hne].
      - exfalso. apply Hnotin. now left.
      - apply IHh. intro; apply Hnotin; now right. }
    rewrite Hnone. cbn. ring.
  - destruct (String.eqb_spec k0 k) as [-> | Hne].
    + exfalso. apply Hnotin. apply in_map_iff. exists (k, v). auto.
    + now apply IH.
Qed.

Lemma Hashtable_facts (Quasi : list string) (fre : list Q) :
  let h := Hashtable Quasi fre in
  NoDup (map fst h) /\
  (forall k, In k (map fst h) <-> In k Quasi) /\
  (forall k v, In (k, v) h ->
     (v == sum_listQ (map (fun i => nth i fre 0)
                          (filter (fun i => String.eqb (nth i Quasi EmptyString) k)
                                  (seq 0 (length Quasi)))))%Q).
Proof.
  unfold Hashtable.
  destruct (Hashtable_fold Quasi fre (seq 0 (length Quasi)) [] (NoDup_nil _))
    as (H1 & H2 & H3).
  split; [exact H1|]. split.
  - intro k. rewrite H2, map_nth_seq. cbn. intuition.
  - intros k v Hin. rewrite <- (single_key_total _ k v H1 Hin), H3.
    cbn [filter map]. change (sum_listQ []) with 0%Q. ring.
Qed.

End Table_sort_facts.

(** X17.  The table of the sequences holds every sequence once, and the
    frequency of a sequence is the sum of the frequencies of all the
    strains with that sequence. *)
Theorem Hashtable_merges (Quasi : list string) (fre : list Q) :
  length fre = length Quasi ->
  let h := Hashtable Quasi fre in
  NoDup (map fst h) /\
  (forall k, In k (map fst h) <-> In k Quasi) /\
  (forall k v, In (k, v) h ->
     (v == sum_listQ (map (fun i => nth i fre 0)
                          (filter (fun i => String.eqb (nth i Quasi EmptyString) k)
                                  (seq 0 (length Quasi)))))%Q).
Proof. intros _. apply Hashtable_facts. Qed.

Lemma Hashtable_merges_witness :
  Hashtable ["AC"; "GT"; "AC"]%string [1 # 2; 1 # 4; 1 # 4]%Q
  = [("AC"%string, (1 # 2) + (1 # 4)); ("GT"%string, 1 # 4)]%Q.
Proof.
  destruct (Hashtable_merges ["AC"; "GT"; "AC"]%string [1 # 2; 1 # 4; 1 # 4]%Q eq_refl)
    as (_ & _ & _).
  reflexivity.
Defined.

(** X18.  The records of the FASTA file hold distinct sequences, in order
    of non-increasing frequency, and there are at most as many records as
    retained haplotypes.  Every record is the text of a retained haplotype
    written into the reference. *)
Theorem fasta_records_sorted (Homoseq : list Z) (SNVpos : list nat) (s : strains)
    (out : list (string * Q)) :
  fasta Homoseq SNVpos s = Ok out ->
  NoDup (map fst out) /\
  StronglySorted (fun a b => (snd b <= snd a)%Q) out /\
  (length out <= length (V_deletion_new s))%nat /\
  (forall k, In k (map fst out) ->
     exists row full,
       In row (V_deletion_new s) /\ put_snvs Homoseq SNVpos row = Ok full /\
       k = render (length Homoseq) 0 full).
Proof.
  intro H. unfold fasta in H.
  match type of H with
  | bind ?c _ = _ => destruct c as [Recon | e] eqn:ER; [|discriminate]
  end.
  cbn [bind] in H. injection H as <-.
  set (Quasi := map (render (length Homoseq) 0) Recon).
  set (h := Hashtable Quasi (viralseq_fre_new s)).
  destruct (Hashtable_facts Quasi (viralseq_fre_new s)) as (H1 & H2 & _).
  fold h in H1, H2.
  assert (Hperm : Permutation (map (fun i => nth i h (EmptyString, 0%Q))
                                   (rev (argsort (map snd h)))) h).
  { apply nth_perm. rewrite <- Permutation_rev, argsort_perm. now rewrite length_map. }
  assert (Hrows : forall full, In full Recon ->
            exists row, In row (V_deletion_new s) /\ put_snvs Homoseq SNVpos row = Ok full).
  { clear -ER. revert Recon ER.
    induction (V_deletion_new s) as [|row V IH]; intros Recon ER full Hin;
      cbn [fold_right] in ER.
    - injection ER as <-. destruct Hin.
    - destruct (fold_right _ (Ok []) V) as [rest|e]; [|discriminate].
      cbn [bind] in ER. destruct (put_snvs Homoseq SNVpos row) as [f|e] eqn:Ep; [|discriminate].
      cbn [bind] in ER. injection ER as <-. destruct Hin as [<- | Hin].
      + exists row. split; [now left | exact Ep].
      + destruct (IH rest eq_refl full Hin) as (r & Hr & Hp).
        exists r. split; [now right | exact Hp]. }
  split; [|split; [|split]].
  - apply (Permutation_NoDup (l := map fst h)); [|exact H1].
    apply Permutation_map. symmetry. exact Hperm.
  - apply sorted_map. apply sorted_rev.
    pose proof (argsort_sorted (map snd h)) as Hs.
    eapply sorted_weaken; [|exact Hs].
    intros a b Hab. cbv beta in *.
    rewrite <- !(map_nth snd h (EmptyString, 0%Q)). exact Hab.
  - rewrite length_map, length_rev, length_argsort, length_map.
    apply put_rows_length in ER. rewrite <- ER.
    assert (Hl : (length (map fst h) <= length Quasi)%nat).
    { apply NoDup_incl_length; [exact H1|]. intros k Hk. now apply H2. }
    rewrite length_map in Hl. unfold Quasi in Hl. now rewrite length_map in Hl.
  - intros k Hk.
    apply (Permutation_in _ (Permutation_map fst Hperm)) in Hk.
    apply H2 in Hk. unfold Quasi in Hk. apply in_map_iff in Hk.
    destruct Hk as (full & <- & Hfull).
    destruct (Hrows full Hfull) as (row & Hr & Hp).
    exists row, full. auto.
Qed.

Lemma fasta_records_sorted_witness :
  fasta [1; 1; 1] [0%nat; 2%nat]
        (mk_strains [[1; 2]; [1; 1]] [2 # 5; 3 # 5]%Q [[1; 1]; [1; 2]] [3 # 5; 2 # 5]%Q)
  = Ok [("AAA"%string, (3 # 5)%Q); ("AAC"%string, (2 # 5)%Q)] /\
  NoDup (map fst [("AAA"%string, (3 # 5)%Q); ("AAC"%string, (2 # 5)%Q)]).
Proof.
  assert (H : fasta [1; 1; 1] [0%nat; 2%nat]
                (mk_strains [[1; 2]; [1; 1]] [2 # 5; 3 # 5]%Q
                            [[1; 1]; [1; 2]] [3 # 5; 2 # 5]%Q)
              = Ok [("AAA"%string, (3 # 5)%Q); ("AAC"%string, (2 # 5)%Q)])
    by (vm_compute; reflexivity).
  split; [exact H|].
  exact (proj1 (fasta_records_sorted _ _ _ _ H)).
Defined.

(** * The haplotypes kept by the rank truncation *)

Section Retained_facts.

Lemma rank_cols_le_cols (ncols : nat) :
  forall rows, (rank_cols ncols rows <= ncols)%nat.
Proof.
  induction ncols as [|n IH]; intro rows; cbn [rank_cols]; [lia|].
  destruct (split_pivot rows) as [[p rest]|].
  - specialize (IH (map (eliminate p) rest)). lia.
  - specialize (IH (map (@tl Q) rows)). lia.
Qed.

Lemma sorted_prefix {A} (R : A -> A -> Prop) (l1 l2 : list A) :
  StronglySorted R (l1 ++ l2) -> StronglySorted R l1.
Proof.
  induction l1 as [|x l1 IH]; intro H; [constructor|].
  cbn [app] in H. inversion H as [|? ? Hs Hall]; subst.
  constructor; [now apply IH|].
  apply Forall_app in Hall. apply Hall.
Qed.

(** The first [m] positions in descending order of frequency. *)
Lemma top_positions (fre : list Q) (m : nat) :
  let kept := firstn m (rev (argsort fre)) in
  NoDup kept /\
  Forall (fun i => (i < length fre)%nat) kept /\
  length kept = Nat.min m (length fre) /\
  StronglySorted (fun a b => (nth b fre 0 <= nth a fre 0)%Q) kept /\
  (forall i j, In i kept -> (j < length fre)%nat -> ~ In j kept ->
               (nth j fre 0 <= nth i fre 0)%Q).
Proof.
  intro kept.
  set (idx := rev (argsort fre)).
  assert (Hperm : Permutation idx (seq 0 (length fre))).
  { unfold idx. rewrite <- Permutation_rev. apply argsort_perm. }
  assert (Hnd : NoDup idx).
  { apply (Permutation_NoDup (Permutation_sym Hperm)). apply seq_NoDup. }
  assert (Hsorted : StronglySorted (fun a b => (nth b fre 0 <= nth a fre 0)%Q) idx).
  { unfold idx. apply (sorted_rev (fun a b => (nth a fre 0 <= nth b fre 0)%Q)).
    apply argsort_sorted. }
  assert (Hsplit : idx = kept ++ skipn m idx)
    by (unfold kept; fold idx; symmetry; apply firstn_skipn).
  split; [|split; [|split; [|split]]].
  - rewrite Hsplit in Hnd. now apply NoDup_app_remove_r in Hnd.
  - apply Forall_forall. intros i Hi.
    assert (Hin : In i idx) by (rewrite Hsplit; apply in_or_app; now left).
    apply (Permutation_in _ Hperm) in Hin. apply in_seq in Hin. lia.
  - unfold kept. fold idx. rewrite length_firstn.
    rewrite (Permutation_length Hperm), length_seq. reflexivity.
  - rewrite Hsplit in Hsorted. now apply sorted_prefix in Hsorted.
  - intros i j Hi Hj Hnot.
    assert (Hin : In j idx).
    { apply (Permutation_in _ (Permutation_sym Hperm)). apply in_seq. lia. }
    rewrite Hsplit in Hin. apply in_app_or in Hin.
    destruct Hin as [Hin | Hin]; [contradiction|].
    rewrite Hsplit in Hsorted.
    exact (sorted_app_inv _ _ _ Hsorted i j Hi Hin).
Qed.

Lemma collapse_kept (S : matrix) (L : nat) (reconV2 : matrix) (s : strains) :
  collapse S L reconV2 = Ok s ->
  exists index,
    reassign S reconV2 = Ok index /\
    length (V_deletion s) = length reconV2 /\
    viralseq_fre s
    = map (fun i =>
             (inject_Z (Z.of_nat (length (filter (fun a => Nat.eqb a i) index)))
              / inject_Z
                  (sum_list
                     (map (fun i =>
                             Z.of_nat (length (filter (fun a => Nat.eqb a i) index)))
                          (seq 0 (length reconV2)))))%Q)
          (seq 0 (length reconV2)) /\
    V_deletion_new s
    = take_rows (V_deletion s)
        (firstn (matrix_rank L (V_deletion s)) (rev (argsort (viralseq_fre s)))).
Proof.
  intro H. unfold collapse in H.
  destruct (reassign S reconV2) as [index | e] eqn:Ere; [|discriminate].
  cbn [bind] in H.
  match type of H with
  | bind ?c _ = _ => destruct c as [V_del | e] eqn:EV; [|discriminate]
  end.
  cbn [bind] in H. apply collect_rows_length in EV. rewrite length_seq in EV.
  injection H as <-. cbn [V_deletion viralseq_fre V_deletion_new].
  exists index. split; [reflexivity|]. split; [exact EV|]. split.
  - rewrite map_map. reflexivity.
  - reflexivity.
Qed.

End Retained_facts.

(** X19.  The rank truncation keeps the most frequent haplotypes.  With at
    least one read, the frequency of a haplotype is the share of the reads
    assigned to it.
    The haplotypes kept are as many as the rank of [V_deletion], which is
    at most the number of haplotypes and at most the number of SNV
    positions; they are distinct rows of [V_deletion], listed in order of
    non-increasing frequency, and no haplotype that is dropped is more
    frequent than one that is kept. *)
Theorem collapse_keeps_most_frequent (S : matrix) (L : nat) (reconV2 : matrix)
    (s : strains) :
  S <> [] ->
  collapse S L reconV2 = Ok s ->
  length (V_deletion s) = length reconV2 /\
  length (viralseq_fre s) = length reconV2 /\
  (exists index,
     reassign S reconV2 = Ok index /\
     forall i, (i < length reconV2)%nat ->
       (nth i (viralseq_fre s) 0
        == inject_Z (Z.of_nat (length (filter (fun a => Nat.eqb a i) index)))
           / inject_Z (Z.of_nat (length S)))%Q) /\
  length (V_deletion_new s) = matrix_rank L (V_deletion s) /\
  (length (V_deletion_new s) <= length reconV2)%nat /\
  (length (V_deletion_new s) <= L)%nat /\
  exists kept,
    V_deletion_new s = map (fun i => nth i (V_deletion s) []) kept /\
    NoDup kept /\
    Forall (fun i => (i < length reconV2)%nat) kept /\
    StronglySorted
      (fun a b => (nth b (viralseq_fre s) 0 <= nth a (viralseq_fre s) 0)%Q) kept /\
    (forall i j, In i kept -> (j < length reconV2)%nat -> ~ In j kept ->
                 (nth j (viralseq_fre s) 0 <= nth i (viralseq_fre s) 0)%Q).
Proof.
  intros _ H.
  destruct (collapse_kept S L reconV2 s H) as (index & Hre & HV & Hfre & Hnew).
  assert (Hfl : length (viralseq_fre s) = length reconV2)
    by (rewrite Hfre; now rewrite length_map, length_seq).
  destruct (top_positions (viralseq_fre s) (matrix_rank L (V_deletion s)))
    as (K1 & K2 & K3 & K4 & K5).
  set (kept := firstn (matrix_rank L (V_deletion s)) (rev (argsort (viralseq_fre s)))) in *.
  pose proof (matrix_rank_le L (V_deletion s)) as Hrk.
  assert (Hnl : length (V_deletion_new s) = matrix_rank L (V_deletion s)).
  { rewrite Hnew. unfold take_rows. rewrite length_map. fold kept. rewrite K3. lia. }
  split; [exact HV|]. split; [exact Hfl|]. split.
  { exists index. split; [exact Hre|]. intros i Hi.
    destruct (reassign_length _ _ _ Hre) as [Hlen Hne].
    assert (Hidx : Forall (fun a => (a < length reconV2)%nat) index).
    { unfold reassign, argmax_axis1 in Hre.
      destruct (Nat.eqb (length reconV2) 0); [discriminate|].
      injection Hre as <-. rewrite Forall_map. apply Forall_forall. intros row Hrow.
      unfold iden_table in Hrow. apply in_map_iff in Hrow.
      destruct Hrow as (read & <- & _).
      set (l := map (fun hap => ident_count read hap) reconV2).
      assert (Hl : length l = length reconV2) by (unfold l; apply length_map).
      destruct (argmax_list_first_max l) as [Hlt _].
      - intro E. rewrite E in Hl. simpl in Hl. destruct reconV2; [now apply Hne | discriminate].
      - now rewrite Hl in Hlt. }
    rewrite Hfre.
    set (f := fun i0 => (inject_Z (Z.of_nat (length (filter (fun a => Nat.eqb a i0) index)))
                         / inject_Z _)%Q).
    rewrite (nth_indep _ 0%Q (f 0%nat)) by (rewrite length_map, length_seq; exact Hi).
    rewrite (map_nth f), seq_nth by exact Hi. unfold f.
    rewrite (count_partition index (length reconV2) Hidx), Hlen. reflexivity. }
  split; [exact Hnl|]. split; [lia|]. split.
  { rewrite Hnl. unfold matrix_rank. apply rank_cols_le_cols. }
  exists kept. split; [exact Hnew|]. split; [exact K1|]. split.
  { rewrite <- Hfl. exact K2. }
  split; [exact K4|].
  intros i j Hi Hj Hnot. apply K5; [exact Hi | now rewrite Hfl | exact Hnot].
Qed.

Lemma collapse_keeps_most_frequent_witness :
  exists s,
    collapse [[1; 1]; [1; 1]; [1; 1]; [2; 2]; [2; 2]] 2 [[2; 2]; [1; 1]] = Ok s /\
    V_deletion_new s = [[1; 1]].
Proof.
  eexists. split; [vm_compute; reflexivity|].
  destruct (collapse_keeps_most_frequent
              [[1; 1]; [1; 1]; [1; 1]; [2; 2]; [2; 2]] 2 [[2; 2]; [1; 1]] _
              ltac:(discriminate) ltac:(vm_compute; reflexivity)) as (_ & _).
  reflexivity.
Defined.

(** * The statistics of a split read matrix *)

Section Count_facts.

Lemma nuc_count_app (A B : matrix) (j c : nat) :
  nuc_count (A ++ B) j c = nuc_count A j c + nuc_count B j c.
Proof. unfold nuc_count. rewrite filter_app, length_app. lia. Qed.

Lemma filter_perm_length {X} (f : X -> bool) (l l' : list X) :
  Permutation l l' -> length (filter f l) = length (filter f l').
Proof.
  induction 1 as [|x l l' _ IH|x y l|l l' l'' _ IH1 _ IH2]; cbn [filter].
  - reflexivity.
  - destruct (f x); cbn [length]; now rewrite IH.
  - destruct (f x), (f y); reflexivity.
  - congruence.
Qed.

Lemma nuc_count_perm (A B : matrix) (j c : nat) :
  Permutation A B -> nuc_count A j c = nuc_count B j c.
Proof. intro H. unfold nuc_count. f_equal. now apply filter_perm_length. Qed.

Lemma has_cols_perm {X} (L : nat) (A B : list (list X)) :
  Permutation A B -> has_cols L A -> has_cols L B.
Proof. intros H HA. unfold has_cols in *. eapply Permutation_Forall; eassumption. Qed.

Lemma count_table_perm (L : nat) (A B : matrix) :
  Permutation A B -> count_table L A = count_table L B.
Proof.
  intro H. unfold count_table. apply map_ext. intro j.
  apply map_ext. intro c. now apply nuc_count_perm.
Qed.

Lemma count_table_app (L : nat) (A B : matrix) :
  count_table L (A ++ B)
  = map (fun rs => map (fun ab => fst ab + snd ab) (combine (fst rs) (snd rs)))
        (combine (count_table L A) (count_table L B)).
Proof.
  unfold count_table. rewrite combine_map_map, map_map.
  apply map_ext. intro j. cbn [fst snd].
  rewrite combine_map_map, map_map. apply map_ext. intro c. cbn [fst snd].
  apply nuc_count_app.
Qed.

End Count_facts.

(** X20.  The statistics do not depend on the order of the reads, and the
    statistics of two sets of reads taken together are the sums of their
    statistics.  So the counts of the active reads are the counts of the
    reads assigned to the dominant haplotype plus the counts of the reads
    kept for the next round. *)
Theorem ACGT_count_additive (L : nat) (A B : matrix) :
  has_cols L A -> has_cols L B ->
  (Permutation A B -> ACGT_rows L A = ACGT_rows L B) /\
  (exists TA TB,
     ACGT_rows L A = Ok TA /\ ACGT_rows L B = Ok TB /\
     ACGT_rows L (A ++ B)
     = Ok (map (fun rs => map (fun ab => fst ab + snd ab) (combine (fst rs) (snd rs)))
               (combine TA TB))) /\
  (forall binom_pmf seq_err ACGTcount V_flag mis_cri,
     let index := select_reads binom_pmf seq_err ACGTcount A V_flag mis_cri in
     exists TS TR,
       ACGT_rows L (take_rows A index) = Ok TS /\
       ACGT_rows L (delete_rows A index) = Ok TR /\
       ACGT_rows L A
       = Ok (map (fun rs => map (fun ab => fst ab + snd ab) (combine (fst rs) (snd rs)))
                 (combine TS TR))).
Proof.
  intros HA HB. split; [|split].
  - intro H. rewrite (ACGT_rows_ok L A HA), (ACGT_rows_ok L B HB).
    f_equal. now apply count_table_perm.
  - exists (count_table L A), (count_table L B).
    split; [now apply ACGT_rows_ok|]. split; [now apply ACGT_rows_ok|].
    rewrite ACGT_rows_ok.
    + f_equal. apply count_table_app.
    + unfold has_cols in *. apply Forall_app. split; assumption.
  - intros binom_pmf seq_err ACGTcount V_flag mis_cri index.
    assert (Hperm : Permutation (take_rows A index ++ delete_rows A index) A).
    { unfold index, select_reads.
      set (p := fun i => selects binom_pmf seq_err ACGTcount V_flag (nth i A []) (nth i mis_cri 0)).
      rewrite (delete_filtered [] A p). unfold take_rows. rewrite <- map_app.
      rewrite <- (map_nth_seq [] A) at 3.
      apply Permutation_map, filter_partition. }
    assert (Hboth : has_cols L (take_rows A index ++ delete_rows A index))
      by (apply (has_cols_perm L A); [now symmetry | exact HA]).
    unfold has_cols in Hboth. apply Forall_app in Hboth. destruct Hboth as [HS HR].
    exists (count_table L (take_rows A index)), (count_table L (delete_rows A index)).
    split; [now apply ACGT_rows_ok|]. split; [now apply ACGT_rows_ok|].
    rewrite (ACGT_rows_ok L A HA). f_equal.
    rewrite <- count_table_app. symmetry. now apply count_table_perm.
Qed.

Lemma ACGT_count_additive_witness :
  ACGT_rows 2 ([[1; 0]; [2; 4]] ++ [[1; 4]])
  = Ok [[2; 1; 0; 0]; [0; 0; 0; 2]] /\
  ACGT_rows 2 [[1; 0]; [2; 4]] = ACGT_rows 2 [[2; 4]; [1; 0]].
Proof.
  destruct (ACGT_count_additive 2 [[1; 0]; [2; 4]] [[2; 4]; [1; 0]]) as (H & _).
  - repeat constructor.
  - repeat constructor.
  - split; [reflexivity|]. apply H. apply perm_swap.
Defined.
